(** * Key parsing and key rotation of [app/core/api_key_manager.py]

    A shallow embedding of the API key manager: the environment parser
    [_parse_provider_keys], the process-wide rotation store
    [_rotation_state], the per-request [KeyCycleTracker] and the free
    functions [get_api_key], [mark_key_failed], [reset_failed_keys] and
    [reset_rotation_state].

    Conventions.
    - Python [str] is [string]; provider names and variable names are read
      as ASCII, so [str.upper] acts on the letters a-z and the regex class
      [\d] is the digits 0-9.
    - [time.time()] is a clock reading in [Z]; only differences of readings
      are compared with the integer [KEY_COOLDOWN_SECONDS].
    - [os.environ] is an association list in iteration order, one entry
      per variable name.
    - [Dict[str, float]] is [gmap string Z], [Set[str]] is [gset string];
      the [defaultdict] of rotation states is a [gmap] read with a default,
      where a subscript also creates the entry. *)

From Stdlib Require Import ZArith Ascii String List Lia Permutation Sorted.
From stdpp Require Import base decidable option list sets gmap strings.

Local Open Scope string_scope.
Local Open Scope Z_scope.

(** ** Strings *)

Definition upper_ascii (c : ascii) : ascii :=
  let n := nat_of_ascii c in
  if ((97 <=? n) && (n <=? 122))%nat then ascii_of_nat (n - 32) else c.

(** [str.upper] *)
Fixpoint upper (s : string) : string :=
  match s with
  | EmptyString => EmptyString
  | String c s' => String (upper_ascii c) (upper s')
  end.

(** [s.replace(a, b)] for one-character [a] and [b] *)
Fixpoint replace_char (a b : ascii) (s : string) : string :=
  match s with
  | EmptyString => EmptyString
  | String c s' => String (if Ascii.eqb c a then b else c) (replace_char a b s')
  end.

(** [needle in hay] *)
Fixpoint contains (needle hay : string) : bool :=
  String.prefix needle hay ||
  match hay with
  | EmptyString => false
  | String _ hay' => contains needle hay'
  end.

Fixpoint string_drop (n : nat) (s : string) : string :=
  match n, s with
  | O, _ => s
  | S n', String _ s' => string_drop n' s'
  | S _, EmptyString => EmptyString
  end.

Fixpoint string_take (n : nat) (s : string) : string :=
  match n, s with
  | S n', String c s' => String c (string_take n' s')
  | _, _ => EmptyString
  end.

Definition is_digit (c : ascii) : bool :=
  let n := nat_of_ascii c in ((48 <=? n) && (n <=? 57))%nat.

(** Length of the longest prefix of decimal digits. *)
Fixpoint digit_run (s : string) : nat :=
  match s with
  | String c s' => if is_digit c then S (digit_run s') else O
  | EmptyString => O
  end.

(** ** The compiled pattern

    [re.escape] makes every character of the pattern a literal, and the
    replacement of the escaped placeholder by [(\d+)] turns each
    occurrence of [{INDEX}], leftmost first, into a capture group. *)

Inductive tok : Type :=
  | Chr (c : ascii)
  | Idx.

Fixpoint tokenize (pattern : string) : list tok :=
  match pattern with
  | String "{" (String "I" (String "N" (String "D" (String "E"
      (String "X" (String "}" rest)))))) => Idx :: tokenize rest
  | String c rest => Chr c :: tokenize rest
  | EmptyString => []
  end.

(** [$] without [re.MULTILINE]: the end of the string, or just before a
    newline that ends the string. *)
Definition at_end (s : string) : bool :=
  match s with
  | EmptyString => true
  | String c EmptyString => Ascii.eqb c "010"%char
  | _ => false
  end.

(** [regex.match(name)] for the anchored pattern: the captured groups, the
    greedy [\d+] trying its longest run first and backing off one digit at
    a time. *)
Fixpoint re_match (ts : list tok) (s : string) : option (list string) :=
  match ts with
  | [] => if at_end s then Some [] else None
  | Chr c :: ts' =>
      match s with
      | String a s' => if Ascii.eqb a c then re_match ts' s' else None
      | EmptyString => None
      end
  | Idx :: ts' =>
      (fix back (k : nat) : option (list string) :=
         match k with
         | O => None
         | S k' =>
             match re_match ts' (string_drop k s) with
             | Some gs => Some (string_take k s :: gs)
             | None => back k'
             end
         end) (digit_run s)
  end.

(** ** Stable sort on the index, as [list.sort(key=...)] *)

Fixpoint insert_sorted (x : Z * string) (l : list (Z * string)) : list (Z * string) :=
  match l with
  | [] => [x]
  | y :: l' => if Z.leb (fst x) (fst y) then x :: y :: l' else y :: insert_sorted x l'
  end.

Definition sort_by_index (l : list (Z * string)) : list (Z * string) :=
  fold_right insert_sorted [] l.

(** Decimal value of a digit string. *)
Definition decimal (s : string) : Z :=
  fold_left (fun acc c => 10 * acc + (Z.of_nat (nat_of_ascii c) - 48))
            (list_ascii_of_string s) 0.

(** ** Rotation state and tracker records *)

Record KeyRotationState : Type := mkState {
  last_used_index : Z;
  failed_keys : gmap string Z
}.

(** [KeyRotationState()] *)
Definition fresh_state : KeyRotationState := mkState (-1) ∅.

Definition set_last_used_index (i : Z) (st : KeyRotationState) : KeyRotationState :=
  mkState i (failed_keys st).

Definition set_failed_keys (fk : gmap string Z) (st : KeyRotationState) : KeyRotationState :=
  mkState (last_used_index st) fk.

(** [_rotation_state], a [defaultdict(KeyRotationState)] *)
Abbreviation store := (gmap string KeyRotationState).

(** The value of [_rotation_state[p]]. *)
Definition state_of (s : store) (p : string) : KeyRotationState :=
  default fresh_state (s !! p).

(** The store after evaluating [_rotation_state[p]]: a missing entry is
    created with the default state. *)
Definition subscript (s : store) (p : string) : store :=
  <[p := state_of s p]> s.

Record KeyCycleTracker : Type := mkTracker {
  provider : string;
  max_cycles : Z;
  current_cycle : Z;
  keys_tried_this_cycle : gset string;
  _keys_attempted : gset string;
  _all_keys : list string;
  _key_index : Z
}.

Definition set_key_index (i : Z) (tr : KeyCycleTracker) : KeyCycleTracker :=
  mkTracker (provider tr) (max_cycles tr) (current_cycle tr)
            (keys_tried_this_cycle tr) (_keys_attempted tr) (_all_keys tr) i.

(** [keys_tried_this_cycle.add(k); _keys_attempted.add(k)] *)
Definition add_tried (k : string) (tr : KeyCycleTracker) : KeyCycleTracker :=
  mkTracker (provider tr) (max_cycles tr) (current_cycle tr)
            (keys_tried_this_cycle tr ∪ {[k]}) (_keys_attempted tr ∪ {[k]})
            (_all_keys tr) (_key_index tr).

(** Python's truth value of an [Optional[str]] argument. *)
Definition truthy (o : option string) : bool :=
  match o with
  | Some s => negb (String.eqb s "")
  | None => false
  end.

Section Manager.

(** [app.core.provider_config.get_provider_env_var_patterns]: the
    configured patterns, [None] when the lookup raises. *)
Variable get_provider_env_var_patterns : string -> option (list string).

(** [os.environ], in iteration order. *)
Variable environ : list (string * string).

(** [int] on a captured digit run: its value, or [None] for
    [ValueError] (the interpreter bounds the length of the literal). *)
Variable py_int : string -> option Z.

(** Module constants read from the environment at import. *)
Variable KEY_COOLDOWN_SECONDS : Z.
Variable MAX_KEY_RETRY_CYCLES : Z.

(** [os.getenv] *)
Fixpoint getenv_in (env : list (string * string)) (name : string) : option string :=
  match env with
  | [] => None
  | (n, v) :: env' => if String.eqb n name then Some v else getenv_in env' name
  end.

Definition getenv (name : string) : option string := getenv_in environ name.

(** The parser's two accumulators, [keys] and [seen]. *)
Definition acc : Type := list string * gset string.

Definition _add_key (value : option string) (a : acc) : acc :=
  match value with
  | Some v =>
      if negb (String.eqb v "") && bool_decide (v ∉ a.2)
      then ((a.1 ++ [v])%list, a.2 ∪ {[v]})
      else a
  | None => a
  end.

Fixpoint collect_matches (ts : list tok) (env : list (string * string))
  : list (Z * string) :=
  match env with
  | [] => []
  | (env_var, value) :: env' =>
      match re_match ts env_var with
      | None => collect_matches ts env'
      | Some groups =>
          match py_int (hd "" groups) with
          | None => collect_matches ts env'
          | Some index => (index, value) :: collect_matches ts env'
          end
      end
  end.

Definition _collect_indexed (pattern_with_index : string) : list (Z * string) :=
  sort_by_index (collect_matches (tokenize pattern_with_index) environ).

Definition add_pattern (a : acc) (pattern : string) : acc :=
  if contains "{INDEX}" pattern
  then fold_left (fun a iv => _add_key (Some iv.2) a) (_collect_indexed pattern) a
  else _add_key (getenv pattern) a.

Definition env_prefix (provider_name : string) : string :=
  replace_char "-" "_" (upper provider_name).

Definition default_patterns (provider_name : string) : list string :=
  [env_prefix provider_name ++ "_API_KEY";
   env_prefix provider_name ++ "_API_KEY_{INDEX}"].

Definition patterns_for (provider_name : string) : list string :=
  match get_provider_env_var_patterns provider_name with
  | Some (p :: ps) => p :: ps
  | _ => default_patterns provider_name
  end.

Definition _parse_provider_keys (provider_name : string) : list string :=
  (fold_left add_pattern (patterns_for provider_name) ([], ∅)).1.

(** ** Rotation state *)

(** [time.time() - fail_time < KEY_COOLDOWN_SECONDS] under the guard
    [fail_time is not None and KEY_COOLDOWN_SECONDS > 0] *)
Definition in_cooldown (fk : gmap string Z) (current_time : Z) (key : string) : bool :=
  match fk !! key with
  | Some fail_time =>
      (0 <? KEY_COOLDOWN_SECONDS) && (current_time - fail_time <? KEY_COOLDOWN_SECONDS)
  | None => false
  end.

(** *** KeyCycleTracker *)

Definition __init__ (provider : string) (max_cycles : option Z) (s : store)
  : KeyCycleTracker * store :=
  (mkTracker provider (default MAX_KEY_RETRY_CYCLES max_cycles) 0 ∅ ∅
             (_parse_provider_keys provider)
             (last_used_index (state_of s provider)),
   subscript s provider).

(** The [for _ in range(num_keys)] loop of [get_next_key], [n] probes
    left: the accepted candidate, if any, and the tracker as the loop
    leaves it. *)
Fixpoint probe (n : nat) (current_time : Z) (fk : gmap string Z)
         (tr : KeyCycleTracker) : option string * KeyCycleTracker :=
  match n with
  | O => (None, tr)
  | S n' =>
      let num_keys := Z.of_nat (length (_all_keys tr)) in
      let tr1 := set_key_index ((_key_index tr + 1) mod num_keys) tr in
      let candidate := _all_keys tr1 !!! Z.to_nat (_key_index tr1) in
      if bool_decide (candidate ∈ keys_tried_this_cycle tr1) then
        probe n' current_time fk tr1
      else if bool_decide (candidate ∉ _keys_attempted tr1)
              && in_cooldown fk current_time candidate then
        probe n' current_time fk tr1
      else (Some candidate, add_tried candidate tr1)
  end.

Definition _should_reset_cycle (tr : KeyCycleTracker) : bool :=
  (length (_all_keys tr) <=? size (keys_tried_this_cycle tr))%nat.

Definition _reset_cycle (tr : KeyCycleTracker) : KeyCycleTracker :=
  mkTracker (provider tr) (max_cycles tr) (current_cycle tr + 1) ∅
            (_keys_attempted tr) (_all_keys tr) (_key_index tr).

(** [get_next_key], one clock reading per invocation: the head of
    [clock] is what [time.time()] returns in this invocation, the tail
    serves the recursive call after a cycle reset. [None] only when the
    readings run out. *)
Fixpoint get_next_key_at (clock : list Z) (s : store) (tr : KeyCycleTracker)
  : option (option string * store * KeyCycleTracker) :=
  match clock with
  | [] => None
  | current_time :: later =>
      if bool_decide (_all_keys tr = []) then Some (None, s, tr)
      else if max_cycles tr <=? current_cycle tr then Some (None, s, tr)
      else
        let s1 := subscript s (provider tr) in
        let state := state_of s1 (provider tr) in
        match probe (length (_all_keys tr)) current_time (failed_keys state) tr with
        | (Some candidate, tr') =>
            Some (Some candidate,
                  <[provider tr := set_last_used_index (_key_index tr') state]> s1,
                  tr')
        | (None, tr') =>
            if _should_reset_cycle tr'
            then get_next_key_at later s1 (_reset_cycle tr')
            else Some (None, s1, tr')
        end
  end.

(** [tracker.get_next_key()] reading the clock as [now] and, in the
    recursive call after a reset, as [later]. *)
Definition get_next_key (now later : Z) (s : store) (tr : KeyCycleTracker)
  : option string * store * KeyCycleTracker :=
  default (None, s, tr) (get_next_key_at [now; later] s tr).

Fixpoint all_in_cooldown_loop (keys : list string) (fk : gmap string Z)
         (current_time : Z) : bool :=
  match keys with
  | [] => true
  | key :: keys' =>
      match fk !! key with
      | None => false
      | Some fail_time =>
          if KEY_COOLDOWN_SECONDS <=? current_time - fail_time then false
          else all_in_cooldown_loop keys' fk current_time
      end
  end.

Definition all_keys_in_cooldown (now : Z) (s : store) (tr : KeyCycleTracker)
  : bool * store :=
  if bool_decide (_all_keys tr = []) then (true, s)
  else if KEY_COOLDOWN_SECONDS <=? 0 then (false, s)
  else
    let s1 := subscript s (provider tr) in
    (all_in_cooldown_loop (_all_keys tr) (failed_keys (state_of s1 (provider tr))) now,
     s1).

Definition exhausted (tr : KeyCycleTracker) : bool :=
  if bool_decide (_all_keys tr = []) then true
  else if max_cycles tr <=? current_cycle tr then true
  else if _should_reset_cycle tr && (max_cycles tr <=? current_cycle tr + 1) then true
  else false.

Definition cycles_remaining (tr : KeyCycleTracker) : Z :=
  Z.max 0 (max_cycles tr - current_cycle tr).

Definition total_keys (tr : KeyCycleTracker) : nat := length (_all_keys tr).

(** *** Module functions *)

Definition mark_key_failed (provider key : string) (now : Z) (s : store) : store :=
  let state := state_of s provider in
  <[provider := set_failed_keys (<[key := now]> (failed_keys state)) state]> s.

Definition mark_failed (tr : KeyCycleTracker) (key : string) (now : Z) (s : store)
  : store :=
  mark_key_failed (provider tr) key now s.

Definition get_available_keys (provider : string) (s : store) : list string * store :=
  (_parse_provider_keys provider, s).

Definition get_all_keys (provider : string) (s : store) : list string * store :=
  (_parse_provider_keys provider, s).

(** The [for offset in range(num_keys)] loop of [get_api_key]. *)
Fixpoint get_api_key_loop (offsets : list nat) (all_keys : list string)
         (current_time : Z) (state : KeyRotationState)
  : option string * KeyRotationState :=
  match offsets with
  | [] => (None, state)
  | offset :: rest =>
      let num_keys := Z.of_nat (length all_keys) in
      let next_index := (last_used_index state + 1 + Z.of_nat offset) mod num_keys in
      let candidate_key := all_keys !!! Z.to_nat next_index in
      match failed_keys state !! candidate_key with
      | Some fail_time =>
          if 0 <? KEY_COOLDOWN_SECONDS then
            if current_time - fail_time <? KEY_COOLDOWN_SECONDS
            then get_api_key_loop rest all_keys current_time state
            else (Some candidate_key,
                  mkState next_index (delete candidate_key (failed_keys state)))
          else (Some candidate_key, set_last_used_index next_index state)
      | None => (Some candidate_key, set_last_used_index next_index state)
      end
  end.

Definition get_api_key (provider : string) (now : Z) (s : store)
  : option string * store :=
  let all_keys := _parse_provider_keys provider in
  if bool_decide (all_keys = []) then (None, s)
  else
    let s1 := subscript s provider in
    let r := get_api_key_loop (seq 0 (length all_keys)) all_keys now
                              (state_of s1 provider) in
    (r.1, <[provider := r.2]> s1).

Definition clear_failed (st : KeyRotationState) : KeyRotationState :=
  set_failed_keys ∅ st.

Definition reset_failed_keys (provider : option string) (s : store) : store :=
  if truthy provider then
    let p := default "" provider in
    match s !! p with
    | Some st => <[p := clear_failed st]> s
    | None => s
    end
  else clear_failed <$> s.

Definition reset_rotation_state (provider : option string) (s : store) : store :=
  if truthy provider then
    let p := default "" provider in
    match s !! p with
    | Some _ => <[p := fresh_state]> s
    | None => s
    end
  else ∅.

Definition get_rotation_state (provider : string) (s : store)
  : KeyRotationState * store :=
  (state_of s provider, subscript s provider).

(** ** Vocabulary of the statements *)

(** What one pattern contributes, before deduplication. *)
Definition candidates (pattern : string) : list string :=
  if contains "{INDEX}" pattern
  then map snd (_collect_indexed pattern)
  else option_list (getenv pattern).

End Manager.

(** Deduplication by value that keeps the first occurrence. *)
Definition step_first (l : list string) (v : string) : list string :=
  if bool_decide (v ∈ l) then l else (l ++ [v])%list.

Definition keep_first (l : list string) : list string :=
  fold_left step_first l [].

Definition nonempty (l : list string) : list string :=
  filter (fun v => v <> "") l.

Definition index_le (a b : Z * string) : Prop := a.1 <= b.1.

(** The parser's accumulators stay in step: [seen] is the set of [keys]. *)
Definition acc_ok (a : acc) : Prop := a.2 = list_to_set a.1.


(** The order as the specification words it: the keys of the literal
    patterns first, then the keys of the [{INDEX}] patterns. *)
Definition literal_first (patterns : list string) : list string :=
  (filter (fun p => contains "{INDEX}" p = false) patterns
   ++ filter (fun p => contains "{INDEX}" p = true) patterns)%list.

Definition spec_parse_provider_keys
    (get_provider_env_var_patterns : string -> option (list string))
    (environ : list (string * string)) (py_int : string -> option Z)
    (provider_name : string) : list string :=
  keep_first (nonempty (concat (map (candidates environ py_int)
    (literal_first (patterns_for get_provider_env_var_patterns provider_name))))).

(** ** Rotation order *)

(** The key at position [i] of the rotation, positions taken modulo the
    number of keys. *)
Definition key_at (keys : list string) (i : Z) : string :=
  keys !!! Z.to_nat (i mod Z.of_nat (length keys)).

(** The [j]-th candidate a tracker probes, counting from 0. *)
Definition candidate_at (tr : KeyCycleTracker) (j : nat) : string :=
  key_at (_all_keys tr) (_key_index tr + 1 + Z.of_nat j).

(** Whether the probing loop passes over key [k]: tried in this cycle, or
    not yet attempted by this tracker and in cooldown. *)
Definition rejects (cooldown now : Z) (fk : gmap string Z) (tr : KeyCycleTracker)
    (k : string) : bool :=
  bool_decide (k ∈ keys_tried_this_cycle tr)
  || (bool_decide (k ∉ _keys_attempted tr) && in_cooldown cooldown fk now k).

(** The result of [get_next_key] spelled out: a first sweep, and after a
    cycle reset at most one more. *)
Definition second_sweep (cd later : Z) (s1 : store) (tr2 : KeyCycleTracker)
  : option string * store * KeyCycleTracker :=
  if max_cycles tr2 <=? current_cycle tr2 then (None, s1, tr2)
  else
    match probe cd (length (_all_keys tr2)) later
                (failed_keys (state_of s1 (provider tr2))) tr2 with
    | (Some k, tr3) =>
        (Some k,
         <[provider tr2 := set_last_used_index (_key_index tr3)
                             (state_of s1 (provider tr2))]> s1,
         tr3)
    | (None, tr3) => (None, s1, tr3)
    end.

Definition first_sweep (cd now later : Z) (s : store) (tr : KeyCycleTracker)
  : option string * store * KeyCycleTracker :=
  if bool_decide (_all_keys tr = []) then (None, s, tr)
  else if max_cycles tr <=? current_cycle tr then (None, s, tr)
  else
    let s1 := subscript s (provider tr) in
    match probe cd (length (_all_keys tr)) now
                (failed_keys (state_of s1 (provider tr))) tr with
    | (Some k, tr1) =>
        (Some k,
         <[provider tr := set_last_used_index (_key_index tr1)
                            (state_of s1 (provider tr))]> s1,
         tr1)
    | (None, tr1) =>
        if _should_reset_cycle tr1
        then second_sweep cd later s1 (_reset_cycle tr1)
        else (None, s1, tr1)
    end.

(** What holds of every tracker a request can hold: the keys tried in the
    cycle are keys of the snapshot that the tracker has attempted, and the
    cycle counter is not negative. *)
Definition tracker_ok (tr : KeyCycleTracker) : Prop :=
  keys_tried_this_cycle tr ⊆ list_to_set (_all_keys tr)
  /\ keys_tried_this_cycle tr ⊆ _keys_attempted tr
  /\ 0 <= current_cycle tr.

(** ** Runs of one tracker *)

(** The calls a request makes on its tracker, with the clock readings
    each call obtains. *)
Inductive op : Type :=
  | GetNextKey (now later : Z)
  | MarkFailed (key : string) (now : Z).

(** The results of the [get_next_key] calls of a run, each with the
    tracker's [current_cycle] when the call returns. *)
Fixpoint run (cooldown : Z) (ops : list op) (s : store) (tr : KeyCycleTracker)
  : list (option string * Z) * store * KeyCycleTracker :=
  match ops with
  | [] => ([], s, tr)
  | GetNextKey now later :: ops' =>
      let '(r, s1, tr1) := get_next_key cooldown now later s tr in
      let '(rs, s2, tr2) := run cooldown ops' s1 tr1 in
      ((r, current_cycle tr1) :: rs, s2, tr2)
  | MarkFailed key now :: ops' =>
      run cooldown ops' (mark_failed tr key now s) tr
  end.

(** The number of calls of a run that returned a key. *)
Definition successes (rs : list (option string * Z)) : nat :=
  length (filter (fun r => is_Some r.1) rs).

(** Consecutive [get_api_key] calls: each result with the provider's
    [last_used_index] after the call. *)
Fixpoint get_api_keys
    (get_provider_env_var_patterns : string -> option (list string))
    (environ : list (string * string)) (py_int : string -> option Z)
    (cooldown : Z) (provider : string) (times : list Z) (s : store)
  : list (option string * Z) * store :=
  match times with
  | [] => ([], s)
  | now :: times' =>
      let '(r, s1) := get_api_key get_provider_env_var_patterns environ py_int
                                  cooldown provider now s in
      let '(rs, s2) := get_api_keys get_provider_env_var_patterns environ py_int
                                    cooldown provider times' s1 in
      ((r, last_used_index (state_of s1 provider)) :: rs, s2)
  end.

(** ** Scenario data *)

Definition no_config : string -> option (list string) := fun _ => None.

Definition py_int_decimal : string -> option Z := fun s => Some (decimal s).

Definition env1 : list (string * string) :=
  [("OPENAI_API_KEY", "A"); ("OPENAI_API_KEY_1", "A"); ("OPENAI_API_KEY_2", "B")].

Definition indexed_first_config : string -> option (list string) :=
  fun _ => Some ["K_{INDEX}"; "K"].

Definition env_k : list (string * string) := [("K", "A"); ("K_1", "B")].

Definition env_ab : list (string * string) :=
  [("P_API_KEY_1", "A"); ("P_API_KEY_2", "B")].

Definition env_abc : list (string * string) :=
  [("P_API_KEY_1", "A"); ("P_API_KEY_2", "B"); ("P_API_KEY_3", "C")].

(** The two-key provider of the cycling scenario: its tracker with
    [max_cycles = 2] built on the empty store, and the calls of the
    request. *)
Definition tracker_ab : KeyCycleTracker :=
  (__init__ no_config env_ab py_int_decimal 1 "p" (Some 2) ∅).1.

Definition store_ab : store :=
  (__init__ no_config env_ab py_int_decimal 1 "p" (Some 2) ∅).2.

Definition ops_s3 : list op :=
  [GetNextKey 0 0; MarkFailed "A" 1; GetNextKey 2 2; MarkFailed "B" 3;
   GetNextKey 4 4; GetNextKey 5 5; GetNextKey 6 6].

(** A tracker for a provider without any key. *)
Definition tracker_none : KeyCycleTracker :=
  (__init__ no_config [] py_int_decimal 1 "p" None ∅).1.

(** The store with the failure entry of [key] removed from the provider's
    [failed_keys]. *)
Definition without_entry (p key : string) (s : store) : store :=
  <[p := set_failed_keys (delete key (failed_keys (state_of s p))) (state_of s p)]> s.

(** A store where [A] failed at time 0, and a fresh tracker on it. *)
Definition store_a_failed : store := mark_key_failed "p" "A" 0 ∅.

Definition tracker_a_failed : KeyCycleTracker :=
  (__init__ no_config env_ab py_int_decimal 1 "p" (Some 2) store_a_failed).1.

(** A failure entry of [key] whose cooldown has elapsed at [now]. *)
Definition expired (cooldown : Z) (fk : gmap string Z) (now : Z) (key : string) : Prop :=
  exists failed_at, fk !! key = Some failed_at /\ cooldown <= now - failed_at.

(** Failures of keys of provider [p] recorded one after the other. *)
Definition record_failures (p : string) (fails : list (string * Z)) (s : store) : store :=
  fold_left (fun s kt => mark_key_failed p kt.1 kt.2 s) fails s.

(** ** The rotation a tracker walks *)

(** The key reached after [j] steps of the rotation that starts behind
    index [i0]. *)
Definition rotation_key (keys : list string) (i0 : Z) (j : nat) : string :=
  key_at keys (i0 + 1 + Z.of_nat j).

(** The tracker of provider [p] after [j] calls that each returned the
    next key of the rotation: it stands in cycle [c] with the keys of the
    steps [c * len(keys) .. j - 1] tried, and probes the keys of the steps
    [j], [j + 1], ... next. *)
Definition walked (keys : list string) (i0 : Z) (p : string) (M : Z) (j : nat)
    (tr : KeyCycleTracker) : Prop :=
  _all_keys tr = keys /\ max_cycles tr = M /\ provider tr = p /\ tracker_ok tr
  /\ (forall x, candidate_at tr x = rotation_key keys i0 (j + x))
  /\ exists c : nat,
       current_cycle tr = Z.of_nat c
       /\ (c * length keys <= j <= c * length keys + length keys)%nat
       /\ size (keys_tried_this_cycle tr) = (j - c * length keys)%nat
       /\ forall k, k ∈ keys_tried_this_cycle tr <->
                    exists o, (c * length keys <= o < j)%nat /\ k = rotation_key keys i0 o.

(** The attempts of one request on a tracker, as the router makes them:
    each attempt calls [get_next_key] (reading the clock as [now] and
    [later]) and, when the attempt fails at time [t], [mark_failed] on the
    key it got. *)
Fixpoint request (cooldown : Z) (attempts : list (Z * Z * option Z)) (s : store)
    (tr : KeyCycleTracker) : list (option string * Z) * store * KeyCycleTracker :=
  match attempts with
  | [] => ([], s, tr)
  | (now, later, failure) :: attempts' =>
      let '(r, s1, tr1) := get_next_key cooldown now later s tr in
      let s2 := match r, failure with
                | Some key, Some t => mark_failed tr1 key t s1
                | _, _ => s1
                end in
      let '(rs, s3, tr3) := request cooldown attempts' s2 tr1 in
      ((r, current_cycle tr1) :: rs, s3, tr3)
  end.

(** Consecutive [get_next_key] calls, one per pair of clock readings. *)
Definition calls (times : list (Z * Z)) : list op :=
  map (fun t => GetNextKey t.1 t.2) times.

(** A store where [B] failed at time 0, and a fresh tracker on it. *)
Definition store_b_failed : store := mark_key_failed "p" "B" 0 ∅.

Definition tracker_b_failed : KeyCycleTracker :=
  (__init__ no_config env_ab py_int_decimal 1 "p" None store_b_failed).1.

(** The tracker of the cycling scenario after the cycle reset, between the
    third and the fourth [get_next_key]: cycle 1, [A] tried, [A] and [B]
    attempted and both recorded as failed. *)
Definition store_ab_reset : store := (run 60 (take 5 ops_s3) store_ab tracker_ab).1.2.

Definition tracker_ab_reset : KeyCycleTracker :=
  (run 60 (take 5 ops_s3) store_ab tracker_ab).2.

(** ** Log hints *)

(** [s[-n:]] *)
Definition last_chars (n : nat) (s : string) : string :=
  string_drop (String.length s - n) s.

(** The hint under which [get_next_key] and [mark_failed] name a key in
    the log: [f"...{key[-4:]}" if len(key) >= 4 else "****"]. *)
Definition key_hint (key : string) : string :=
  if (4 <=? String.length key)%nat then "..." ++ last_chars 4 key else "****".

(** * Properties of the key parser *)

Section ParserFacts.

Variable get_provider_env_var_patterns : string -> option (list string).
Variable environ : list (string * string).
Variable py_int : string -> option Z.

Lemma insert_sorted_perm x l : Permutation (x :: l) (insert_sorted x l).
Proof.
  induction l as [|y l IH]; simpl; [done|].
  destruct (Z.leb _ _); [done|].
  rewrite perm_swap. by constructor.
Qed.

Lemma sort_by_index_perm l : Permutation l (sort_by_index l).
Proof.
  induction l as [|x l IH]; simpl; [done|].
  rewrite <- insert_sorted_perm. by constructor.
Qed.

Lemma insert_sorted_hd x y l :
  index_le y x -> HdRel index_le y l -> HdRel index_le y (insert_sorted x l).
Proof.
  intros Hyx Hl. destruct l as [|z l]; simpl.
  - by constructor.
  - destruct (Z.leb _ _); constructor; [done|]. by inversion Hl.
Qed.

Lemma insert_sorted_sorted x l :
  Sorted index_le l -> Sorted index_le (insert_sorted x l).
Proof.
  induction 1 as [|y l Hl IH Hhd]; simpl.
  - repeat constructor.
  - destruct (Z.leb x.1 y.1) eqn:E.
    + constructor; [by constructor|]. constructor. unfold index_le. lia.
    + constructor; [done|]. apply insert_sorted_hd; [|done].
      unfold index_le. lia.
Qed.

Lemma sort_by_index_sorted l : Sorted index_le (sort_by_index l).
Proof.
  induction l as [|x l IH]; simpl; [constructor|].
  by apply insert_sorted_sorted.
Qed.

(** The sort is stable: entries of equal index keep their order. *)
Lemma insert_sorted_stable (i : Z) x l :
  Sorted index_le l ->
  filter (fun e => e.1 = i) (insert_sorted x l)
  = filter (fun e => e.1 = i) (x :: l).
Proof.
  induction 1 as [|y l Hl IH Hhd]; simpl; [done|].
  destruct (Z.leb x.1 y.1) eqn:E; [done|].
  rewrite !filter_cons in *. rewrite IH.
  destruct (decide (x.1 = i)) as [Hx|Hx], (decide (y.1 = i)) as [Hy|Hy]; try done.
  lia.
Qed.

Lemma sort_by_index_stable (i : Z) l :
  filter (fun e => e.1 = i) (sort_by_index l) = filter (fun e => e.1 = i) l.
Proof.
  induction l as [|x l IH]; simpl; [done|].
  rewrite insert_sorted_stable by apply sort_by_index_sorted.
  by rewrite !filter_cons, IH.
Qed.

Lemma add_key_some v a :
  acc_ok a ->
  acc_ok (_add_key (Some v) a) /\
  (_add_key (Some v) a).1 = if decide (v = "") then a.1 else step_first a.1 v.
Proof.
  unfold acc_ok, _add_key, step_first. intros Ha.
  destruct (String.eqb_spec v "") as [->|Hv]; simpl; [done|].
  destruct (decide (v = "")) as [|_]; [done|].
  - rewrite Ha. destruct (decide (v ∈ a.1)) as [Hin|Hin].
    + rewrite bool_decide_false by set_solver.
      by rewrite bool_decide_true.
    + rewrite bool_decide_true by set_solver.
      rewrite bool_decide_false by done. simpl. split; [|done].
      rewrite list_to_set_app_L. set_solver.
Qed.

Lemma add_values vs a :
  acc_ok a ->
  acc_ok (fold_left (fun a v => _add_key (Some v) a) vs a) /\
  (fold_left (fun a v => _add_key (Some v) a) vs a).1
  = fold_left step_first (nonempty vs) a.1.
Proof.
  revert a. induction vs as [|v vs IH]; intros a Ha; cbn [fold_left]; [done|].
  destruct (add_key_some v a Ha) as [Hok Hfst].
  destruct (IH _ Hok) as [Hok' Hfst']. split; [done|].
  rewrite Hfst'. unfold nonempty. rewrite filter_cons, Hfst.
  by destruct (decide (v <> "")), (decide (v = "")).
Qed.

Lemma add_pattern_values a pattern :
  add_pattern environ py_int a pattern
  = fold_left (fun a v => _add_key (Some v) a) (candidates environ py_int pattern) a.
Proof.
  unfold add_pattern, candidates. destruct (contains _ _).
  - generalize (_collect_indexed environ py_int pattern). intros l. revert a.
    induction l as [|x l IH]; intros a; simpl; [done|]. apply IH.
  - unfold getenv. by destruct (getenv_in _ _).
Qed.

Lemma add_patterns pats a :
  acc_ok a ->
  (fold_left (add_pattern environ py_int) pats a).1
  = fold_left step_first
      (nonempty (concat (map (candidates environ py_int) pats))) a.1.
Proof.
  revert a. induction pats as [|p pats IH]; intros a Ha; simpl; [done|].
  rewrite add_pattern_values.
  destruct (add_values (candidates environ py_int p) a Ha) as [Hok Hfst].
  rewrite IH by done. rewrite Hfst.
  unfold nonempty. by rewrite filter_app, fold_left_app.
Qed.

Lemma parse_keep_first provider :
  _parse_provider_keys get_provider_env_var_patterns environ py_int provider
  = keep_first (nonempty (concat (map (candidates environ py_int)
      (patterns_for get_provider_env_var_patterns provider)))).
Proof. unfold _parse_provider_keys. by rewrite add_patterns. Qed.

Lemma step_first_fold l : forall l0,
  (NoDup l0 -> NoDup (fold_left step_first l l0)) /\
  (forall v, v ∈ fold_left step_first l l0 <-> v ∈ l0 \/ v ∈ l).
Proof.
  induction l as [|x l IH]; intros l0; simpl.
  - split; [done|]. intros v. rewrite elem_of_nil. tauto.
  - destruct (IH (step_first l0 x)) as [Hnd Hin]. split.
    + intros H0. apply Hnd. unfold step_first. case_bool_decide; [done|].
      apply NoDup_app. split_and!; [done| |apply NoDup_singleton].
      intros y Hy Hy'. apply list_elem_of_singleton in Hy'. by subst.
    + intros v. rewrite Hin, elem_of_cons. unfold step_first.
      case_bool_decide as Hx.
      * split; [tauto|]. intros [?|[->|?]]; tauto.
      * rewrite elem_of_app, list_elem_of_singleton. tauto.
Qed.

Lemma keep_first_NoDup l : NoDup (keep_first l).
Proof. apply step_first_fold. constructor. Qed.

Lemma keep_first_elem l v : v ∈ keep_first l <-> v ∈ l.
Proof.
  unfold keep_first. rewrite (proj2 (step_first_fold l [])), elem_of_nil. tauto.
Qed.

Lemma parse_NoDup provider :
  NoDup (_parse_provider_keys get_provider_env_var_patterns environ py_int provider).
Proof. rewrite parse_keep_first. apply keep_first_NoDup. Qed.

Lemma parse_no_empty provider :
  "" ∉ _parse_provider_keys get_provider_env_var_patterns environ py_int provider.
Proof.
  rewrite parse_keep_first, keep_first_elem. unfold nonempty.
  rewrite list_elem_of_filter. tauto.
Qed.

Lemma collect_indexed_sorted pattern :
  Sorted index_le (_collect_indexed environ py_int pattern).
Proof. apply sort_by_index_sorted. Qed.

End ParserFacts.

(** A suffix that starts with a character foreign to the needle cannot
    complete an occurrence of it. *)
Lemma prefix_app_fresh needle x c suffix :
  (forall a, In a (list_ascii_of_string needle) -> a <> c) ->
  String.prefix needle (x ++ String c suffix) = String.prefix needle x.
Proof.
  revert x. induction needle as [|a needle IH]; intros x Hc; [by destruct x|].
  destruct x as [|b x];
    [change ("" ++ String c suffix) with (String c suffix)
    |change (String b x ++ String c suffix) with (String b (x ++ String c suffix))];
    cbn [String.prefix].
  - destruct (ascii_dec a c) as [->|?]; [|done].
    exfalso. apply (Hc c); [by left|done].
  - destruct (ascii_dec a b); [|done]. apply IH.
    intros a' Ha'. apply Hc. by right.
Qed.

(** The default literal pattern holds no placeholder unless the provider
    name brings one. *)
Lemma contains_index_suffix x :
  contains "{INDEX}" (x ++ "_API_KEY") = contains "{INDEX}" x.
Proof.
  induction x as [|c x IH]; [done|].
  change (contains "{INDEX}" (String c x ++ "_API_KEY"))
    with (String.prefix "{INDEX}" (String c x ++ "_API_KEY")
          || contains "{INDEX}" (x ++ "_API_KEY")).
  rewrite IH. change "_API_KEY" with (String "_" "API_KEY").
  rewrite prefix_app_fresh; [done|].
  intros a Ha. cbn in Ha. intros ->. intuition discriminate.
Qed.

Lemma contains_app_r needle x y :
  contains needle y = true -> contains needle (x ++ y) = true.
Proof.
  intros Hy. induction x as [|c x IH]; [done|].
  change ((String c x ++ y)%string) with (String c (x ++ y)).
  cbn [contains]. rewrite IH. apply orb_true_r.
Qed.

Lemma default_patterns_candidates environ py_int provider :
  contains "{INDEX}" (env_prefix provider) = false ->
  concat (map (candidates environ py_int) (default_patterns provider))
  = (option_list (getenv environ (env_prefix provider ++ "_API_KEY"))
     ++ map snd (_collect_indexed environ py_int
                   (env_prefix provider ++ "_API_KEY_{INDEX}")))%list.
Proof.
  intros Hp. unfold default_patterns, candidates. cbn [map concat].
  rewrite contains_index_suffix, Hp.
  rewrite (contains_app_r _ _ "_API_KEY_{INDEX}") by done.
  by rewrite app_nil_r.
Qed.

(** * The probing loop *)

Section RotationFacts.

(** The value of [KEY_COOLDOWN_SECONDS]. *)
Variable cd : Z.

Lemma set_key_index_twice i j tr :
  set_key_index i (set_key_index j tr) = set_key_index i tr.
Proof. done. Qed.

Lemma candidate_at_step tr j :
  Z.of_nat (length (_all_keys tr)) <> 0 ->
  candidate_at
    (set_key_index ((_key_index tr + 1) mod Z.of_nat (length (_all_keys tr))) tr) j
  = candidate_at tr (S j).
Proof.
  intros Hn. unfold candidate_at, key_at. cbn [_all_keys _key_index set_key_index].
  do 2 f_equal. rewrite <- Z.add_assoc, Z.add_mod_idemp_l by lia.
  f_equal. lia.
Qed.

Lemma candidate_at_0 tr :
  _all_keys tr !!! Z.to_nat ((_key_index tr + 1) mod Z.of_nat (length (_all_keys tr)))
  = candidate_at tr 0.
Proof. unfold candidate_at, key_at. do 3 f_equal. lia. Qed.

(** What the loop returns: the first candidate in probing order that is
    not passed over, and the tracker positioned on it. *)
Lemma probe_spec m now fk tr :
  _all_keys tr <> [] ->
  match probe cd m now fk tr with
  | (Some k, tr') =>
      exists j, (j < m)%nat
        /\ (forall j', (j' < j)%nat -> rejects cd now fk tr (candidate_at tr j') = true)
        /\ rejects cd now fk tr (candidate_at tr j) = false
        /\ k = candidate_at tr j
        /\ tr' = add_tried k
                  (set_key_index
                     ((_key_index tr + 1 + Z.of_nat j) mod Z.of_nat (length (_all_keys tr)))
                     tr)
  | (None, tr') =>
      (forall j, (j < m)%nat -> rejects cd now fk tr (candidate_at tr j) = true)
      /\ tr' = match m with
               | O => tr
               | S _ => set_key_index
                          ((_key_index tr + Z.of_nat m) mod Z.of_nat (length (_all_keys tr)))
                          tr
               end
  end.
Proof.
  intros Hne. assert (Hn : Z.of_nat (length (_all_keys tr)) <> 0)
    by (destruct (_all_keys tr); [done|cbn; lia]).
  revert tr Hne Hn. induction m as [|m IH]; intros tr Hne Hn.
  { cbn. split; [lia|done]. }
  cbn [probe].
  set (tr1 := set_key_index _ tr).
  assert (Hrej : forall k, rejects cd now fk tr1 k = rejects cd now fk tr k) by done.
  assert (Hcand : forall j, candidate_at tr1 j = candidate_at tr (S j))
    by (intros; by apply candidate_at_step).
  assert (Hrec :
    match probe cd m now fk tr1 with
    | (Some k, tr') =>
        exists j, (j < S m)%nat
          /\ (forall j', (0 < j')%nat -> (j' < j)%nat ->
                rejects cd now fk tr (candidate_at tr j') = true)
          /\ (0 < j)%nat
          /\ rejects cd now fk tr (candidate_at tr j) = false
          /\ k = candidate_at tr j
          /\ tr' = add_tried k
                    (set_key_index
                       ((_key_index tr + 1 + Z.of_nat j) mod Z.of_nat (length (_all_keys tr)))
                       tr)
    | (None, tr') =>
        (forall j, (0 < j)%nat -> (j < S m)%nat ->
           rejects cd now fk tr (candidate_at tr j) = true)
        /\ tr' = set_key_index
                   ((_key_index tr + Z.of_nat (S m)) mod Z.of_nat (length (_all_keys tr)))
                   tr
    end).
  { specialize (IH tr1 Hne Hn). destruct (probe cd m now fk tr1) as [[k|] tr'].
    - destruct IH as (j & Hj & Hbefore & Hat & Hk & Htr').
      exists (S j). split_and!; [lia| |lia| | |].
      + intros [|j'] ? ?; [lia|]. rewrite <- Hcand, <- Hrej. apply Hbefore. lia.
      + by rewrite <- Hcand, <- Hrej.
      + by rewrite <- Hcand.
      + rewrite Htr'. subst tr1. cbn [_key_index _all_keys set_key_index].
        rewrite set_key_index_twice. do 2 f_equal.
        rewrite <- !Z.add_assoc, Z.add_mod_idemp_l by lia. f_equal. lia.
    - destruct IH as [Hall Htr']. split.
      + intros [|j] ? ?; [lia|]. rewrite <- Hcand, <- Hrej. apply Hall. lia.
      + rewrite Htr'. destruct m as [|m'].
        * done.
        * subst tr1. cbn [_key_index _all_keys set_key_index].
          rewrite set_key_index_twice. f_equal.
          rewrite Z.add_mod_idemp_l by lia. f_equal. lia. }
  fold tr1. change (_all_keys tr1) with (_all_keys tr).
  change (_key_index tr1) with ((_key_index tr + 1) mod Z.of_nat (length (_all_keys tr))).
  rewrite candidate_at_0.
  change (keys_tried_this_cycle tr1) with (keys_tried_this_cycle tr).
  change (_keys_attempted tr1) with (_keys_attempted tr).
  pose proof (eq_refl : rejects cd now fk tr (candidate_at tr 0) = _) as Hr0.
  unfold rejects in Hr0 at 2.
  destruct (bool_decide (candidate_at tr 0 ∈ keys_tried_this_cycle tr)); cbn [orb] in Hr0.
  { destruct (probe cd m now fk tr1) as [[k|] tr'].
    - destruct Hrec as (j & ? & Hbefore & ? & ? & ? & ?). exists j.
      split_and!; try done. intros [|j'] ?; [done|]. apply Hbefore; lia.
    - destruct Hrec as [Hall ?]. split; [|done].
      intros [|j] ?; [done|]. apply Hall; lia. }
  destruct (bool_decide (candidate_at tr 0 ∉ _keys_attempted tr)
            && in_cooldown cd fk now (candidate_at tr 0)).
  { destruct (probe cd m now fk tr1) as [[k|] tr'].
    - destruct Hrec as (j & ? & Hbefore & ? & ? & ? & ?). exists j.
      split_and!; try done. intros [|j'] ?; [done|]. apply Hbefore; lia.
    - destruct Hrec as [Hall ?]. split; [|done].
      intros [|j] ?; [done|]. apply Hall; lia. }
  exists O. split_and!; [lia| intros; lia | done | done |].
  subst tr1. do 3 f_equal. lia.
Qed.

Lemma keys_length_pos (keys : list string) :
  keys <> [] -> 0 < Z.of_nat (length keys).
Proof. destruct keys; [done|cbn; lia]. Qed.

Lemma key_at_elem keys i : keys <> [] -> key_at keys i ∈ keys.
Proof.
  intros Hne. unfold key_at. apply list_elem_of_lookup_total_2.
  pose proof (keys_length_pos keys Hne).
  pose proof (Z.mod_pos_bound i (Z.of_nat (length keys))). lia.
Qed.

(** The fields the loop leaves alone, and what an accepted or a fruitless
    sweep does to the two sets. *)
Lemma probe_frame m now fk tr r tr' :
  _all_keys tr <> [] ->
  probe cd m now fk tr = (r, tr') ->
  provider tr' = provider tr /\ max_cycles tr' = max_cycles tr
  /\ current_cycle tr' = current_cycle tr /\ _all_keys tr' = _all_keys tr
  /\ match r with
     | Some k =>
         (k ∉ keys_tried_this_cycle tr) /\ k ∈ _all_keys tr
         /\ (k ∈ _keys_attempted tr \/ in_cooldown cd fk now k = false)
         /\ keys_tried_this_cycle tr' = keys_tried_this_cycle tr ∪ {[k]}
         /\ _keys_attempted tr' = _keys_attempted tr ∪ {[k]}
         /\ 0 <= _key_index tr' < Z.of_nat (length (_all_keys tr))
         /\ k = _all_keys tr !!! Z.to_nat (_key_index tr')
     | None =>
         keys_tried_this_cycle tr' = keys_tried_this_cycle tr
         /\ _keys_attempted tr' = _keys_attempted tr
     end.
Proof.
  intros Hne Hp. pose proof (probe_spec m now fk tr Hne) as Hs.
  rewrite Hp in Hs. destruct r as [k|].
  - destruct Hs as (j & _ & _ & Hrej & Hk & ->). cbn.
    split_and!; try done.
    + unfold rejects in Hrej. rewrite <- Hk in Hrej.
      apply orb_false_iff in Hrej as [Hrej _].
      by apply bool_decide_eq_false in Hrej.
    + subst k. by apply key_at_elem.
    + unfold rejects in Hrej. rewrite <- Hk in Hrej.
      apply orb_false_iff in Hrej as [_ Hrej].
      apply andb_false_iff in Hrej as [Hrej|Hrej]; [left|by right].
      apply bool_decide_eq_false in Hrej. by apply dec_stable.
    + apply Z.mod_pos_bound. by apply keys_length_pos.
    + apply Z.mod_pos_bound. by apply keys_length_pos.
  - destruct Hs as [_ ->]. by destruct m.
Qed.

Lemma subscript_state_of (s : store) p q :
  state_of (subscript s p) q = state_of s q.
Proof.
  unfold subscript, state_of. destruct (decide (p = q)) as [->|Hpq].
  - by rewrite lookup_insert_eq.
  - by rewrite lookup_insert_ne.
Qed.

Lemma subscript_idem (s : store) p : subscript (subscript s p) p = subscript s p.
Proof.
  unfold subscript at 1. rewrite subscript_state_of.
  unfold subscript. by rewrite insert_insert_eq.
Qed.

Lemma get_next_key_at_sweeps now later more s tr :
  get_next_key_at cd (now :: later :: more) s tr = Some (first_sweep cd now later s tr).
Proof.
  unfold first_sweep. cbn [get_next_key_at].
  case_bool_decide as Hne; [done|].
  destruct (max_cycles tr <=? current_cycle tr); [done|].
  destruct (probe cd _ now _ tr) as [[k|] tr1] eqn:Hp1; [done|].
  destruct (_should_reset_cycle tr1); [|done].
  destruct (probe_frame _ _ _ _ _ _ Hne Hp1) as (Hprov & Hmax & Hcyc & Hkeys & Htried & _).
  unfold second_sweep.
  cbn [_reset_cycle provider max_cycles current_cycle _all_keys].
  rewrite Hkeys, Hprov. rewrite bool_decide_false by done.
  destruct (max_cycles tr1 <=? current_cycle tr1 + 1); [done|].
  rewrite subscript_idem.
  match goal with |- context [probe cd ?m later ?fk ?t] =>
    destruct (probe cd m later fk t) as [[k|] tr3] eqn:Hp2 end; [done|].
  assert (Hne2 : _all_keys (_reset_cycle tr1) <> []) by (cbn; by rewrite Hkeys).
  destruct (probe_frame _ _ _ _ _ _ Hne2 Hp2) as (_ & _ & _ & Hkeys3 & Htried3 & _).
  unfold _should_reset_cycle. rewrite Hkeys3, Htried3. cbn.
  rewrite size_empty, Hkeys.
  destruct (_all_keys tr) as [|k0 l]; [done|]. done.
Qed.

(** Two clock readings always suffice: the source's recursion is at most
    one call deep. *)
Lemma get_next_key_sweeps now later s tr :
  get_next_key cd now later s tr = first_sweep cd now later s tr.
Proof. unfold get_next_key. by rewrite get_next_key_at_sweeps. Qed.

(** One call of [get_next_key], as the tracker and the store see it. *)
Lemma get_next_key_frame now later s tr r s' tr' :
  get_next_key cd now later s tr = (r, s', tr') ->
  (provider tr' = provider tr /\ max_cycles tr' = max_cycles tr
   /\ _all_keys tr' = _all_keys tr
   /\ _keys_attempted tr ⊆ _keys_attempted tr')
  /\ (current_cycle tr' = current_cycle tr
      /\ keys_tried_this_cycle tr ⊆ keys_tried_this_cycle tr'
      /\ match r with
         | Some k => (k ∉ keys_tried_this_cycle tr)
                     /\ keys_tried_this_cycle tr' = keys_tried_this_cycle tr ∪ {[k]}
         | None => keys_tried_this_cycle tr' = keys_tried_this_cycle tr
         end
      \/ current_cycle tr' = current_cycle tr + 1
         /\ (length (_all_keys tr) <= size (keys_tried_this_cycle tr))%nat
         /\ current_cycle tr < max_cycles tr
         /\ keys_tried_this_cycle tr' = match r with Some k => {[k]} | None => ∅ end)
  /\ match r with
     | Some k =>
         k ∈ _all_keys tr /\ k ∈ _keys_attempted tr'
         /\ current_cycle tr' < max_cycles tr
         /\ 0 <= _key_index tr' < Z.of_nat (length (_all_keys tr))
         /\ k = _all_keys tr !!! Z.to_nat (_key_index tr')
         /\ state_of s' (provider tr)
            = set_last_used_index (_key_index tr') (state_of s (provider tr))
     | None => state_of s' (provider tr) = state_of s (provider tr)
     end
  /\ (forall q, q <> provider tr -> state_of s' q = state_of s q).
Proof.
  rewrite get_next_key_sweeps. unfold first_sweep.
  case_bool_decide as Hne.
  { intros [= <- <- <-]. split_and!; try done. left. done. }
  destruct (max_cycles tr <=? current_cycle tr) eqn:Hmax.
  { intros [= <- <- <-]. split_and!; try done. left. done. }
  apply Z.leb_gt in Hmax.
  assert (Hother : forall q st, q <> provider tr ->
            state_of (<[provider tr := st]> (subscript s (provider tr))) q = state_of s q).
  { intros q st Hq. unfold state_of at 1. rewrite lookup_insert_ne by done.
    apply subscript_state_of. }
  assert (Hsame : forall st,
            state_of (<[provider tr := st]> (subscript s (provider tr))) (provider tr) = st).
  { intros st. unfold state_of at 1. by rewrite lookup_insert_eq. }
  pose proof (subscript_state_of s (provider tr)) as Hsub.
  destruct (probe cd _ now _ tr) as [[k|] tr1] eqn:Hp1.
  { intros [= <- <- <-].
    destruct (probe_frame _ _ _ _ _ _ Hne Hp1)
      as (Hprov & Hmx & Hcyc & Hkeys & Hnot & Hin & _ & Htried & Hatt & Hidx & Hk).
    rewrite Hsame, Hsub, Htried, Hatt, Hcyc.
    split; [split_and!; [done|done|done|apply union_subseteq_l]|].
    split; [left; split_and!; [done|apply union_subseteq_l|done|done]|].
    split; [|by intros; apply Hother].
    split_and!; [done|apply elem_of_union_r; by apply elem_of_singleton|done|lia|lia|done|done]. }
  destruct (probe_frame _ _ _ _ _ _ Hne Hp1) as (Hprov & Hmx & Hcyc & Hkeys & Htried & Hatt).
  destruct (_should_reset_cycle tr1) eqn:Hreset.
  2:{ intros [= <- <- <-]. rewrite Htried, Hatt, Hcyc, Hsub.
      split; [done|]. split; [by left|]. split; [done|]. intros. apply Hsub. }
  unfold _should_reset_cycle in Hreset. apply Nat.leb_le in Hreset.
  rewrite Hkeys, Htried in Hreset.
  unfold second_sweep.
  cbn [_reset_cycle provider max_cycles current_cycle _all_keys].
  destruct (max_cycles tr1 <=? current_cycle tr1 + 1) eqn:Hmax2.
  { intros [= <- <- <-]. cbn. rewrite Hatt, Hcyc, Hsub.
    split; [done|]. split; [by right|]. split; [done|]. intros. apply Hsub. }
  apply Z.leb_gt in Hmax2.
  assert (Hne2 : _all_keys (_reset_cycle tr1) <> []) by (cbn; by rewrite Hkeys).
  match goal with |- context [probe cd ?m later ?fk ?t] =>
    destruct (probe cd m later fk t) as [[k|] tr3] eqn:Hp2 end.
  { intros [= <- <- <-].
    destruct (probe_frame _ _ _ _ _ _ Hne2 Hp2)
      as (Hprov3 & Hmx3 & Hcyc3 & Hkeys3 & Hnot3 & Hin3 & _ & Htried3 & Hatt3 & Hidx3 & Hk3).
    cbn in Hprov3, Hmx3, Hcyc3, Hkeys3, Htried3, Hatt3, Hidx3, Hk3, Hin3.
    rewrite Hkeys in *. rewrite Hprov in *. rewrite Hsame, Hsub.
    assert (Htr3 : keys_tried_this_cycle tr3 = {[k]})
      by (rewrite Htried3; apply (left_id_L (∅ : gset string) (∪))).
    rewrite Htr3, Hatt3, Hatt, Hcyc3, Hcyc, Hmx3, Hmx.
    split; [split_and!; [done|done|done|apply union_subseteq_l]|].
    split; [right; split_and!; [done|done|done|done]|].
    split; [|by intros; apply Hother].
    split_and!; [done|apply elem_of_union_r; by apply elem_of_singleton|lia|lia|lia|done|done]. }
  intros [= <- <- <-].
  destruct (probe_frame _ _ _ _ _ _ Hne2 Hp2) as (Hprov3 & Hmx3 & Hcyc3 & Hkeys3 & Htried3 & Hatt3).
  cbn in Hprov3, Hmx3, Hcyc3, Hkeys3, Htried3, Hatt3.
  rewrite Hprov3, Hmx3, Hkeys3, Hatt3, Htried3, Hcyc3, Hprov, Hmx, Hkeys, Hatt, Hcyc, Hsub.
  split; [done|]. split; [by right|]. split; [done|]. intros. apply Hsub.
Qed.

(** ** Runs *)

Lemma size_list_to_set_le (l : list string) :
  (size (list_to_set l : gset string) <= length l)%nat.
Proof.
  induction l as [|x l IH]; cbn [length].
  - by rewrite list_to_set_nil, size_empty.
  - rewrite list_to_set_cons, size_union_alt, size_singleton.
    assert (size (list_to_set l ∖ {[x]} : gset string) <= size (list_to_set l : gset string))%nat
      by (apply subseteq_size; set_solver).
    lia.
Qed.

Lemma tracker_ok_size tr :
  tracker_ok tr -> (size (keys_tried_this_cycle tr) <= length (_all_keys tr))%nat.
Proof.
  intros (Hsub & _ & _). etrans; [by apply subseteq_size|].
  apply size_list_to_set_le.
Qed.

(** A sweep that finds every key of the snapshot tried. *)
Lemma tracker_ok_swept tr k :
  tracker_ok tr ->
  (length (_all_keys tr) <= size (keys_tried_this_cycle tr))%nat ->
  k ∈ _all_keys tr -> k ∈ keys_tried_this_cycle tr.
Proof.
  intros (Hsub & _ & _) Hsz Hk.
  assert (keys_tried_this_cycle tr = list_to_set (_all_keys tr)) as ->.
  { apply set_subseteq_size_eq; [done|].
    etrans; [apply size_list_to_set_le|done]. }
  by apply elem_of_list_to_set.
Qed.

(** A call keeps the tracker well formed, and every returned key is
    paid for by the measure [current_cycle * len(keys) + |tried|]. *)
Lemma get_next_key_ok now later s tr r s' tr' :
  tracker_ok tr ->
  get_next_key cd now later s tr = (r, s', tr') ->
  tracker_ok tr'
  /\ match r with Some _ => 1 | None => 0 end
       + current_cycle tr * Z.of_nat (length (_all_keys tr))
       + Z.of_nat (size (keys_tried_this_cycle tr))
     <= current_cycle tr' * Z.of_nat (length (_all_keys tr'))
        + Z.of_nat (size (keys_tried_this_cycle tr')).
Proof.
  intros Hok Hcall. pose proof (tracker_ok_size tr Hok) as Hsz.
  destruct Hok as (Hsub & Hatt & Hcyc).
  destruct (get_next_key_frame _ _ _ _ _ _ _ Hcall)
    as ((_ & _ & Hkeys & Hmono) & Hcase & Hres & _).
  rewrite Hkeys. unfold tracker_ok. rewrite Hkeys.
  destruct Hcase as [(Hc & Hgrow & Hr)|(Hc & Hfull & Hlt & Hr)].
  - rewrite Hc. destruct r as [k|].
    + destruct Hr as [Hnot Htr]. destruct Hres as (Hin & Hin' & _).
      rewrite Htr. rewrite size_union, size_singleton by set_solver.
      split; [|lia]. split_and!; [|set_solver|done].
      apply union_subseteq. split; [done|].
      apply singleton_subseteq_l. by apply elem_of_list_to_set.
    + rewrite Hr. split; [|lia]. split_and!; [done|set_solver|done].
  - rewrite Hc, Hr. destruct r as [k|].
    + destruct Hres as (Hin & Hin' & _). rewrite size_singleton.
      split; [|nia]. split_and!; [|set_solver|lia].
      apply singleton_subseteq_l. by apply elem_of_list_to_set.
    + rewrite size_empty. split; [|nia]. split_and!; [set_solver|set_solver|lia].
Qed.

Lemma run_ok ops : forall s tr rs s' tr',
  tracker_ok tr ->
  run cd ops s tr = (rs, s', tr') ->
  tracker_ok tr' /\ _all_keys tr' = _all_keys tr /\ max_cycles tr' = max_cycles tr
  /\ Z.of_nat (successes rs)
       + current_cycle tr * Z.of_nat (length (_all_keys tr))
       + Z.of_nat (size (keys_tried_this_cycle tr))
     <= current_cycle tr' * Z.of_nat (length (_all_keys tr'))
        + Z.of_nat (size (keys_tried_this_cycle tr')).
Proof.
  induction ops as [|[now later|key now] ops IH]; intros s tr rs s' tr' Hok; cbn [run].
  - intros [= <- <- <-]. split_and!; try done; cbn; lia.
  - destruct (get_next_key cd now later s tr) as [[r s1] tr1] eqn:Hcall.
    destruct (run cd ops s1 tr1) as [[rs1 s2] tr2] eqn:Hrun.
    intros [= <- <- <-].
    destruct (get_next_key_ok _ _ _ _ _ _ _ Hok Hcall) as [Hok1 Hm1].
    destruct (get_next_key_frame _ _ _ _ _ _ _ Hcall) as ((_ & Hmx & Hkeys & _) & _).
    destruct (IH _ _ _ _ _ Hok1 Hrun) as (Hok2 & Hkeys2 & Hmx2 & Hm2).
    split_and!; [done|congruence|congruence|].
    unfold successes in *. rewrite filter_cons. cbn [fst].
    destruct r as [k|].
    + rewrite decide_True by (by eexists). cbn [length]. lia.
    + rewrite decide_False by (by intros [? ?]). lia.
  - intros Hrun. by apply (IH _ _ _ _ _ Hok Hrun).
Qed.

(** In a run, every returned key comes with a cycle no earlier than the
    cycle the run starts in, and a key returned in the starting cycle was
    not yet tried in it. *)
Lemma run_cycles ops : forall s tr i k c,
  (run cd ops s tr).1.1 !! i = Some (Some k, c) ->
  current_cycle tr <= c
  /\ (c = current_cycle tr -> k ∉ keys_tried_this_cycle tr).
Proof.
  induction ops as [|[now later|key now] ops IH]; intros s tr i k c; cbn [run].
  - done.
  - destruct (get_next_key cd now later s tr) as [[r s1] tr1] eqn:Hcall.
    destruct (run cd ops s1 tr1) as [[rs1 s2] tr2] eqn:Hrun. cbn [fst].
    destruct (get_next_key_frame _ _ _ _ _ _ _ Hcall) as (_ & Hcase & _).
    destruct i as [|i]; cbn.
    + intros [= -> <-].
      destruct Hcase as [(Hc & _ & Hnot & _)|(Hc & _)]; [|lia].
      split; [lia|done].
    + intros Hi. specialize (IH s1 tr1 i k c). rewrite Hrun in IH.
      destruct (IH Hi) as [Hle Hnot].
      destruct Hcase as [(Hc & Hgrow & _)|(Hc & _)]; [|lia].
      split; [lia|]. intros ->. rewrite <- Hc in Hnot. set_solver.
  - apply IH.
Qed.

(** ** Exhaustion *)

Lemma exhausted_iff tr :
  exhausted tr = true <->
  _all_keys tr = []
  \/ max_cycles tr <= current_cycle tr
  \/ ((length (_all_keys tr) <= size (keys_tried_this_cycle tr))%nat
      /\ max_cycles tr <= current_cycle tr + 1).
Proof.
  unfold exhausted, _should_reset_cycle.
  case_bool_decide as Hne; [tauto|].
  destruct (Z.leb_spec (max_cycles tr) (current_cycle tr)); [tauto|].
  destruct (Nat.leb_spec (length (_all_keys tr)) (size (keys_tried_this_cycle tr)));
    destruct (Z.leb_spec (max_cycles tr) (current_cycle tr + 1)); cbn [andb];
    split; try tauto; try done; intros [?|[?|[? ?]]]; try done; lia.
Qed.

Lemma rejects_tried now fk tr k :
  k ∈ keys_tried_this_cycle tr -> rejects cd now fk tr k = true.
Proof. intros Hk. unfold rejects. by rewrite bool_decide_true. Qed.

(** A fully swept cycle: the loop accepts nothing and leaves the sets as
    they are. *)
Lemma probe_swept m now fk tr :
  tracker_ok tr ->
  _all_keys tr <> [] ->
  (length (_all_keys tr) <= size (keys_tried_this_cycle tr))%nat ->
  exists tr1, probe cd m now fk tr = (None, tr1).
Proof.
  intros Hok Hne Hsz. pose proof (probe_spec m now fk tr Hne) as Hs.
  destruct (probe cd m now fk tr) as [[k|] tr1]; [|by eexists].
  destruct Hs as (j & _ & _ & Hrej & _). exfalso.
  rewrite rejects_tried in Hrej; [done|].
  apply tracker_ok_swept; [done|done|]. by apply key_at_elem.
Qed.

Lemma exhausted_none now later s tr :
  tracker_ok tr -> exhausted tr = true ->
  (get_next_key cd now later s tr).1.1 = None.
Proof.
  intros Hok Hex. rewrite get_next_key_sweeps. unfold first_sweep.
  apply exhausted_iff in Hex.
  case_bool_decide as Hne; [done|].
  destruct (Z.leb_spec (max_cycles tr) (current_cycle tr)) as [|Hlt]; [done|].
  destruct Hex as [?|[?|[Hsz Hmax]]]; [done|lia|].
  destruct (probe_swept (length (_all_keys tr)) now
              (failed_keys (state_of (subscript s (provider tr)) (provider tr)))
              tr Hok Hne Hsz) as [tr1 Hp].
  rewrite Hp.
  destruct (probe_frame _ _ _ _ _ _ Hne Hp) as (_ & Hmx & Hcyc & Hkeys & Htried & _).
  unfold _should_reset_cycle. rewrite Hkeys, Htried.
  destruct (Nat.leb_spec (length (_all_keys tr)) (size (keys_tried_this_cycle tr)));
    [|lia].
  unfold second_sweep. cbn [_reset_cycle max_cycles current_cycle].
  rewrite Hmx, Hcyc.
  by destruct (Z.leb_spec (max_cycles tr) (current_cycle tr + 1)); [|lia].
Qed.

(** ** Which candidate a sweep accepts *)

Lemma probe_accepts m now fk tr j :
  _all_keys tr <> [] ->
  (j < m)%nat ->
  (forall j', (j' < j)%nat -> rejects cd now fk tr (candidate_at tr j') = true) ->
  rejects cd now fk tr (candidate_at tr j) = false ->
  probe cd m now fk tr
  = (Some (candidate_at tr j),
     add_tried (candidate_at tr j)
       (set_key_index
          ((_key_index tr + 1 + Z.of_nat j) mod Z.of_nat (length (_all_keys tr))) tr)).
Proof.
  intros Hne Hj Hbefore Hat. pose proof (probe_spec m now fk tr Hne) as Hs.
  destruct (probe cd m now fk tr) as [[k|] tr1].
  - destruct Hs as (j0 & Hj0 & Hbefore0 & Hat0 & -> & ->).
    destruct (Nat.lt_trichotomy j0 j) as [Hlt|[->|Hlt]]; [|done|].
    + rewrite Hbefore in Hat0; [done|lia].
    + rewrite Hbefore0 in Hat; [done|lia].
  - destruct Hs as [Hall _]. rewrite Hall in Hat; [done|lia].
Qed.

Lemma probe_rejects_all m now fk tr :
  _all_keys tr <> [] ->
  (0 < m)%nat ->
  (forall j, (j < m)%nat -> rejects cd now fk tr (candidate_at tr j) = true) ->
  probe cd m now fk tr
  = (None,
     set_key_index ((_key_index tr + Z.of_nat m) mod Z.of_nat (length (_all_keys tr))) tr).
Proof.
  intros Hne Hm Hall. pose proof (probe_spec m now fk tr Hne) as Hs.
  destruct (probe cd m now fk tr) as [[k|] tr1].
  - destruct Hs as (j0 & Hj0 & _ & Hat0 & _). rewrite Hall in Hat0; [done|lia].
  - destruct Hs as [_ ->]. destruct m; [lia|done].
Qed.

Lemma key_at_mod_l keys x y :
  keys <> [] ->
  key_at keys (x mod Z.of_nat (length keys) + y) = key_at keys (x + y).
Proof.
  intros Hne. pose proof (keys_length_pos keys Hne).
  unfold key_at. by rewrite Z.add_mod_idemp_l by lia.
Qed.

Lemma key_at_plus_length keys x :
  keys <> [] -> key_at keys (x + Z.of_nat (length keys)) = key_at keys x.
Proof.
  intros Hne. pose proof (keys_length_pos keys Hne).
  unfold key_at. rewrite <- (Z.mul_1_l (Z.of_nat (length keys))) at 1.
  by rewrite Z.mod_add by lia.
Qed.

(** A key this tracker has attempted is accepted when its turn comes,
    whatever the store and the clock say. *)
Lemma attempted_key_returned now later s tr j :
  current_cycle tr < max_cycles tr ->
  (j < length (_all_keys tr))%nat ->
  candidate_at tr j ∉ keys_tried_this_cycle tr ->
  candidate_at tr j ∈ _keys_attempted tr ->
  (forall j', (j' < j)%nat -> candidate_at tr j' ∈ keys_tried_this_cycle tr) ->
  (get_next_key cd now later s tr).1.1 = Some (candidate_at tr j)
  /\ current_cycle (get_next_key cd now later s tr).2 = current_cycle tr.
Proof.
  intros Hcyc Hj Hnot Hatt Hbefore.
  assert (Hne : _all_keys tr <> []) by (destruct (_all_keys tr); [cbn in Hj; lia|done]).
  rewrite get_next_key_sweeps. unfold first_sweep.
  rewrite bool_decide_false by done.
  destruct (Z.leb_spec (max_cycles tr) (current_cycle tr)); [lia|].
  rewrite (probe_accepts _ _ _ _ j); [done|done|done| |].
  - intros j' Hj'. apply rejects_tried. by apply Hbefore.
  - unfold rejects. rewrite bool_decide_false by done.
    rewrite (bool_decide_false (_ ∉ _)); [done|]. by intros Hn.
Qed.

(** The same after a fully swept cycle: the call resets the cycle and
    returns the next key of the rotation. *)
Lemma attempted_key_returned_after_reset now later s tr :
  _all_keys tr <> [] ->
  current_cycle tr + 1 < max_cycles tr ->
  (forall k, k ∈ _all_keys tr -> k ∈ keys_tried_this_cycle tr) ->
  (length (_all_keys tr) <= size (keys_tried_this_cycle tr))%nat ->
  candidate_at tr 0 ∈ _keys_attempted tr ->
  (get_next_key cd now later s tr).1.1 = Some (candidate_at tr 0)
  /\ current_cycle (get_next_key cd now later s tr).2 = current_cycle tr + 1.
Proof.
  intros Hne Hcyc Hall Hsz Hatt.
  pose proof (keys_length_pos _ Hne) as Hn.
  rewrite get_next_key_sweeps. unfold first_sweep.
  rewrite bool_decide_false by done.
  destruct (Z.leb_spec (max_cycles tr) (current_cycle tr)); [lia|].
  rewrite probe_rejects_all; [|done|lia|].
  2:{ intros j _. apply rejects_tried, Hall. by apply key_at_elem. }
  unfold _should_reset_cycle. cbn [set_key_index _all_keys keys_tried_this_cycle].
  destruct (Nat.leb_spec (length (_all_keys tr)) (size (keys_tried_this_cycle tr)));
    [|lia].
  unfold second_sweep.
  cbn [_reset_cycle set_key_index max_cycles current_cycle _all_keys provider].
  destruct (Z.leb_spec (max_cycles tr) (current_cycle tr + 1)); [lia|].
  match goal with |- context [probe cd _ later _ ?t] => set (tr2 := t) end.
  assert (Hc0 : candidate_at tr2 0 = candidate_at tr 0).
  { unfold candidate_at, tr2, _reset_cycle, set_key_index. cbn [_all_keys _key_index].
    rewrite <- !Z.add_assoc, key_at_mod_l by done.
    rewrite (Z.add_comm (_key_index tr)), <- Z.add_assoc, (Z.add_comm (Z.of_nat _)).
    by rewrite Z.add_assoc, key_at_plus_length by done. }
  rewrite (probe_accepts _ _ _ tr2 0); [by rewrite Hc0|done|lia|intros; lia|].
  rewrite Hc0. unfold rejects, tr2, _reset_cycle, set_key_index.
  cbn [keys_tried_this_cycle _keys_attempted].
  rewrite bool_decide_false by set_solver.
  rewrite (bool_decide_false (_ ∉ _)); [done|]. by intros Hn'.
Qed.

(** ** The cooldown test of the router *)

Lemma all_in_cooldown_loop_spec keys (fk : gmap string Z) now :
  all_in_cooldown_loop cd keys fk now = true <->
  forall k, k ∈ keys -> exists fail_time, fk !! k = Some fail_time /\ now - fail_time < cd.
Proof.
  induction keys as [|key keys IH]; cbn [all_in_cooldown_loop].
  - split; [|done]. intros _ k Hk. by apply elem_of_nil in Hk.
  - destruct (fk !! key) as [ft|] eqn:Hft.
    + destruct (Z.leb_spec cd (now - ft)) as [Hle|Hlt].
      * split; [done|]. intros Hall.
        destruct (Hall key) as (ft' & Hft' & Hlt'); [by left|].
        rewrite Hft in Hft'. injection Hft' as ->. lia.
      * rewrite IH. split.
        -- intros Hall k Hk. apply elem_of_cons in Hk as [->|Hk]; [by eexists|by apply Hall].
        -- intros Hall k Hk. apply Hall. by right.
    + split; [done|]. intros Hall.
      destruct (Hall key) as (ft' & Hft' & _); [by left|]. by rewrite Hft in Hft'.
Qed.

Lemma in_cooldown_true (fk : gmap string Z) now k :
  in_cooldown cd fk now k = true <->
  0 < cd /\ exists fail_time, fk !! k = Some fail_time /\ now - fail_time < cd.
Proof.
  unfold in_cooldown. destruct (fk !! k) as [ft|].
  - rewrite andb_true_iff, !Z.ltb_lt. split.
    + intros [? ?]. split; [done|]. by eexists.
    + intros [? (ft' & [= <-] & ?)]. done.
  - split; [done|]. by intros [_ (? & ? & _)].
Qed.

(** The first candidate in probing order that the loop does not pass over
    is what the call returns, in the current cycle. *)
Lemma next_candidate_returned now later s tr j :
  current_cycle tr < max_cycles tr ->
  (j < length (_all_keys tr))%nat ->
  rejects cd now (failed_keys (state_of s (provider tr))) tr (candidate_at tr j) = false ->
  (forall j', (j' < j)%nat ->
     rejects cd now (failed_keys (state_of s (provider tr))) tr (candidate_at tr j') = true) ->
  (get_next_key cd now later s tr).1.1 = Some (candidate_at tr j)
  /\ current_cycle (get_next_key cd now later s tr).2 = current_cycle tr.
Proof.
  intros Hcyc Hj Hat Hbefore.
  assert (Hne : _all_keys tr <> []) by (destruct (_all_keys tr); [cbn in Hj; lia|done]).
  rewrite get_next_key_sweeps. unfold first_sweep.
  rewrite bool_decide_false by done.
  destruct (Z.leb_spec (max_cycles tr) (current_cycle tr)); [lia|].
  rewrite subscript_state_of.
  by rewrite (probe_accepts _ _ _ _ j).
Qed.

(** ** Reads see the failure map only through the cooldown test *)

Lemma probe_ext m now (fk fk' : gmap string Z) tr :
  (forall k, in_cooldown cd fk now k = in_cooldown cd fk' now k) ->
  probe cd m now fk tr = probe cd m now fk' tr.
Proof.
  intros Hext. revert tr. induction m as [|m IH]; intros tr; [done|].
  cbn [probe]. by rewrite Hext, !IH.
Qed.

Lemma in_cooldown_delete (fk : gmap string Z) now k0 k :
  in_cooldown cd fk now k0 = false ->
  in_cooldown cd (delete k0 fk) now k = in_cooldown cd fk now k.
Proof.
  intros H0. unfold in_cooldown in *. destruct (decide (k0 = k)) as [->|Hne].
  - by rewrite lookup_delete_eq, H0.
  - by rewrite lookup_delete_ne.
Qed.

Lemma get_next_key_ext now later (s s' : store) tr :
  (forall k, in_cooldown cd (failed_keys (state_of s (provider tr))) now k
             = in_cooldown cd (failed_keys (state_of s' (provider tr))) now k) ->
  (forall k, in_cooldown cd (failed_keys (state_of s (provider tr))) later k
             = in_cooldown cd (failed_keys (state_of s' (provider tr))) later k) ->
  (get_next_key cd now later s tr).1.1 = (get_next_key cd now later s' tr).1.1
  /\ (get_next_key cd now later s tr).2 = (get_next_key cd now later s' tr).2.
Proof.
  intros Hnow Hlater. rewrite !get_next_key_sweeps. unfold first_sweep.
  case_bool_decide as Hne; [done|].
  destruct (max_cycles tr <=? current_cycle tr); [done|].
  rewrite !subscript_state_of.
  rewrite (probe_ext _ now _ _ tr Hnow).
  destruct (probe cd _ now _ tr) as [[k|] tr1] eqn:Hp1; [done|].
  destruct (_should_reset_cycle tr1); [|done].
  unfold second_sweep.
  destruct (probe_frame _ _ _ _ _ _ Hne Hp1) as (Hprov & _).
  cbn [_reset_cycle provider max_cycles current_cycle _all_keys].
  destruct (max_cycles tr1 <=? current_cycle tr1 + 1); [done|].
  rewrite Hprov, !subscript_state_of.
  rewrite (probe_ext _ later _ _ _ Hlater).
  by destruct (probe cd _ later _ _) as [[k|] tr3].
Qed.

Lemma get_next_key_failed_keys now later s tr q :
  failed_keys (state_of (get_next_key cd now later s tr).1.2 q)
  = failed_keys (state_of s q).
Proof.
  destruct (get_next_key cd now later s tr) as [[r s'] tr'] eqn:Hcall.
  destruct (get_next_key_frame _ _ _ _ _ _ _ Hcall) as (_ & _ & Hres & Hother).
  cbn [fst snd]. destruct (decide (q = provider tr)) as [->|Hq].
  - destruct r as [k|]; [|by rewrite Hres].
    destruct Hres as (_ & _ & _ & _ & _ & ->). done.
  - by rewrite Hother.
Qed.

Lemma without_entry_state p k0 (s : store) q :
  state_of (without_entry p k0 s) q
  = if decide (q = p)
    then set_failed_keys (delete k0 (failed_keys (state_of s p))) (state_of s p)
    else state_of s q.
Proof.
  unfold without_entry, state_of at 1. case_decide as Hq.
  - subst q. by rewrite lookup_insert_eq.
  - by rewrite lookup_insert_ne.
Qed.

(** ** The loop of [get_api_key] *)

Lemma get_api_key_loop_spec offsets keys now st :
  match get_api_key_loop cd offsets keys now st with
  | (Some k, st') =>
      in_cooldown cd (failed_keys st) now k = false
      /\ failed_keys st' = (if 0 <? cd then delete k (failed_keys st) else failed_keys st)
      /\ exists offset, offset ∈ offsets
           /\ last_used_index st'
              = (last_used_index st + 1 + Z.of_nat offset) mod Z.of_nat (length keys)
           /\ k = key_at keys (last_used_index st + 1 + Z.of_nat offset)
  | (None, st') =>
      st' = st
      /\ forall o, o ∈ offsets ->
           in_cooldown cd (failed_keys st) now
             (key_at keys (last_used_index st + 1 + Z.of_nat o)) = true
  end.
Proof.
  induction offsets as [|offset rest IH]; cbn [get_api_key_loop].
  { split; [done|]. intros o Ho. by apply elem_of_nil in Ho. }
  fold (key_at keys (last_used_index st + 1 + Z.of_nat offset)).
  set (k := key_at keys (last_used_index st + 1 + Z.of_nat offset)).
  pose proof (eq_refl : in_cooldown cd (failed_keys st) now k = _) as Hin.
  unfold in_cooldown in Hin at 2.
  destruct (failed_keys st !! k) as [ft|] eqn:Hft.
  - destruct (0 <? cd) eqn:Hcd; cbn [andb] in Hin.
    + destruct (now - ft <? cd) eqn:Hlt.
      * destruct (get_api_key_loop cd rest keys now st) as [[k'|] st'].
        -- destruct IH as (? & ? & offset' & ? & ? & ?).
           split_and!; [done|done|]. exists offset'. split_and!; [by right|done|done].
        -- destruct IH as [-> Hall]. split; [done|].
           intros o Ho. apply elem_of_cons in Ho as [->|Ho]; [done|by apply Hall].
      * cbn. split_and!; [done|done|]. exists offset. split_and!; [by left|done|done].
    + cbn. split_and!; [done|done|]. exists offset. split_and!; [by left|done|done].
  - cbn. split_and!; [done| |].
    + destruct (0 <? cd); [|done]. by rewrite delete_id.
    + exists offset. split_and!; [by left|done|done].
Qed.

(** Removing an entry that is not in cooldown commutes with the loop. *)
Lemma get_api_key_loop_without offsets keys now st k0 :
  in_cooldown cd (failed_keys st) now k0 = false ->
  (get_api_key_loop cd offsets keys now
     (set_failed_keys (delete k0 (failed_keys st)) st)).1
  = (get_api_key_loop cd offsets keys now st).1
  /\ last_used_index
       (get_api_key_loop cd offsets keys now
          (set_failed_keys (delete k0 (failed_keys st)) st)).2
     = last_used_index (get_api_key_loop cd offsets keys now st).2
  /\ failed_keys
       (get_api_key_loop cd offsets keys now
          (set_failed_keys (delete k0 (failed_keys st)) st)).2
     = delete k0 (failed_keys (get_api_key_loop cd offsets keys now st).2).
Proof.
  intros H0. induction offsets as [|offset rest IH]; cbn [get_api_key_loop].
  { done. }
  cbn [set_failed_keys last_used_index failed_keys].
  fold (key_at keys (last_used_index st + 1 + Z.of_nat offset)).
  set (k := key_at keys (last_used_index st + 1 + Z.of_nat offset)).
  unfold in_cooldown in H0.
  destruct (decide (k = k0)) as [Hk|Hk].
  - rewrite Hk, lookup_delete_eq.
    destruct (failed_keys st !! k0) as [ft|] eqn:Hft.
    + destruct (0 <? cd); cbn [andb] in H0.
      * rewrite H0. cbn. by rewrite delete_delete_eq.
      * done.
    + done.
  - rewrite lookup_delete_ne by done.
    destruct (failed_keys st !! k) as [ft|] eqn:Hft; [|done].
    destruct (0 <? cd); [|done].
    destruct (now - ft <? cd); [done|].
    cbn. by rewrite delete_delete.
Qed.

(** ** Walking the rotation *)

Lemma key_at_inj keys x y :
  NoDup keys -> keys <> [] ->
  key_at keys x = key_at keys y ->
  x mod Z.of_nat (length keys) = y mod Z.of_nat (length keys).
Proof.
  intros Hnd Hne Heq. pose proof (keys_length_pos keys Hne) as Hn.
  pose proof (Z.mod_pos_bound x _ Hn) as Hx.
  pose proof (Z.mod_pos_bound y _ Hn) as Hy.
  unfold key_at in Heq.
  assert (Z.to_nat (x mod Z.of_nat (length keys))
          = Z.to_nat (y mod Z.of_nat (length keys))) as Hnat; [|lia].
  eapply NoDup_lookup; [done| |].
  - apply list_lookup_lookup_total_lt. lia.
  - rewrite Heq. apply list_lookup_lookup_total_lt. lia.
Qed.

Lemma rotation_key_inj keys i0 a b :
  NoDup keys -> keys <> [] ->
  rotation_key keys i0 a = rotation_key keys i0 b ->
  (a <= b)%nat -> (b < a + length keys)%nat -> a = b.
Proof.
  intros Hnd Hne Heq Hab Hlt. apply key_at_inj in Heq; [|done|done].
  apply Z.cong_iff_ex in Heq as [q Hq].
  pose proof (keys_length_pos keys Hne).
  destruct (Z.lt_trichotomy q 0) as [?|[->|?]]; [nia|lia|nia].
Qed.

Lemma rotation_key_elem keys i0 j : keys <> [] -> rotation_key keys i0 j ∈ keys.
Proof. intros. by apply key_at_elem. Qed.

Lemma walked_candidate keys i0 p M j tr :
  walked keys i0 p M j tr -> candidate_at tr 0 = rotation_key keys i0 j.
Proof.
  intros (_ & _ & _ & _ & Hcand & _). rewrite Hcand. f_equal. lia.
Qed.

(** One more call on a tracker that has walked [j] steps returns the key
    of step [j]. *)
Lemma walked_step keys i0 p M j now later s tr :
  NoDup keys -> keys <> [] ->
  walked keys i0 p M j tr ->
  Z.of_nat j < M * Z.of_nat (length keys) ->
  (forall k, k ∈ keys -> k ∉ _keys_attempted tr ->
     in_cooldown cd (failed_keys (state_of s p)) now k = false) ->
  (get_next_key cd now later s tr).1.1 = Some (rotation_key keys i0 j)
  /\ current_cycle (get_next_key cd now later s tr).2 = Z.of_nat (j / length keys)
  /\ walked keys i0 p M (S j) (get_next_key cd now later s tr).2
  /\ failed_keys (state_of (get_next_key cd now later s tr).1.2 p)
     = failed_keys (state_of s p)
  /\ last_used_index (state_of (get_next_key cd now later s tr).1.2 p)
     = (i0 + 1 + Z.of_nat j) mod Z.of_nat (length keys).
Proof.
  intros Hnd Hne Hw Hbudget Havail.
  pose proof (walked_candidate _ _ _ _ _ _ Hw) as Hc0.
  destruct Hw as (Hkeys & Hmax & Hprov & Hok & Hcand & c & Hc & Hrange & Hsize & Htried).
  pose proof (keys_length_pos keys Hne) as Hn.
  pose proof (get_next_key_failed_keys now later s tr p) as Hfk.
  assert (Hfirst :
    (get_next_key cd now later s tr).1.1 = Some (rotation_key keys i0 j)
    /\ (current_cycle (get_next_key cd now later s tr).2 = current_cycle tr
         /\ (j < c * length keys + length keys)%nat
        \/ current_cycle (get_next_key cd now later s tr).2 = current_cycle tr + 1
           /\ j = (c * length keys + length keys)%nat)).
  { destruct (decide (j < c * length keys + length keys)%nat) as [Hlt|Hge].
    - rewrite <- Hc0.
      destruct (next_candidate_returned now later s tr 0) as [Hr Hcy].
      + rewrite Hc, Hmax. nia.
      + rewrite Hkeys. lia.
      + rewrite Hc0. unfold rejects. rewrite bool_decide_false.
        * case_bool_decide as Hatt; [|done].
          by rewrite Hprov, Havail by (done || by apply rotation_key_elem).
        * rewrite Htried. intros (o & Ho & Heq). symmetry in Heq.
          apply rotation_key_inj in Heq; [lia|done|done|lia|lia].
      + intros j' Hj'. lia.
      + split; [done|]. left. done.
    - assert (j = (c * length keys + length keys)%nat) as Hj by lia.
      rewrite <- Hc0.
      destruct (attempted_key_returned_after_reset now later s tr) as [Hr Hcy].
      + by rewrite Hkeys.
      + rewrite Hc, Hmax. nia.
      + intros k Hk. apply tracker_ok_swept; [done| |done].
        rewrite Hsize, Hkeys. lia.
      + rewrite Hsize, Hkeys. lia.
      + pose proof Hok as (_ & Hsub & _). apply Hsub.
        apply tracker_ok_swept; [done| |].
        * rewrite Hsize, Hkeys. lia.
        * apply key_at_elem. by rewrite Hkeys.
      + split; [done|]. right. done. }
  destruct (get_next_key cd now later s tr) as [[r s'] tr'] eqn:Hcall.
  cbn [fst snd] in *. destruct Hfirst as [-> Hcycle].
  destruct (get_next_key_ok _ _ _ _ _ _ _ Hok Hcall) as [Hok' _].
  destruct (get_next_key_frame _ _ _ _ _ _ _ Hcall)
    as ((Hprov' & Hmax' & Hkeys' & _) & Hcase & (_ & _ & _ & Hidx & Hk & Hst) & _).
  rewrite Hkeys in Hidx, Hk. rewrite Hprov in Hst.
  assert (Hidx' : _key_index tr'
                  = (i0 + 1 + Z.of_nat j) mod Z.of_nat (length keys)).
  { pose proof (Z.mod_pos_bound (i0 + 1 + Z.of_nat j) _ Hn) as Hb.
    assert (Z.to_nat (_key_index tr')
            = Z.to_nat ((i0 + 1 + Z.of_nat j) mod Z.of_nat (length keys))); [|lia].
    eapply NoDup_lookup; [done| |].
    - apply list_lookup_lookup_total_lt. lia.
    - rewrite <- Hk. apply list_lookup_lookup_total_lt. lia. }
  assert (Hcand' : forall x, candidate_at tr' x = rotation_key keys i0 (S j + x)).
  { intros x. unfold candidate_at, rotation_key. rewrite Hkeys', Hkeys, Hidx'.
    rewrite <- Z.add_assoc, key_at_mod_l by done. f_equal. lia. }
  split_and!.
  - done.
  - destruct Hcycle as [[-> Hlt]|[-> Hj]]; rewrite Hc.
    + f_equal. apply (Nat.div_unique _ _ _ (j - c * length keys)); lia.
    + assert ((j / length keys)%nat = S c) as ->; [|lia].
      symmetry. apply (Nat.div_unique _ _ _ 0); lia.
  - split_and!; [congruence|congruence|congruence|done|done|].
    destruct Hcycle as [[Hcy Hlt]|[Hcy Hj]].
    + destruct Hcase as [(_ & _ & Hnot & Htr')|(Hcy' & _)]; [|lia].
      exists c. split_and!; [congruence|lia|lia| |].
      * rewrite Htr', size_union, size_singleton by set_solver. lia.
      * intros k. rewrite Htr', elem_of_union, elem_of_singleton, Htried. split.
        -- intros [(o & Ho & ->) | ->]; [exists o|exists j]; split; (lia || done).
        -- intros (o & Ho & ->). destruct (decide (o = j)) as [->|?]; [by right|].
           left. exists o. split; [lia|done].
    + destruct Hcase as [(Hcy' & _)|(_ & _ & _ & Htr')]; [lia|].
      exists (S c). split_and!.
      * rewrite Hcy, Hc. lia.
      * lia.
      * lia.
      * rewrite Htr', size_singleton. lia.
      * intros k. rewrite Htr', elem_of_singleton. split.
        -- intros ->. exists j. split; [lia|done].
        -- intros (o & Ho & ->). f_equal. lia.
  - done.
  - rewrite Hst. cbn. done.
Qed.

Lemma walked_run keys i0 p M times : forall j s tr,
  NoDup keys -> keys <> [] ->
  walked keys i0 p M j tr ->
  Z.of_nat (j + length times) <= M * Z.of_nat (length keys) ->
  (forall t k, t ∈ times -> k ∈ keys ->
     in_cooldown cd (failed_keys (state_of s p)) t.1 k = false) ->
  (run cd (calls times) s tr).1.1
  = map (fun x => (Some (rotation_key keys i0 x), Z.of_nat (x / length keys)))
        (seq j (length times)).
Proof.
  induction times as [|t times IH]; intros j s tr Hnd Hne Hw Hbudget Havail; [done|].
  change (calls (t :: times)) with (GetNextKey t.1 t.2 :: calls times).
  cbn [map run length seq].
  destruct (walked_step keys i0 p M j t.1 t.2 s tr Hnd Hne Hw) as (Hr & Hcy & Hw' & Hfk & _).
  { cbn [length] in Hbudget. lia. }
  { intros k Hk _. apply Havail; [by left|done]. }
  destruct (get_next_key cd t.1 t.2 s tr) as [[r s1] tr1] eqn:Hcall.
  cbn [fst snd] in Hr, Hcy, Hw', Hfk. subst r.
  specialize (IH (S j) s1 tr1 Hnd Hne Hw').
  destruct (run cd (calls times) s1 tr1) as [[rs s2] tr2] eqn:Hrun.
  cbn [fst snd] in *. rewrite Hcy. f_equal. apply IH.
  - cbn [length] in Hbudget. lia.
  - intros t' k Ht' Hk. rewrite Hfk. apply Havail; [by right|done].
Qed.

Lemma in_cooldown_lookup (fk fk' : gmap string Z) now k :
  fk !! k = fk' !! k -> in_cooldown cd fk now k = in_cooldown cd fk' now k.
Proof. unfold in_cooldown. by intros ->. Qed.

(** The attempts of a request walk the rotation even when every key is
    marked failed as soon as it is returned: the marks only concern keys
    the tracker has attempted. *)
Lemma walked_request keys i0 p M (fk0 : gmap string Z) attempts : forall j s tr,
  NoDup keys -> keys <> [] ->
  walked keys i0 p M j tr ->
  Z.of_nat (j + length attempts) <= M * Z.of_nat (length keys) ->
  (forall k, k ∉ _keys_attempted tr -> failed_keys (state_of s p) !! k = fk0 !! k) ->
  (forall a k, a ∈ attempts -> k ∈ keys -> in_cooldown cd fk0 a.1.1 k = false) ->
  (request cd attempts s tr).1.1
  = map (fun x => (Some (rotation_key keys i0 x), Z.of_nat (x / length keys)))
        (seq j (length attempts)).
Proof.
  induction attempts as [|[[now later] failure] attempts IH];
    intros j s tr Hnd Hne Hw Hbudget Hfk0 Havail; [done|].
  cbn [request length seq map].
  destruct (walked_step keys i0 p M j now later s tr Hnd Hne Hw) as (Hr & Hcy & Hw' & Hfk & _).
  { cbn [length] in Hbudget. lia. }
  { intros k Hk Hatt. rewrite (in_cooldown_lookup _ fk0) by (by apply Hfk0).
    apply (Havail (now, later, failure)); [by left|done]. }
  destruct (get_next_key cd now later s tr) as [[r s1] tr1] eqn:Hcall.
  cbn [fst snd] in Hr, Hcy, Hw', Hfk. subst r.
  destruct (get_next_key_frame _ _ _ _ _ _ _ Hcall)
    as ((Hprov & _ & _ & Hmono) & _ & (_ & Hin & _) & _).
  match goal with |- context [request cd attempts ?x tr1] => set (s2 := x) end.
  assert (Hfk2 : forall k, k ∉ _keys_attempted tr1 ->
                   failed_keys (state_of s2 p) !! k = fk0 !! k).
  { intros k Hk. rewrite <- Hfk0 by set_solver. rewrite <- Hfk.
    unfold s2. destruct failure as [t|]; [|done].
    unfold mark_failed, mark_key_failed.
    destruct Hw as (_ & _ & Hp & _). rewrite Hprov, Hp.
    unfold state_of at 1. rewrite lookup_insert_eq. cbn [failed_keys set_failed_keys].
    apply lookup_insert_ne. intros Heq. subst k. done. }
  specialize (IH (S j) s2 tr1 Hnd Hne Hw').
  destruct (request cd attempts s2 tr1) as [[rs s3] tr3] eqn:Hreq.
  cbn [fst snd] in *. rewrite Hcy. f_equal. apply IH.
  - cbn [length] in Hbudget. lia.
  - done.
  - intros a k Ha Hk. apply Havail; [by right|done].
Qed.

Lemma get_api_key_loop_first o offsets keys now st :
  in_cooldown cd (failed_keys st) now
    (key_at keys (last_used_index st + 1 + Z.of_nat o)) = false ->
  get_api_key_loop cd (o :: offsets) keys now st
  = (Some (key_at keys (last_used_index st + 1 + Z.of_nat o)),
     mkState ((last_used_index st + 1 + Z.of_nat o) mod Z.of_nat (length keys))
             (if 0 <? cd
              then delete (key_at keys (last_used_index st + 1 + Z.of_nat o)) (failed_keys st)
              else failed_keys st)).
Proof.
  cbn [get_api_key_loop].
  fold (key_at keys (last_used_index st + 1 + Z.of_nat o)).
  set (k := key_at keys (last_used_index st + 1 + Z.of_nat o)).
  unfold in_cooldown. destruct (failed_keys st !! k) as [ft|] eqn:Hft.
  - destruct (0 <? cd); cbn [andb]; [|done]. by intros ->.
  - intros _. unfold set_last_used_index. destruct (0 <? cd); [|done].
    by rewrite delete_id.
Qed.

Lemma in_cooldown_delete_false (fk : gmap string Z) now k0 k :
  in_cooldown cd fk now k = false -> in_cooldown cd (delete k0 fk) now k = false.
Proof.
  unfold in_cooldown. destruct (decide (k0 = k)) as [->|Hne].
  - by rewrite lookup_delete_eq.
  - by rewrite lookup_delete_ne.
Qed.

Lemma key_at_cong keys x y :
  x mod Z.of_nat (length keys) = y mod Z.of_nat (length keys) ->
  key_at keys x = key_at keys y.
Proof. unfold key_at. by intros ->. Qed.

End RotationFacts.

Lemma init_ok cfg environ py_int max_default p maxc (s : store) :
  tracker_ok (__init__ cfg environ py_int max_default p maxc s).1
  /\ current_cycle (__init__ cfg environ py_int max_default p maxc s).1 = 0
  /\ keys_tried_this_cycle (__init__ cfg environ py_int max_default p maxc s).1 = ∅.
Proof.
  split_and!; [|done|done]. unfold tracker_ok. cbn.
  split_and!; [apply empty_subseteq|apply empty_subseteq|lia].
Qed.

Section ApiKeyFacts.

Variable get_provider_env_var_patterns : string -> option (list string).
Variable environ : list (string * string).
Variable py_int : string -> option Z.
Variable cd : Z.

Lemma get_api_key_result p now (s : store) :
  let keys := _parse_provider_keys get_provider_env_var_patterns environ py_int p in
  let r := get_api_key_loop cd (seq 0 (length keys)) keys now (state_of s p) in
  (get_api_key get_provider_env_var_patterns environ py_int cd p now s).1 = r.1
  /\ state_of (get_api_key get_provider_env_var_patterns environ py_int cd p now s).2 p = r.2
  /\ forall q, q <> p ->
       state_of (get_api_key get_provider_env_var_patterns environ py_int cd p now s).2 q
       = state_of s q.
Proof.
  cbv zeta. unfold get_api_key. case_bool_decide as Hne.
  - rewrite Hne. done.
  - cbn [fst snd]. rewrite subscript_state_of. split_and!; [done| |].
    + unfold state_of at 1. by rewrite lookup_insert_eq.
    + intros q Hq. unfold state_of at 1. rewrite lookup_insert_ne by done.
      apply subscript_state_of.
Qed.

Lemma expired_not_in_cooldown (fk : gmap string Z) now k :
  expired cd fk now k -> in_cooldown cd fk now k = false.
Proof.
  intros (ft & Hft & Hle). unfold in_cooldown. rewrite Hft.
  apply andb_false_iff. right. apply Z.ltb_ge. done.
Qed.

Lemma get_api_key_agree p now (s1 s2 : store) :
  state_of s1 p = state_of s2 p ->
  (get_api_key get_provider_env_var_patterns environ py_int cd p now s1).1
  = (get_api_key get_provider_env_var_patterns environ py_int cd p now s2).1
  /\ state_of (get_api_key get_provider_env_var_patterns environ py_int cd p now s1).2 p
     = state_of (get_api_key get_provider_env_var_patterns environ py_int cd p now s2).2 p.
Proof.
  intros Heq.
  destruct (get_api_key_result p now s1) as (H1 & H1' & _).
  destruct (get_api_key_result p now s2) as (H2 & H2' & _).
  cbv zeta in *. by rewrite H1, H1', H2, H2', Heq.
Qed.

Lemma get_next_key_agree now later (s1 s2 : store) tr :
  state_of s1 (provider tr) = state_of s2 (provider tr) ->
  (get_next_key cd now later s1 tr).1.1 = (get_next_key cd now later s2 tr).1.1
  /\ (get_next_key cd now later s1 tr).2 = (get_next_key cd now later s2 tr).2
  /\ state_of (get_next_key cd now later s1 tr).1.2 (provider tr)
     = state_of (get_next_key cd now later s2 tr).1.2 (provider tr).
Proof.
  intros Heq.
  destruct (get_next_key_ext cd now later s1 s2 tr) as [Hk Htr];
    [by rewrite Heq|by rewrite Heq|].
  split_and!; [done|done|].
  destruct (get_next_key cd now later s1 tr) as [[r1 s1'] tr1] eqn:Hc1.
  destruct (get_next_key cd now later s2 tr) as [[r2 s2'] tr2] eqn:Hc2.
  cbn [fst snd] in *. subst r2 tr2.
  destruct (get_next_key_frame _ _ _ _ _ _ _ _ Hc1) as (_ & _ & Hres1 & _).
  destruct (get_next_key_frame _ _ _ _ _ _ _ _ Hc2) as (_ & _ & Hres2 & _).
  destruct r1 as [k|].
  - destruct Hres1 as (_ & _ & _ & _ & _ & ->).
    destruct Hres2 as (_ & _ & _ & _ & _ & ->). by rewrite Heq.
  - by rewrite Hres1, Hres2.
Qed.

Lemma all_keys_in_cooldown_agree now (s1 s2 : store) tr :
  state_of s1 (provider tr) = state_of s2 (provider tr) ->
  (all_keys_in_cooldown cd now s1 tr).1 = (all_keys_in_cooldown cd now s2 tr).1.
Proof.
  intros Heq. unfold all_keys_in_cooldown. case_bool_decide; [done|].
  destruct (cd <=? 0); [done|]. cbn [fst]. by rewrite !subscript_state_of, Heq.
Qed.

Lemma mark_key_failed_state p k t (s : store) q :
  state_of (mark_key_failed p k t s) q
  = if decide (q = p)
    then set_failed_keys (<[k := t]> (failed_keys (state_of s p))) (state_of s p)
    else state_of s q.
Proof.
  unfold mark_key_failed, state_of at 1. case_decide as Hq.
  - subst q. by rewrite lookup_insert_eq.
  - by rewrite lookup_insert_ne.
Qed.

Lemma record_failures_index p fails : forall s : store,
  last_used_index (state_of (record_failures p fails s) p)
  = last_used_index (state_of s p).
Proof.
  induction fails as [|[k t] fails IH]; intros s; [done|].
  cbn [record_failures fold_left]. unfold record_failures in IH. rewrite IH.
  by rewrite mark_key_failed_state, decide_True.
Qed.

Lemma reset_failed_keys_state o (s : store) q :
  state_of (reset_failed_keys o s) q
  = if decide (truthy o = true /\ o <> Some q)
    then state_of s q else clear_failed (state_of s q).
Proof.
  unfold reset_failed_keys. destruct (truthy o) eqn:Ho.
  - destruct o as [p|]; [|done]. change (default "" (Some p)) with p.
    destruct (decide (p = q)) as [->|Hpq].
    + rewrite decide_False by (intros [_ ?]; done).
      unfold state_of. destruct (s !! q) as [st|] eqn:Hq.
      * by rewrite lookup_insert_eq.
      * by rewrite Hq.
    + rewrite decide_True by (split; congruence).
      destruct (s !! p) as [st|] eqn:Hp; [|done].
      unfold state_of. by rewrite lookup_insert_ne.
  - rewrite decide_False by (intros [? _]; done).
    unfold state_of. rewrite lookup_fmap. by destruct (s !! q).
Qed.

Lemma reset_rotation_state_state o (s : store) q :
  state_of (reset_rotation_state o s) q
  = if decide (truthy o = true /\ o <> Some q)
    then state_of s q else fresh_state.
Proof.
  unfold reset_rotation_state. destruct (truthy o) eqn:Ho.
  - destruct o as [p|]; [|done]. change (default "" (Some p)) with p.
    destruct (decide (p = q)) as [->|Hpq].
    + rewrite decide_False by (intros [_ ?]; done).
      unfold state_of. destruct (s !! q) as [st|] eqn:Hq.
      * by rewrite lookup_insert_eq.
      * by rewrite Hq.
    + rewrite decide_True by (split; congruence).
      destruct (s !! p) as [st|] eqn:Hp; [|done].
      unfold state_of. by rewrite lookup_insert_ne.
  - by rewrite decide_False by (intros [? _]; done).
Qed.

Lemma get_api_keys_progression p i0 times : forall j (s : store),
  let keys := _parse_provider_keys get_provider_env_var_patterns environ py_int p in
  keys <> [] ->
  (last_used_index (state_of s p) + 1) mod Z.of_nat (length keys)
  = (i0 + 1 + Z.of_nat j) mod Z.of_nat (length keys) ->
  (forall now k, now ∈ times -> k ∈ keys ->
     in_cooldown cd (failed_keys (state_of s p)) now k = false) ->
  (get_api_keys get_provider_env_var_patterns environ py_int cd p times s).1
  = map (fun x => (Some (rotation_key keys i0 x),
                   (i0 + 1 + Z.of_nat x) mod Z.of_nat (length keys)))
        (seq j (length times)).
Proof.
  cbv zeta. set (keys := _parse_provider_keys _ _ _ p).
  induction times as [|now times IH]; intros j s Hne Hidx Havail; [done|].
  cbn [get_api_keys length seq map].
  pose proof (keys_length_pos keys Hne) as Hn.
  destruct (get_api_key_result p now s) as (Hr & Hst & _).
  cbv zeta in Hr, Hst. fold keys in Hr, Hst.
  assert (Hk0 : key_at keys (last_used_index (state_of s p) + 1 + Z.of_nat 0)
                = rotation_key keys i0 j).
  { apply key_at_cong. rewrite <- Hidx. f_equal. lia. }
  destruct (length keys) as [|n'] eqn:Hlen; [lia|]. cbn [seq] in Hr, Hst.
  rewrite get_api_key_loop_first in Hr, Hst
    by (rewrite Hk0; apply Havail; [by left|by apply rotation_key_elem]).
  rewrite <- Hlen in *. cbn [fst snd] in Hr, Hst.
  destruct (get_api_key _ _ _ cd p now s) as [r s1] eqn:Hcall.
  cbn [fst snd] in Hr, Hst.
  specialize (IH (S j) s1 Hne).
  destruct (get_api_keys _ _ _ cd p times s1) as [rs s2].
  cbn [fst snd] in *. rewrite Hr, Hst, Hk0. cbn [last_used_index].
  f_equal.
  - f_equal. rewrite <- Hidx. f_equal. lia.
  - apply IH.
    + rewrite Hst. cbn [last_used_index].
      rewrite Z.add_mod_idemp_l by lia.
      rewrite <- (Z.add_mod_idemp_l (last_used_index (state_of s p) + 1 + Z.of_nat 0)) by lia.
      replace (last_used_index (state_of s p) + 1 + Z.of_nat 0)
        with (last_used_index (state_of s p) + 1) by lia.
      rewrite Hidx, Z.add_mod_idemp_l by lia. f_equal. lia.
    + intros now' k Hnow' Hk. rewrite Hst. cbn [failed_keys].
      destruct (0 <? cd).
      * apply in_cooldown_delete_false. apply Havail; [by right|done].
      * apply Havail; [by right|done].
Qed.

Lemma walked_init max_default p maxc (s : store) :
  walked (_parse_provider_keys get_provider_env_var_patterns environ py_int p)
         (last_used_index (state_of s p)) p (default max_default maxc) 0
         (__init__ get_provider_env_var_patterns environ py_int max_default p maxc s).1.
Proof.
  unfold walked. cbn [__init__ fst _all_keys max_cycles provider current_cycle
                      keys_tried_this_cycle].
  split_and!; [done|done|done| |done|].
  - apply (init_ok get_provider_env_var_patterns environ py_int max_default p maxc s).
  - exists 0%nat. split_and!; [done|lia|lia|apply size_empty|].
    intros k. split; [by intros ?%elem_of_empty|]. intros (o & ? & _). lia.
Qed.

Lemma init_store max_default p maxc (s : store) q :
  state_of (__init__ get_provider_env_var_patterns environ py_int max_default p maxc s).2 q
  = state_of s q.
Proof. apply subscript_state_of. Qed.

End ApiKeyFacts.

(** * Termination of [get_next_key] *)

(** [get_next_key] always returns: whatever further readings the clock
    offers, two are enough, the call recursing at most once (after the
    cycle reset the set of tried keys is empty, so no second reset
    follows). *)
Theorem get_next_key_returns (cd now later : Z) (more : list Z) (s : store)
    (tr : KeyCycleTracker) :
  get_next_key_at cd (now :: later :: more) s tr = Some (get_next_key cd now later s tr)
  /\ get_next_key_at cd [now; later] s tr <> None.
Proof.
  rewrite get_next_key_sweeps. split; [apply get_next_key_at_sweeps|].
  by rewrite get_next_key_at_sweeps.
Qed.

(** * C1: retries within one request *)

(** C1: a key the tracker has already attempted is returned again when its
    turn comes in a later cycle, whatever the provider's [failed_keys] and
    the clock say, as long as [current_cycle < max_cycles]: it is the
    result of [get_next_key] when it is the first key in rotation order
    not tried in the current cycle, and, when the cycle is fully swept and
    one more cycle is allowed, when it is the next key of the rotation (the
    call then resets the cycle). So the attempts of a request on a provider
    whose keys are available when the request starts return the keys in
    rotation order for [max_cycles] cycles, each key once per cycle, even
    when every key is marked failed as soon as it is returned: the key of
    attempt [j] is returned again by attempt [j + len(keys)]. With the keys
    [A], [B], [max_cycles = 2] and [last_used_index = -1], the calls
    [get_next_key], [mark_failed(A)], [get_next_key], [mark_failed(B)],
    [get_next_key], [get_next_key], [get_next_key] return [A], [B], [A],
    [B] and none. *)
Theorem attempted_key_retried_in_later_cycle :
  (forall (cd now later : Z) (s : store) (tr : KeyCycleTracker) (j : nat),
     current_cycle tr < max_cycles tr ->
     (j < length (_all_keys tr))%nat ->
     candidate_at tr j ∉ keys_tried_this_cycle tr ->
     candidate_at tr j ∈ _keys_attempted tr ->
     (forall j', (j' < j)%nat -> candidate_at tr j' ∈ keys_tried_this_cycle tr) ->
     (get_next_key cd now later s tr).1.1 = Some (candidate_at tr j)
     /\ current_cycle (get_next_key cd now later s tr).2 = current_cycle tr)
  /\ (forall (cd now later : Z) (s : store) (tr : KeyCycleTracker),
       _all_keys tr <> [] ->
       current_cycle tr + 1 < max_cycles tr ->
       (forall k, k ∈ _all_keys tr -> k ∈ keys_tried_this_cycle tr) ->
       (length (_all_keys tr) <= size (keys_tried_this_cycle tr))%nat ->
       candidate_at tr 0 ∈ _keys_attempted tr ->
       (get_next_key cd now later s tr).1.1 = Some (candidate_at tr 0)
       /\ current_cycle (get_next_key cd now later s tr).2 = current_cycle tr + 1)
  /\ (forall (get_provider_env_var_patterns : string -> option (list string))
        (environ : list (string * string)) (py_int : string -> option Z)
        (cd max_default : Z) (p : string) (maxc : option Z) (s : store)
        (attempts : list (Z * Z * option Z)),
       let keys := _parse_provider_keys get_provider_env_var_patterns environ py_int p in
       let init := __init__ get_provider_env_var_patterns environ py_int
                            max_default p maxc s in
       keys <> [] ->
       Z.of_nat (length attempts) <= default max_default maxc * Z.of_nat (length keys) ->
       (forall a k, a ∈ attempts -> k ∈ keys ->
          in_cooldown cd (failed_keys (state_of s p)) a.1.1 k = false) ->
       (request cd attempts init.2 init.1).1.1
       = map (fun j => (Some (rotation_key keys (last_used_index (state_of s p)) j),
                        Z.of_nat (j / length keys)))
             (seq 0 (length attempts)))
  /\ _all_keys tracker_ab = ["A"; "B"]
  /\ max_cycles tracker_ab = 2
  /\ last_used_index (state_of store_ab "p") = -1
  /\ map fst (run 60 ops_s3 store_ab tracker_ab).1.1
     = [Some "A"; Some "B"; Some "A"; Some "B"; None].
Proof.
  split_and!.
  - intros. by apply attempted_key_returned.
  - intros. by apply attempted_key_returned_after_reset.
  - intros cfg environ py_int cd max_default p maxc s attempts keys init Hne Hbudget Havail.
    apply (walked_request cd keys _ p (default max_default maxc)
             (failed_keys (state_of s p))).
    + apply parse_NoDup.
    + done.
    + apply walked_init.
    + lia.
    + intros k _. unfold init. by rewrite init_store.
    + done.
  - vm_compute. reflexivity.
  - reflexivity.
  - vm_compute. reflexivity.
  - vm_compute. reflexivity.
Qed.

(** In the cycling scenario, after the reset: [B] is attempted, not tried in
    cycle 1 and in cooldown since time 3, and the call at time 5 returns
    it. *)
Lemma attempted_key_retried_in_later_cycle_witness :
  in_cooldown 60 (failed_keys (state_of store_ab_reset "p")) 5 "B" = true
  /\ (get_next_key 60 5 5 store_ab_reset tracker_ab_reset).1.1 = Some "B".
Proof.
  split; [vm_compute; reflexivity|].
  destruct attempted_key_retried_in_later_cycle as [Hsame _].
  apply (Hsame 60 5 5 store_ab_reset tracker_ab_reset 0%nat).
  - vm_compute. reflexivity.
  - vm_compute. lia.
  - compute_done.
  - compute_done.
  - intros j' Hj'. lia.
Defined.

(** * C2: the cooldown of a failed key *)

(** C2, the claim as stated fails: [B] failed at 0 and the cooldown of 60
    has elapsed at 60, every key is available, and the fresh tracker
    returns [A], the next key of the rotation, not [B]. *)
Lemma cooldown_elapsed_counterexample :
  _all_keys tracker_b_failed = ["A"; "B"]
  /\ failed_keys (state_of store_b_failed "p") !! "B" = Some 0
  /\ (get_next_key 60 60 60 store_b_failed tracker_b_failed).1.1 = Some "A"
  /\ (get_next_key 60 60 60 store_b_failed tracker_b_failed).1.1 <> Some "B".
Proof. vm_compute. split_and!; try done. Qed.

(** C2, amended: after [mark_key_failed(p, k)] at time [t] the entry of [k]
    is expired at [t'] exactly when [t' - t >= KEY_COOLDOWN_SECONDS]. A
    fresh tracker calling [get_next_key] at [t' >= t] does not return [k]
    while [t' - t < KEY_COOLDOWN_SECONDS]. Once
    [t' - t >= KEY_COOLDOWN_SECONDS] the entry no longer holds [k] back: a
    fresh tracker with [max_cycles >= 1] returns [k] when every key before
    it in rotation order is in cooldown, in particular when [k] is the next
    key of the rotation; with all other keys available it returns the next
    key of the rotation, the one at index
    [(last_used_index + 1) mod len(keys)]. *)
Theorem global_failure_cooldown
    (get_provider_env_var_patterns : string -> option (list string))
    (environ : list (string * string)) (py_int : string -> option Z)
    (cd max_default : Z) (p k : string) (t : Z) (s0 : store)
    (maxc : option Z) (t' later : Z) :
  let s := mark_key_failed p k t s0 in
  let init := __init__ get_provider_env_var_patterns environ py_int
                       max_default p maxc s in
  let tr := init.1 in
  let fk := failed_keys (state_of s p) in
  fk !! k = Some t
  /\ (expired cd fk t' k <-> cd <= t' - t)
  /\ (t <= t' -> (in_cooldown cd fk t' k = false <-> cd <= t' - t))
  /\ (t <= t' -> t' - t < cd ->
      (get_next_key cd t' later init.2 tr).1.1 <> Some k)
  /\ (cd <= t' - t -> 0 < max_cycles tr ->
      forall j, (j < length (_all_keys tr))%nat ->
        candidate_at tr j = k ->
        (forall j', (j' < j)%nat -> in_cooldown cd fk t' (candidate_at tr j') = true) ->
        (get_next_key cd t' later init.2 tr).1.1 = Some k)
  /\ (cd <= t' - t -> 0 < max_cycles tr -> _all_keys tr <> [] ->
      (forall k', k' ∈ _all_keys tr -> k' <> k -> in_cooldown cd fk t' k' = false) ->
      (get_next_key cd t' later init.2 tr).1.1 = Some (candidate_at tr 0)).
Proof.
  cbv zeta.
  set (s := mark_key_failed p k t s0).
  set (init := __init__ _ _ _ _ _ _ _).
  assert (Hfk : failed_keys (state_of s p) !! k = Some t).
  { unfold s. rewrite mark_key_failed_state, decide_True by done.
    cbn [failed_keys set_failed_keys]. apply lookup_insert_eq. }
  assert (Hst : state_of init.2 (provider init.1) = state_of s p) by apply init_store.
  assert (Hexp : expired cd (failed_keys (state_of s p)) t' k <-> cd <= t' - t).
  { unfold expired. rewrite Hfk. split.
    - by intros (ft & [= <-] & ?).
    - intros ?. by exists t. }
  assert (Hrej : forall x,
            rejects cd t' (failed_keys (state_of init.2 (provider init.1))) init.1 x
            = in_cooldown cd (failed_keys (state_of s p)) t' x).
  { intros x. unfold rejects. rewrite Hst. cbn.
    rewrite bool_decide_false by set_solver.
    by rewrite bool_decide_true by set_solver. }
  split_and!.
  - done.
  - done.
  - intros Htt. unfold in_cooldown. rewrite Hfk.
    destruct (Z.ltb_spec 0 cd), (Z.ltb_spec (t' - t) cd); cbn; split; (done || lia).
  - intros Htt Hlt Hres.
    assert (Hin : in_cooldown cd (failed_keys (state_of s p)) t' k = true).
    { unfold in_cooldown. rewrite Hfk. apply andb_true_iff. split; apply Z.ltb_lt; lia. }
    rewrite get_next_key_sweeps in Hres. unfold first_sweep in Hres.
    case_bool_decide as Hne; [done|].
    destruct (max_cycles init.1 <=? current_cycle init.1); [done|].
    rewrite subscript_state_of, Hst in Hres.
    destruct (probe cd _ t' _ init.1) as [[k'|] tr1] eqn:Hp.
    + cbn in Hres. injection Hres as ->.
      destruct (probe_frame _ _ _ _ _ _ _ Hne Hp) as (_ & _ & _ & _ & _ & _ & Hacc & _).
      destruct Hacc as [Hatt|Hcool]; [by apply elem_of_empty in Hatt|congruence].
    + destruct (probe_frame _ _ _ _ _ _ _ Hne Hp) as (_ & _ & _ & Hkeys & Htried & _).
      unfold _should_reset_cycle in Hres. rewrite Hkeys, Htried in Hres.
      cbn [init __init__ fst keys_tried_this_cycle] in Hres.
      rewrite size_empty in Hres.
      destruct (_all_keys init.1) as [|k0 l] eqn:Hl; [done|].
      cbn [init __init__ fst _all_keys] in Hl. rewrite Hl in Hres. done.
  - intros Hge Hmax j Hj Hcand Hbefore.
    rewrite <- Hcand.
    apply next_candidate_returned; [done|done| |].
    + rewrite Hrej, Hcand. apply expired_not_in_cooldown. by apply Hexp.
    + intros j' Hj'. rewrite Hrej. by apply Hbefore.
  - intros Hge Hmax Hne Hothers.
    apply next_candidate_returned; [done| | |intros; lia].
    + destruct (_all_keys init.1); [done|cbn; lia].
    + rewrite Hrej. destruct (decide (candidate_at init.1 0 = k)) as [->|Hk].
      * apply expired_not_in_cooldown. by apply Hexp.
      * apply Hothers; [|done]. by apply key_at_elem.
Qed.

(** [A] failed at 0 with a cooldown of 60: a fresh tracker at 59 does not
    return [A]. *)
Lemma global_failure_cooldown_witness :
  (get_next_key 60 59 59
     (__init__ no_config env_ab py_int_decimal 1 "p" None
               (mark_key_failed "p" "A" 0 ∅)).2
     (__init__ no_config env_ab py_int_decimal 1 "p" None
               (mark_key_failed "p" "A" 0 ∅)).1).1.1
  <> Some "A".
Proof.
  destruct (global_failure_cooldown no_config env_ab py_int_decimal 60 1
              "p" "A" 0 ∅ None 59 59) as (_ & _ & _ & Hskip & _).
  apply Hskip; lia.
Defined.

(** * C3: round robin *)

(** C3: on a provider all of whose keys are available at the times of the
    calls, consecutive selections return the keys of the rotation that
    starts behind [last_used_index]: the [j]-th call (from 0) returns the
    key at index [(last_used_index + 1 + j) mod len(keys)]. This holds for
    any number of [get_api_key] calls, each leaving that index in
    [last_used_index], and for the calls of one tracker as long as they
    number at most [max_cycles * len(keys)], the [j]-th one returning in
    cycle [j / len(keys)]. With the keys [A], [B], [C], no failures and
    [last_used_index = -1], four calls of [get_api_key] return [A], [B],
    [C], [A]. *)
Theorem round_robin_progression
    (get_provider_env_var_patterns : string -> option (list string))
    (environ : list (string * string)) (py_int : string -> option Z)
    (cd max_default : Z) (p : string) (s : store) :
  let keys := _parse_provider_keys get_provider_env_var_patterns environ py_int p in
  let i0 := last_used_index (state_of s p) in
  let fk := failed_keys (state_of s p) in
  (forall times : list Z,
     keys <> [] ->
     (forall now k, now ∈ times -> k ∈ keys -> in_cooldown cd fk now k = false) ->
     (get_api_keys get_provider_env_var_patterns environ py_int cd p times s).1
     = map (fun j => (Some (rotation_key keys i0 j),
                      (i0 + 1 + Z.of_nat j) mod Z.of_nat (length keys)))
           (seq 0 (length times)))
  /\ (forall (maxc : option Z) (times : list (Z * Z)),
       keys <> [] ->
       Z.of_nat (length times) <= default max_default maxc * Z.of_nat (length keys) ->
       (forall t k, t ∈ times -> k ∈ keys -> in_cooldown cd fk t.1 k = false) ->
       let init := __init__ get_provider_env_var_patterns environ py_int
                            max_default p maxc s in
       (run cd (calls times) init.2 init.1).1.1
       = map (fun j => (Some (rotation_key keys i0 j), Z.of_nat (j / length keys)))
             (seq 0 (length times)))
  /\ (forall j, rotation_key keys i0 j
                = keys !!! Z.to_nat ((i0 + 1 + Z.of_nat j) mod Z.of_nat (length keys)))
  /\ _parse_provider_keys no_config env_abc py_int_decimal "p" = ["A"; "B"; "C"]
  /\ last_used_index (state_of ∅ "p") = -1
  /\ (get_api_keys no_config env_abc py_int_decimal 60 "p" [0; 1; 2; 3] ∅).1
     = [(Some "A", 0); (Some "B", 1); (Some "C", 2); (Some "A", 0)].
Proof.
  cbv zeta. split_and!.
  - intros times Hne Havail.
    apply (get_api_keys_progression _ _ _ cd p _ times 0 s); [done| |done].
    f_equal. lia.
  - intros maxc times Hne Hbudget Havail.
    apply (walked_run cd _ _ p (default max_default maxc)).
    + apply parse_NoDup.
    + done.
    + apply walked_init.
    + lia.
    + intros t k Ht Hk. rewrite init_store. by apply Havail.
  - done.
  - vm_compute. reflexivity.
  - reflexivity.
  - vm_compute. reflexivity.
Qed.

(** The three-key provider without failures: four [get_api_key] calls walk
    the rotation. *)
Lemma round_robin_progression_witness :
  (get_api_keys no_config env_abc py_int_decimal 60 "p" [0; 1; 2; 3] ∅).1
  = map (fun j => (Some (rotation_key
                           (_parse_provider_keys no_config env_abc py_int_decimal "p")
                           (last_used_index (state_of ∅ "p")) j),
                   (last_used_index (state_of ∅ "p") + 1 + Z.of_nat j)
                   mod Z.of_nat (length (_parse_provider_keys no_config env_abc
                                           py_int_decimal "p"))))
        (seq 0 4).
Proof.
  destruct (round_robin_progression no_config env_abc py_int_decimal 60 1 "p" ∅)
    as [Hapi _].
  apply (Hapi [0; 1; 2; 3]).
  - vm_compute. discriminate.
  - intros now k _ _. reflexivity.
Defined.

(** * C4: the order of the parsed keys *)

(** C4, the claim as stated fails: with the configured patterns
    [K_{INDEX}] before [K] and the environment [K=A, K_1=B] the parser
    returns [B] (from the indexed pattern) before [A] (from the literal
    one), where literal-first order gives [A], [B]. *)
Lemma parse_literal_first_counterexample :
  _parse_provider_keys indexed_first_config env_k py_int_decimal "p" = ["B"; "A"]
  /\ spec_parse_provider_keys indexed_first_config env_k py_int_decimal "p" = ["A"; "B"]
  /\ _parse_provider_keys indexed_first_config env_k py_int_decimal "p"
     <> spec_parse_provider_keys indexed_first_config env_k py_int_decimal "p".
Proof. vm_compute. split_and!; [done|done|]. intros H. discriminate H. Qed.

(** C4, amended: [_parse_provider_keys] returns a duplicate-free list
    without empty strings; it is the first-occurrence deduplication of the
    non-empty values contributed by the patterns in declaration order, a
    literal pattern contributing its variable and an [{INDEX}] pattern its
    matches in ascending order of the index (a stable sort of the matches
    in environment order). With the default patterns of a provider whose
    name holds no placeholder that is the literal key first and then the
    indexed keys; and the environment
    [OPENAI_API_KEY=A, OPENAI_API_KEY_1=A, OPENAI_API_KEY_2=B] parses to
    [A], [B]. *)
Theorem parse_provider_keys_order
    (get_provider_env_var_patterns : string -> option (list string))
    (environ : list (string * string)) (py_int : string -> option Z)
    (provider : string) :
  let keys := _parse_provider_keys get_provider_env_var_patterns environ py_int provider in
  NoDup keys
  /\ ("" ∉ keys)
  /\ keys = keep_first (nonempty (concat (map (candidates environ py_int)
              (patterns_for get_provider_env_var_patterns provider))))
  /\ (forall pattern,
        let matches := collect_matches py_int (tokenize pattern) environ in
        Sorted index_le (_collect_indexed environ py_int pattern)
        /\ Permutation matches (_collect_indexed environ py_int pattern)
        /\ forall i, filter (fun e => e.1 = i) (_collect_indexed environ py_int pattern)
                     = filter (fun e => e.1 = i) matches)
  /\ (forall pattern,
        candidates environ py_int pattern
        = if contains "{INDEX}" pattern
          then map snd (_collect_indexed environ py_int pattern)
          else option_list (getenv environ pattern))
  /\ ((get_provider_env_var_patterns provider = None
       \/ get_provider_env_var_patterns provider = Some []) ->
      contains "{INDEX}" (env_prefix provider) = false ->
      keys = keep_first (nonempty
               (option_list (getenv environ (env_prefix provider ++ "_API_KEY"))
                ++ map snd (_collect_indexed environ py_int
                              (env_prefix provider ++ "_API_KEY_{INDEX}")))%list))
  /\ _parse_provider_keys no_config env1 py_int_decimal "openai" = ["A"; "B"].
Proof.
  cbv zeta. split_and!.
  - apply parse_NoDup.
  - apply parse_no_empty.
  - apply parse_keep_first.
  - intros pattern. split_and!.
    + apply sort_by_index_sorted.
    + apply sort_by_index_perm.
    + intros i. apply sort_by_index_stable.
  - done.
  - intros Hcfg Hp. rewrite parse_keep_first.
    rewrite <- default_patterns_candidates by done.
    unfold patterns_for. by destruct Hcfg as [-> | ->].
  - vm_compute. reflexivity.
Qed.

(** The default patterns at the provider [openai]: the literal key comes
    first, then the indexed keys. *)
Lemma parse_provider_keys_order_witness :
  _parse_provider_keys no_config env1 py_int_decimal "openai"
  = keep_first (nonempty
      (option_list (getenv env1 (env_prefix "openai" ++ "_API_KEY"))
       ++ map snd (_collect_indexed env1 py_int_decimal
                     (env_prefix "openai" ++ "_API_KEY_{INDEX}")))%list).
Proof.
  destruct (parse_provider_keys_order no_config env1 py_int_decimal "openai")
    as (_ & _ & _ & _ & _ & Hdefault & _).
  apply Hdefault.
  - left. reflexivity.
  - vm_compute. reflexivity.
Defined.

(** * C5: all keys in cooldown *)

(** C5, the claim as stated fails on the empty key list: the tracker of a
    provider without keys answers true, with the cooldown disabled
    ([KEY_COOLDOWN_SECONDS = 0]) as well as enabled, where the claim asks
    for false. *)
Lemma all_keys_in_cooldown_empty_counterexample :
  _all_keys tracker_none = []
  /\ (all_keys_in_cooldown 0 0 ∅ tracker_none).1 = true
  /\ (all_keys_in_cooldown 60 0 ∅ tracker_none).1 = true.
Proof. vm_compute. done. Qed.

(** C5, amended: [all_keys_in_cooldown()] returns true exactly when the key
    list is empty, or [KEY_COOLDOWN_SECONDS > 0] and every key has a
    failure entry in the provider's [failed_keys] with
    [now - failed_at < KEY_COOLDOWN_SECONDS]; so with
    [KEY_COOLDOWN_SECONDS <= 0] it returns false exactly for a non-empty
    key list, and for an empty key list it returns true. (This tracker
    keeps no per-model entries and no provider-wide cooldown.) *)
Theorem all_keys_in_cooldown_spec (cd now : Z) (s : store) (tr : KeyCycleTracker) :
  let fk := failed_keys (state_of s (provider tr)) in
  ((all_keys_in_cooldown cd now s tr).1 = true <->
     _all_keys tr = []
     \/ (0 < cd
         /\ forall k, k ∈ _all_keys tr ->
              exists fail_time, fk !! k = Some fail_time /\ now - fail_time < cd))
  /\ (cd <= 0 -> _all_keys tr <> [] -> (all_keys_in_cooldown cd now s tr).1 = false)
  /\ (_all_keys tr = [] -> (all_keys_in_cooldown cd now s tr).1 = true)
  /\ (_all_keys tr <> [] ->
      ((all_keys_in_cooldown cd now s tr).1 = true <->
       forall k, k ∈ _all_keys tr -> in_cooldown cd fk now k = true)).
Proof.
  cbv zeta. unfold all_keys_in_cooldown.
  case_bool_decide as Hne.
  { split_and!; [tauto|done|done|done]. }
  destruct (Z.leb_spec cd 0) as [Hle|Hlt]; cbn [fst].
  - split_and!; [|done|done|].
    + split; [done|]. intros [?|[? _]]; [done|lia].
    + intros _. split; [done|]. intros Hall.
      destruct (_all_keys tr) as [|k0 l]; [done|].
      specialize (Hall k0 ltac:(by left)). apply in_cooldown_true in Hall. lia.
  - rewrite subscript_state_of, all_in_cooldown_loop_spec.
    split_and!; [|lia|done|].
    + split; [by right|]. by intros [?|[_ ?]].
    + intros _. split.
      * intros Hall k Hk. apply in_cooldown_true. split; [done|]. by apply Hall.
      * intros Hall k Hk. apply Hall in Hk. by apply in_cooldown_true in Hk as [_ ?].
Qed.

(** The empty key list under a disabled cooldown, and a one-key provider
    with the cooldown disabled. *)
Lemma all_keys_in_cooldown_spec_witness :
  (all_keys_in_cooldown 0 0 ∅ tracker_none).1 = true
  /\ (all_keys_in_cooldown 0 0 store_ab tracker_ab).1 = false.
Proof.
  split.
  - destruct (all_keys_in_cooldown_spec 0 0 ∅ tracker_none) as (_ & _ & Hempty & _).
    apply Hempty. vm_compute. reflexivity.
  - destruct (all_keys_in_cooldown_spec 0 0 store_ab tracker_ab) as (_ & Hoff & _).
    apply Hoff; [lia|]. vm_compute. discriminate.
Defined.

(** * C6: expired entries *)

(** C6, the claim as stated fails: [get_next_key] consults the expired
    entry of [A] (failed at 0, read at 100 with a cooldown of 60), returns
    [A] and leaves the entry in [failed_keys]; and [get_api_key] with the
    cooldown disabled returns [A] and leaves its elapsed entry too. *)
Lemma expired_entry_kept_counterexample :
  expired 60 (failed_keys (state_of store_a_failed "p")) 100 "A"
  /\ (get_next_key 60 100 100 store_a_failed tracker_a_failed).1.1 = Some "A"
  /\ failed_keys (state_of (get_next_key 60 100 100 store_a_failed tracker_a_failed).1.2 "p")
       !! "A" = Some 0
  /\ expired 0 (failed_keys (state_of store_a_failed "p")) 100 "A"
  /\ (get_api_key no_config env_ab py_int_decimal 0 "p" 100 store_a_failed).1 = Some "A"
  /\ failed_keys (state_of
        (get_api_key no_config env_ab py_int_decimal 0 "p" 100 store_a_failed).2 "p")
       !! "A" = Some 0.
Proof.
  split_and!; try (vm_compute; reflexivity).
  - exists 0. split; [vm_compute; reflexivity|lia].
  - exists 0. split; [vm_compute; reflexivity|lia].
Qed.

(** C6, amended: neither read observes an expired entry: [get_api_key] and
    [get_next_key] return what they return on the store without that
    entry. [get_api_key] purges on read when [KEY_COOLDOWN_SECONDS > 0]:
    a call that returns key [k] leaves [failed_keys] without an entry for
    [k] and otherwise as it was, and [last_used_index] becomes the index
    of [k] in the key list; a call that returns none leaves the provider's
    state as it was; the states of other providers are not touched.
    [get_next_key] never changes [failed_keys]; it sets [last_used_index]
    only when it returns a key, then to the tracker's index, which is the
    index of that key in the snapshot; a call that returns none leaves the
    provider's state as it was, and the states of other providers are not
    touched. *)
Theorem expired_entries_not_observed
    (get_provider_env_var_patterns : string -> option (list string))
    (environ : list (string * string)) (py_int : string -> option Z) (cd : Z) :
  (forall (p : string) (now : Z) (s : store),
     let r := get_api_key get_provider_env_var_patterns environ py_int cd p now s in
     let fk := failed_keys (state_of s p) in
     let keys := _parse_provider_keys get_provider_env_var_patterns environ py_int p in
     (forall q, q <> p -> state_of r.2 q = state_of s q)
     /\ (forall k, r.1 = Some k ->
           in_cooldown cd fk now k = false
           /\ failed_keys (state_of r.2 p) = (if 0 <? cd then delete k fk else fk)
           /\ 0 <= last_used_index (state_of r.2 p) < Z.of_nat (length keys)
           /\ keys !! Z.to_nat (last_used_index (state_of r.2 p)) = Some k)
     /\ (r.1 = None -> state_of r.2 p = state_of s p)
     /\ (forall k0, expired cd fk now k0 ->
           let r' := get_api_key get_provider_env_var_patterns environ py_int cd p now
                       (without_entry p k0 s) in
           r'.1 = r.1
           /\ last_used_index (state_of r'.2 p) = last_used_index (state_of r.2 p)
           /\ failed_keys (state_of r'.2 p) = delete k0 (failed_keys (state_of r.2 p))))
  /\ (forall (now later : Z) (s : store) (tr : KeyCycleTracker),
       let g := get_next_key cd now later s tr in
       let fk := failed_keys (state_of s (provider tr)) in
       (forall q, failed_keys (state_of g.1.2 q) = failed_keys (state_of s q))
       /\ (forall k0, expired cd fk now k0 -> expired cd fk later k0 ->
             let g' := get_next_key cd now later (without_entry (provider tr) k0 s) tr in
             g'.1.1 = g.1.1 /\ g'.2 = g.2)
       /\ (forall k, g.1.1 = Some k ->
             state_of g.1.2 (provider tr)
             = set_last_used_index (_key_index g.2) (state_of s (provider tr))
             /\ 0 <= _key_index g.2 < Z.of_nat (length (_all_keys tr))
             /\ _all_keys tr !! Z.to_nat (_key_index g.2) = Some k)
       /\ (g.1.1 = None -> state_of g.1.2 (provider tr) = state_of s (provider tr))
       /\ (forall q, q <> provider tr -> state_of g.1.2 q = state_of s q)).
Proof.
  split.
  - intros p now s. cbv zeta.
    destruct (get_api_key_result get_provider_env_var_patterns environ py_int cd p now s)
      as (Hr1 & Hr2 & Hother).
    cbv zeta in Hr1, Hr2. rewrite Hr1, Hr2.
    set (keys := _parse_provider_keys _ _ _ p) in *.
    pose proof (get_api_key_loop_spec cd (seq 0 (length keys)) keys now (state_of s p)) as Hs.
    split_and!.
    + done.
    + intros k Hk. destruct (get_api_key_loop cd _ keys now _) as [[k'|] st']; [|done].
      cbn in Hk. injection Hk as ->.
      destruct Hs as (Hin & Hfk & offset & Hoff & Hidx & Hkey).
      apply elem_of_seq in Hoff.
      assert (0 < Z.of_nat (length keys)) as Hn by lia.
      pose proof (Z.mod_pos_bound (last_used_index (state_of s p) + 1 + Z.of_nat offset)
                    _ Hn) as Hb.
      cbn [snd]. rewrite Hidx. split_and!; [done|done|lia|lia|].
      rewrite Hkey. unfold key_at. apply list_lookup_lookup_total_lt. lia.
    + intros Hnone. destruct (get_api_key_loop cd _ keys now _) as [[k'|] st']; [done|].
      by destruct Hs as [-> _].
    + intros k0 Hexp.
      destruct (get_api_key_result get_provider_env_var_patterns environ py_int cd p now
                  (without_entry p k0 s)) as (Hw1 & Hw2 & _).
      cbv zeta in Hw1, Hw2. fold keys in Hw1, Hw2. rewrite Hw1, Hw2.
      rewrite without_entry_state, decide_True by done.
      apply get_api_key_loop_without. by apply expired_not_in_cooldown.
  - intros now later s tr. cbv zeta. split_and!.
    + intros q. apply get_next_key_failed_keys.
    + intros k0 Hnow Hlater. apply get_next_key_ext.
      * intros k. rewrite without_entry_state, decide_True by done.
        cbn [failed_keys set_failed_keys]. apply in_cooldown_delete.
        by apply expired_not_in_cooldown.
      * intros k. rewrite without_entry_state, decide_True by done.
        cbn [failed_keys set_failed_keys]. apply in_cooldown_delete.
        by apply expired_not_in_cooldown.
    + intros k.
      destruct (get_next_key cd now later s tr) as [[r s'] tr'] eqn:Hcall.
      destruct (get_next_key_frame _ _ _ _ _ _ _ _ Hcall) as (_ & _ & Hres & _).
      cbn [fst snd]. intros ->.
      destruct Hres as (_ & _ & _ & Hidx & Hkey & Hst).
      split_and!; [done|lia|lia|].
      rewrite Hkey. apply list_lookup_lookup_total_lt. lia.
    + destruct (get_next_key cd now later s tr) as [[r s'] tr'] eqn:Hcall.
      destruct (get_next_key_frame _ _ _ _ _ _ _ _ Hcall) as (_ & _ & Hres & _).
      cbn [fst snd]. by intros ->.
    + destruct (get_next_key cd now later s tr) as [[r s'] tr'] eqn:Hcall.
      by destruct (get_next_key_frame _ _ _ _ _ _ _ _ Hcall) as (_ & _ & _ & Hother).
Qed.

(** The expired entry of [A] in the scenario store: [get_api_key] with a
    cooldown of 60 returns what it returns without the entry. *)
Lemma expired_entries_not_observed_witness :
  (get_api_key no_config env_ab py_int_decimal 60 "p" 100
     (without_entry "p" "A" store_a_failed)).1
  = (get_api_key no_config env_ab py_int_decimal 60 "p" 100 store_a_failed).1.
Proof.
  destruct (expired_entries_not_observed no_config env_ab py_int_decimal 60) as [Hapi _].
  destruct (Hapi "p" 100 store_a_failed) as (_ & _ & _ & Hwithout).
  apply (Hwithout "A"). exists 0. split; [vm_compute; reflexivity|lia].
Defined.

(** * C7: a key is returned once per cycle *)

(** C7: in every run of a tracker, whatever state it starts in and
    however [get_next_key] and [mark_failed] interleave, two calls that
    return the same key do so in different cycles: the later one returns
    it after [current_cycle] has grown, that is after a cycle reset. *)
Theorem no_key_twice_in_cycle (cd : Z) (ops : list op) (s : store)
    (tr : KeyCycleTracker) (i j : nat) (k : string) (c c' : Z) :
  (i < j)%nat ->
  (run cd ops s tr).1.1 !! i = Some (Some k, c) ->
  (run cd ops s tr).1.1 !! j = Some (Some k, c') ->
  c < c'.
Proof.
  revert s tr i j. induction ops as [|[now later|key now] ops IH];
    intros s tr i j Hij; cbn [run].
  - done.
  - destruct (get_next_key cd now later s tr) as [[r s1] tr1] eqn:Hcall.
    destruct (run cd ops s1 tr1) as [[rs1 s2] tr2] eqn:Hrun. cbn [fst].
    destruct j as [|j]; [lia|]. destruct i as [|i]; cbn.
    + intros [= -> <-] Hj.
      pose proof (run_cycles cd ops s1 tr1 j k c') as Hc. rewrite Hrun in Hc.
      destruct (Hc Hj) as [Hle Hnot].
      destruct (get_next_key_frame _ _ _ _ _ _ _ _ Hcall) as (_ & Hcase & _).
      assert (k ∈ keys_tried_this_cycle tr1) as Hin.
      { destruct Hcase as [(_ & _ & _ & ->)|(_ & _ & _ & ->)]; set_solver. }
      destruct (decide (c' = current_cycle tr1)) as [->|?]; [|lia].
      by destruct Hnot.
    + intros Hi Hj. specialize (IH s1 tr1 i j). rewrite Hrun in IH.
      apply IH; [lia|done|done].
  - apply IH. done.
Qed.

(** In the cycling scenario [A] is returned by the first call in cycle 0
    and by the third call in cycle 1. *)
Lemma no_key_twice_in_cycle_witness :
  (run 60 ops_s3 store_ab tracker_ab).1.1 !! 0%nat = Some (Some "A", 0)
  /\ (run 60 ops_s3 store_ab tracker_ab).1.1 !! 2%nat = Some (Some "A", 1)
  /\ 0 < 1.
Proof.
  split_and!; [vm_compute; reflexivity | vm_compute; reflexivity |].
  apply (no_key_twice_in_cycle 60 ops_s3 store_ab tracker_ab 0 2 "A" 0 1);
    [lia | vm_compute; reflexivity | vm_compute; reflexivity].
Defined.

(** * C8: exhaustion *)

(** C8: for the tracker a request builds with [KeyCycleTracker(provider,
    max_cycles)] and any run of [get_next_key] and [mark_failed] calls on
    it, [exhausted()] holds exactly when the key list is empty, or
    [current_cycle >= max_cycles], or the cycle is fully swept and
    [current_cycle + 1 >= max_cycles]; it holds as soon as
    [max_cycles * len(keys)] calls have returned a key; and once it holds
    [get_next_key()] returns none. *)
Theorem exhausted_within_budget
    (get_provider_env_var_patterns : string -> option (list string))
    (environ : list (string * string)) (py_int : string -> option Z)
    (cd max_default : Z) (p : string) (maxc : option Z) (s0 : store)
    (ops : list op) :
  let init := __init__ get_provider_env_var_patterns environ py_int max_default p maxc s0 in
  let result := run cd ops init.2 init.1 in
  let rs := result.1.1 in
  let s := result.1.2 in
  let tr := result.2 in
  (exhausted tr = true <->
     _all_keys tr = []
     \/ max_cycles tr <= current_cycle tr
     \/ ((length (_all_keys tr) <= size (keys_tried_this_cycle tr))%nat
         /\ max_cycles tr <= current_cycle tr + 1))
  /\ (max_cycles tr * Z.of_nat (length (_all_keys tr)) <= Z.of_nat (successes rs) ->
      exhausted tr = true)
  /\ (exhausted tr = true ->
      forall now later, (get_next_key cd now later s tr).1.1 = None).
Proof.
  cbv zeta.
  set (init := __init__ _ _ _ _ _ _ _).
  destruct (run cd ops init.2 init.1) as [[rs s] tr] eqn:Hrun. cbn [fst snd].
  destruct (init_ok get_provider_env_var_patterns environ py_int max_default p maxc s0)
    as (Hok0 & Hc0 & Ht0). fold init in Hok0, Hc0, Ht0.
  destruct (run_ok cd ops _ _ _ _ _ Hok0 Hrun) as (Hok & Hkeys & Hmx & Hm).
  rewrite Hc0, Ht0, size_empty in Hm.
  pose proof (tracker_ok_size tr Hok) as Hsz.
  split_and!.
  - apply exhausted_iff.
  - intros Hbudget. apply exhausted_iff.
    destruct (_all_keys tr) as [|k0 l] eqn:Hl; [by left|]. right.
    destruct (Z.le_gt_cases (max_cycles tr) (current_cycle tr)) as [?|Hlt]; [by left|].
    right. rewrite <- Hl in *.
    assert (0 < Z.of_nat (length (_all_keys tr))) by (rewrite Hl; cbn; lia).
    rewrite Hkeys in *. split; nia.
  - intros Hex now later. by apply exhausted_none.
Qed.

(** The cycling scenario: after four returned keys, with
    [max_cycles * len(keys) = 4], the tracker is exhausted. *)
Lemma exhausted_within_budget_witness :
  exhausted (run 60 (take 6 ops_s3) store_ab tracker_ab).2 = true.
Proof.
  destruct (exhausted_within_budget no_config env_ab py_int_decimal 60 1 "p" (Some 2) ∅
              (take 6 ops_s3)) as (_ & Hbudget & _).
  apply Hbudget. vm_compute. discriminate.
Defined.

(** * C9: the resets *)

(** C9: after [reset_failed_keys(p)] the provider's state is its state with
    an empty [failed_keys] and the same [last_used_index], so
    [get_api_key], [get_next_key], [all_keys_in_cooldown] and
    [get_available_keys] answer as on any store where no failure is
    recorded for [p]; in particular failures recorded on a provider without
    failures are forgotten by the reset. [reset_failed_keys()] does so for
    every provider. [reset_rotation_state()] leaves the empty store, the
    store of process start, where every provider has the default state with
    [last_used_index = -1] and no failure; [reset_rotation_state(p)] gives
    [p] that state. Both resets are total functions of the store: no step
    of them can fail. *)
Theorem resets_restore
    (get_provider_env_var_patterns : string -> option (list string))
    (environ : list (string * string)) (py_int : string -> option Z) (cd : Z)
    (p : string) (s : store) :
  let s' := reset_failed_keys (Some p) s in
  state_of s' p = set_failed_keys ∅ (state_of s p)
  /\ (forall q, state_of (reset_failed_keys None s) q = set_failed_keys ∅ (state_of s q))
  /\ (forall s0 : store,
       state_of s0 p = set_failed_keys ∅ (state_of s p) ->
       (forall now,
          (get_api_key get_provider_env_var_patterns environ py_int cd p now s').1
          = (get_api_key get_provider_env_var_patterns environ py_int cd p now s0).1
          /\ state_of (get_api_key get_provider_env_var_patterns environ py_int cd p now s').2 p
             = state_of (get_api_key get_provider_env_var_patterns environ py_int cd p now s0).2 p)
       /\ (forall now later tr, provider tr = p ->
            (get_next_key cd now later s' tr).1.1 = (get_next_key cd now later s0 tr).1.1
            /\ (get_next_key cd now later s' tr).2 = (get_next_key cd now later s0 tr).2
            /\ state_of (get_next_key cd now later s' tr).1.2 p
               = state_of (get_next_key cd now later s0 tr).1.2 p)
       /\ (forall now tr, provider tr = p ->
            (all_keys_in_cooldown cd now s' tr).1 = (all_keys_in_cooldown cd now s0 tr).1)
       /\ (get_available_keys get_provider_env_var_patterns environ py_int p s').1
          = (get_available_keys get_provider_env_var_patterns environ py_int p s0).1)
  /\ (failed_keys (state_of s p) = ∅ ->
      forall fails,
        state_of (reset_failed_keys (Some p) (record_failures p fails s)) p = state_of s p)
  /\ reset_rotation_state None s = ∅
  /\ state_of (reset_rotation_state (Some p) s) p = fresh_state
  /\ (forall q, state_of (reset_rotation_state None s) q = fresh_state)
  /\ last_used_index fresh_state = -1
  /\ failed_keys fresh_state = ∅.
Proof.
  cbv zeta.
  assert (Hreset : forall s1 : store,
            state_of (reset_failed_keys (Some p) s1) p = set_failed_keys ∅ (state_of s1 p)).
  { intros s1. rewrite reset_failed_keys_state.
    by rewrite decide_False by (intros [_ ?]; done). }
  split_and!.
  - apply Hreset.
  - intros q. rewrite reset_failed_keys_state.
    by rewrite decide_False by (intros [? _]; done).
  - intros s0 Hs0. rewrite <- Hreset in Hs0. split_and!.
    + intros now. by apply get_api_key_agree.
    + intros now later tr <-. by apply get_next_key_agree.
    + intros now tr <-. by apply all_keys_in_cooldown_agree.
    + done.
  - intros Hclean fails. rewrite Hreset.
    destruct (state_of s p) as [i fk] eqn:Hst. cbn in Hclean. subst fk.
    unfold set_failed_keys. f_equal.
    by rewrite record_failures_index, Hst.
  - done.
  - rewrite reset_rotation_state_state.
    by rewrite decide_False by (intros [_ ?]; done).
  - intros q. rewrite reset_rotation_state_state.
    by rewrite decide_False by (intros [? _]; done).
  - done.
  - done.
Qed.

(** On the scenario store, where [A] failed: after the reset the state of
    the provider is the default state the store started from. *)
Lemma resets_restore_witness :
  state_of (reset_failed_keys (Some "p") (record_failures "p" [("A", 0)] ∅)) "p"
  = state_of ∅ "p".
Proof.
  destruct (resets_restore no_config env_ab py_int_decimal 60 "p" ∅)
    as (_ & _ & _ & Hforget & _).
  apply Hforget. reflexivity.
Defined.

(** * C10: the key listings ignore the failure state *)

(** C10: [get_available_keys] and [get_all_keys] return the parsed key
    list whatever the rotation store holds and leave the store as it is;
    recording a failure changes the result of neither. *)
Theorem key_listings_ignore_failures
    (get_provider_env_var_patterns : string -> option (list string))
    (environ : list (string * string)) (py_int : string -> option Z)
    (provider : string) (s : store) :
  let parsed := _parse_provider_keys get_provider_env_var_patterns environ py_int provider in
  get_available_keys get_provider_env_var_patterns environ py_int provider s = (parsed, s)
  /\ get_all_keys get_provider_env_var_patterns environ py_int provider s = (parsed, s)
  /\ forall p key now,
       (get_available_keys get_provider_env_var_patterns environ py_int provider
          (mark_key_failed p key now s)).1 = parsed
       /\ (get_all_keys get_provider_env_var_patterns environ py_int provider
            (mark_key_failed p key now s)).1 = parsed.
Proof. cbv zeta. split_and!; [done|done|]. intros. by split. Qed.

(** * Further properties of the key manager *)

(** ** Selection by [get_api_key] *)

Section SelectionFacts.

Variable cd : Z.

(** Every key of the list is met within one turn of the rotation. *)
Lemma rotation_covers keys i0 k :
  k ∈ keys -> exists o, (o < length keys)%nat /\ k = rotation_key keys i0 o.
Proof.
  intros Hk. apply list_elem_of_lookup in Hk as [j Hj].
  pose proof (lookup_lt_Some _ _ _ Hj) as Hlt.
  set (n := Z.of_nat (length keys)).
  assert (0 < n) as Hn by (unfold n; lia).
  pose proof (Z.mod_pos_bound (Z.of_nat j - i0 - 1) n Hn) as Hb.
  exists (Z.to_nat ((Z.of_nat j - i0 - 1) mod n)). split; [lia|].
  unfold rotation_key, key_at. fold n.
  rewrite Z2Nat.id by lia.
  rewrite Z.add_mod_idemp_r by lia.
  replace (i0 + 1 + (Z.of_nat j - i0 - 1)) with (Z.of_nat j) by lia.
  rewrite Z.mod_small by lia. rewrite Nat2Z.id.
  symmetry. by apply list_lookup_total_correct.
Qed.

(** Offsets whose keys are in cooldown are passed over. *)
Lemma get_api_key_loop_skip pre rest keys now st :
  (forall o, o ∈ pre ->
     in_cooldown cd (failed_keys st) now
       (key_at keys (last_used_index st + 1 + Z.of_nat o)) = true) ->
  get_api_key_loop cd (pre ++ rest) keys now st
  = get_api_key_loop cd rest keys now st.
Proof.
  induction pre as [|o pre IH]; intros Hall; [done|].
  cbn [app get_api_key_loop].
  fold (key_at keys (last_used_index st + 1 + Z.of_nat o)).
  pose proof (Hall o ltac:(left)) as Ho.
  apply in_cooldown_true in Ho as (Hcd & ft & Hft & Hlt).
  rewrite Hft.
  replace (0 <? cd) with true by (symmetry; apply Z.ltb_lt; lia).
  replace (now - ft <? cd) with true by (symmetry; apply Z.ltb_lt; lia).
  apply IH. intros o' Ho'. apply Hall. by right.
Qed.

(** A returned key sits at the first offset whose key is not in cooldown. *)
Lemma get_api_key_loop_prefix offsets keys now st k st' :
  get_api_key_loop cd offsets keys now st = (Some k, st') ->
  exists pre o post,
    offsets = (pre ++ o :: post)%list
    /\ (forall o', o' ∈ pre ->
          in_cooldown cd (failed_keys st) now
            (key_at keys (last_used_index st + 1 + Z.of_nat o')) = true)
    /\ in_cooldown cd (failed_keys st) now k = false
    /\ k = key_at keys (last_used_index st + 1 + Z.of_nat o)
    /\ st' = mkState ((last_used_index st + 1 + Z.of_nat o) mod Z.of_nat (length keys))
                     (if 0 <? cd then delete k (failed_keys st) else failed_keys st).
Proof.
  induction offsets as [|o rest IH]; [done|].
  destruct (in_cooldown cd (failed_keys st) now
              (key_at keys (last_used_index st + 1 + Z.of_nat o))) eqn:Hin.
  - change (o :: rest) with ([o] ++ rest)%list.
    rewrite get_api_key_loop_skip
      by (intros o' Ho'; apply list_elem_of_singleton in Ho' as ->; done).
    intros Hloop. destruct (IH Hloop) as (pre & o1 & post & -> & Hpre & Hk & -> & ->).
    exists (o :: pre), o1, post. split_and!; [done| |done|done|done].
    intros o' Ho'. apply elem_of_cons in Ho' as [->|Ho']; [done|by apply Hpre].
  - rewrite (get_api_key_loop_first cd o rest keys now st Hin).
    intros [= <- <-]. exists [], o, rest. split_and!; [done| |done|done|done].
    intros o' Ho'. by apply elem_of_nil in Ho'.
Qed.

(** The same for the offsets [0 .. n-1] the function walks. *)
Lemma get_api_key_loop_seq n keys now st k st' :
  get_api_key_loop cd (seq 0 n) keys now st = (Some k, st') ->
  exists o, (o < n)%nat
    /\ (forall o', (o' < o)%nat ->
          in_cooldown cd (failed_keys st) now
            (key_at keys (last_used_index st + 1 + Z.of_nat o')) = true)
    /\ in_cooldown cd (failed_keys st) now k = false
    /\ k = key_at keys (last_used_index st + 1 + Z.of_nat o)
    /\ st' = mkState ((last_used_index st + 1 + Z.of_nat o) mod Z.of_nat (length keys))
                     (if 0 <? cd then delete k (failed_keys st) else failed_keys st).
Proof.
  intros Hloop.
  destruct (get_api_key_loop_prefix _ _ _ _ _ _ Hloop)
    as (pre & o & post & Hseq & Hpre & Hk & Hko & Hst).
  assert (seq 0 n !! length pre = Some o) as Ho.
  { rewrite Hseq. by rewrite list_lookup_middle. }
  apply lookup_seq in Ho as [Ho Hlt]. cbn in Ho. subst o.
  exists (length pre). split_and!; [done| |done|done|done].
  intros o' Ho'. apply Hpre.
  assert (seq 0 n !! o' = Some o') as Hs by (apply lookup_seq; split; [done|lia]).
  rewrite Hseq, lookup_app_l in Hs by done.
  by eapply list_elem_of_lookup_2.
Qed.

(** The loop comes back empty-handed exactly when every key it can reach is
    in cooldown. *)
Lemma get_api_key_loop_none keys now st :
  keys <> [] ->
  (get_api_key_loop cd (seq 0 (length keys)) keys now st).1 = None
  <-> forall k, k ∈ keys -> in_cooldown cd (failed_keys st) now k = true.
Proof.
  intros Hne.
  pose proof (get_api_key_loop_spec cd (seq 0 (length keys)) keys now st) as Hspec.
  destruct (get_api_key_loop cd (seq 0 (length keys)) keys now st) as [[k|] st'];
    cbn [fst].
  - destruct Hspec as (Hk & _ & o & _ & _ & ->). split; [done|].
    intros Hall. rewrite Hall in Hk; [done|]. by apply key_at_elem.
  - destruct Hspec as [_ Hall]. split; [|done]. intros _ k Hk.
    destruct (rotation_covers keys (last_used_index st) k Hk) as (o & Ho & ->).
    apply Hall. apply elem_of_seq. lia.
Qed.

(** A tracker that has tried and attempted nothing rejects exactly the keys
    in cooldown. *)
Lemma rejects_fresh now fk tr k :
  keys_tried_this_cycle tr = ∅ -> _keys_attempted tr = ∅ ->
  rejects cd now fk tr k = in_cooldown cd fk now k.
Proof.
  intros Ht Ha. unfold rejects. rewrite Ht, Ha.
  rewrite bool_decide_false by set_solver.
  rewrite bool_decide_true by set_solver. done.
Qed.

End SelectionFacts.

Section RequestFacts.

Variable get_provider_env_var_patterns : string -> option (list string).
Variable environ : list (string * string).
Variable py_int : string -> option Z.
Variable cd : Z.

(** What [get_api_key] returns, read off its loop over one turn of the
    rotation. *)
Lemma get_api_key_some p now (s : store) k :
  let keys := _parse_provider_keys get_provider_env_var_patterns environ py_int p in
  let i0 := last_used_index (state_of s p) in
  let fk := failed_keys (state_of s p) in
  let r := get_api_key get_provider_env_var_patterns environ py_int cd p now s in
  r.1 = Some k ->
  keys <> []
  /\ exists o, (o < length keys)%nat
       /\ k = rotation_key keys i0 o
       /\ in_cooldown cd fk now k = false
       /\ (forall o', (o' < o)%nat ->
             in_cooldown cd fk now (rotation_key keys i0 o') = true)
       /\ state_of r.2 p
          = mkState ((i0 + 1 + Z.of_nat o) mod Z.of_nat (length keys))
                    (if 0 <? cd then delete k fk else fk).
Proof.
  cbv zeta.
  destruct (get_api_key_result get_provider_env_var_patterns environ py_int cd p now s)
    as (Hr & Hst & _).
  rewrite Hr, Hst. clear Hr Hst.
  set (keys := _parse_provider_keys _ _ _ p).
  destruct (decide (keys = [])) as [->|Hne]; [done|].
  destruct (get_api_key_loop cd (seq 0 (length keys)) keys now (state_of s p))
    as [r st'] eqn:Hloop.
  cbn [fst snd]. intros ->. split; [done|].
  destruct (get_api_key_loop_seq cd _ _ _ _ _ _ Hloop) as (o & Ho & Hpre & Hk & -> & ->).
  exists o. split_and!; done.
Qed.

Lemma get_api_key_none p now (s : store) :
  let keys := _parse_provider_keys get_provider_env_var_patterns environ py_int p in
  (get_api_key get_provider_env_var_patterns environ py_int cd p now s).1 = None
  <-> keys = []
      \/ forall k, k ∈ keys -> in_cooldown cd (failed_keys (state_of s p)) now k = true.
Proof.
  cbv zeta.
  destruct (get_api_key_result get_provider_env_var_patterns environ py_int cd p now s)
    as (Hr & _ & _).
  rewrite Hr. clear Hr.
  set (keys := _parse_provider_keys _ _ _ p).
  destruct (decide (keys = [])) as [Hnil|Hne].
  - rewrite Hnil. split; [by left|done].
  - rewrite (get_api_key_loop_none cd keys now (state_of s p) Hne).
    split; [by right|]. by intros [?|?].
Qed.

(** The first key of a request's tracker is the key [get_api_key] selects
    on the same store at the same time. *)
Lemma init_first_key max_default p maxc now later (s : store) :
  0 < default max_default maxc ->
  let init := __init__ get_provider_env_var_patterns environ py_int max_default p maxc s in
  let r := get_next_key cd now later init.2 init.1 in
  let a := get_api_key get_provider_env_var_patterns environ py_int cd p now s in
  r.1.1 = a.1
  /\ last_used_index (state_of r.1.2 p) = last_used_index (state_of a.2 p).
Proof.
  intros Hmax. cbv zeta.
  destruct (get_api_key_result get_provider_env_var_patterns environ py_int cd p now s)
    as (Hr & Hst & _).
  rewrite Hr, Hst. clear Hr Hst.
  rewrite get_next_key_sweeps. unfold first_sweep, __init__. cbn [fst snd].
  cbn [_all_keys max_cycles current_cycle provider].
  set (keys := _parse_provider_keys _ _ _ p).
  set (tr := mkTracker _ _ _ _ _ _ _).
  case_bool_decide as Hnil.
  { rewrite Hnil. cbn. by rewrite subscript_state_of. }
  replace (default max_default maxc <=? 0) with false by (symmetry; apply Z.leb_gt; lia).
  rewrite !subscript_state_of.
  set (fk := failed_keys (state_of s p)).
  pose proof (probe_spec cd (length keys) now fk tr Hnil) as Hprobe.
  destruct (probe cd (length keys) now fk tr) as [[k|] tr1].
  - destruct Hprobe as (j & Hj & Hrej & Hacc & Hk & Htr1).
    rewrite rejects_fresh in Hacc by done.
    assert (seq 0 (length keys) = seq 0 j ++ j :: seq (S j) (length keys - S j))%list
      as Hseq.
    { change (j :: seq (S j) (length keys - S j)) with (seq j (S (length keys - S j))).
      rewrite <- seq_app. f_equal. lia. }
    rewrite Hseq, get_api_key_loop_skip.
    2:{ intros o Ho. apply elem_of_seq in Ho.
        specialize (Hrej o ltac:(lia)). by rewrite rejects_fresh in Hrej. }
    rewrite get_api_key_loop_first by done.
    cbn [fst snd last_used_index]. split; [by rewrite Hk|].
    unfold state_of at 1. rewrite lookup_insert_eq. cbn [default last_used_index].
    unfold set_last_used_index. cbn [last_used_index]. by rewrite Htr1.
  - destruct Hprobe as [Hall Htr1].
    assert (_should_reset_cycle tr1 = false) as ->.
    { destruct (length keys) as [|n] eqn:Hlen; [by destruct keys|].
      rewrite Htr1. unfold _should_reset_cycle. cbn.
      rewrite size_empty. apply Nat.leb_gt. rewrite Hlen. lia. }
    cbn [fst snd]. rewrite !subscript_state_of.
    pose proof (get_api_key_loop_spec cd (seq 0 (length keys)) keys now (state_of s p))
      as Hspec.
    destruct (get_api_key_loop cd (seq 0 (length keys)) keys now (state_of s p))
      as [[k|] st'].
    + destruct Hspec as (Hk & _ & o & Ho & _ & ->). apply elem_of_seq in Ho.
      specialize (Hall o ltac:(lia)). rewrite rejects_fresh in Hall by done.
      unfold candidate_at in Hall. cbn in Hall. fold fk in Hk. congruence.
    + destruct Hspec as [-> _]. done.
Qed.

(** The cooldown query of a freshly built tracker. *)
Lemma all_keys_in_cooldown_init max_default p maxc now (s : store) :
  let keys := _parse_provider_keys get_provider_env_var_patterns environ py_int p in
  let init := __init__ get_provider_env_var_patterns environ py_int max_default p maxc s in
  (all_keys_in_cooldown cd now init.2 init.1).1 = true
  <-> keys = []
      \/ forall k, k ∈ keys -> in_cooldown cd (failed_keys (state_of s p)) now k = true.
Proof.
  cbv zeta. unfold all_keys_in_cooldown, __init__. cbn [fst snd _all_keys provider].
  set (keys := _parse_provider_keys _ _ _ p).
  case_bool_decide as Hnil; [split; [by left|done]|].
  destruct (cd <=? 0) eqn:Hcd; cbn [fst].
  - split; [done|]. intros [?|Hall]; [done|].
    destruct keys as [|k0 keys']; [done|].
    specialize (Hall k0 ltac:(left)). apply in_cooldown_true in Hall as [? _].
    apply Z.leb_le in Hcd. lia.
  - rewrite !subscript_state_of, all_in_cooldown_loop_spec.
    apply Z.leb_gt in Hcd. split.
    + intros Hall. right. intros k Hk. apply in_cooldown_true. split; [lia|].
      by apply Hall.
    + intros [?|Hall]; [done|]. intros k Hk.
      specialize (Hall k Hk). by apply in_cooldown_true in Hall as [_ ?].
Qed.

End RequestFacts.

(** X2: [get_api_key] returns no key exactly when the provider has no key
    or every key of the provider is in cooldown at the time of the call,
    which is exactly when [all_keys_in_cooldown()] of a tracker built on
    the same store answers true; in that case no rotation state changes. *)
Theorem get_api_key_none_iff
    (get_provider_env_var_patterns : string -> option (list string))
    (environ : list (string * string)) (py_int : string -> option Z)
    (cd max_default : Z) (p : string) (maxc : option Z) (now : Z) (s : store) :
  let keys := _parse_provider_keys get_provider_env_var_patterns environ py_int p in
  let fk := failed_keys (state_of s p) in
  let r := get_api_key get_provider_env_var_patterns environ py_int cd p now s in
  let init := __init__ get_provider_env_var_patterns environ py_int max_default p maxc s in
  (r.1 = None <-> keys = [] \/ forall k, k ∈ keys -> in_cooldown cd fk now k = true)
  /\ (r.1 = None <-> (all_keys_in_cooldown cd now init.2 init.1).1 = true)
  /\ (r.1 = None -> forall q, state_of r.2 q = state_of s q).
Proof.
  cbv zeta.
  pose proof (get_api_key_none get_provider_env_var_patterns environ py_int cd p now s)
    as Hnone. cbv zeta in Hnone.
  split_and!.
  - done.
  - rewrite Hnone. symmetry.
    apply (all_keys_in_cooldown_init get_provider_env_var_patterns environ py_int cd
             max_default p maxc now s).
  - intros Hr q.
    destruct (get_api_key_result get_provider_env_var_patterns environ py_int cd p now s)
      as (Hr1 & Hst & Hother).
    destruct (decide (q = p)) as [->|Hq]; [|by apply Hother].
    rewrite Hst. rewrite Hr1 in Hr.
    pose proof (get_api_key_loop_spec cd
                  (seq 0 (length (_parse_provider_keys get_provider_env_var_patterns
                                    environ py_int p)))
                  (_parse_provider_keys get_provider_env_var_patterns environ py_int p)
                  now (state_of s p)) as Hspec.
    destruct (get_api_key_loop _ _ _ _ _) as [[k|] st']; [done|].
    by destruct Hspec as [-> _].
Qed.

(** X3: a key returned by [get_api_key] is the first key, in rotation order
    behind [last_used_index], that is not in cooldown: it is a configured,
    non-empty key, every key before it in the turn is in cooldown, and
    afterwards [last_used_index] is a valid index of the key list that
    names the returned key. *)
Theorem get_api_key_first_available
    (get_provider_env_var_patterns : string -> option (list string))
    (environ : list (string * string)) (py_int : string -> option Z)
    (cd : Z) (p : string) (now : Z) (s : store) (k : string) :
  let keys := _parse_provider_keys get_provider_env_var_patterns environ py_int p in
  let i0 := last_used_index (state_of s p) in
  let fk := failed_keys (state_of s p) in
  let r := get_api_key get_provider_env_var_patterns environ py_int cd p now s in
  r.1 = Some k ->
  exists o, (o < length keys)%nat
    /\ k = rotation_key keys i0 o
    /\ in_cooldown cd fk now k = false
    /\ (forall o', (o' < o)%nat -> in_cooldown cd fk now (rotation_key keys i0 o') = true)
    /\ 0 <= last_used_index (state_of r.2 p) < Z.of_nat (length keys)
    /\ keys !! Z.to_nat (last_used_index (state_of r.2 p)) = Some k
    /\ k ∈ keys
    /\ k <> "".
Proof.
  cbv zeta. intros Hr.
  destruct (get_api_key_some get_provider_env_var_patterns environ py_int cd p now s k Hr)
    as (Hne & o & Ho & Hk & Hin & Hpre & Hst).
  rewrite Hst. cbn [last_used_index].
  set (keys := _parse_provider_keys _ _ _ p) in *.
  pose proof (keys_length_pos keys Hne) as Hn.
  pose proof (Z.mod_pos_bound (last_used_index (state_of s p) + 1 + Z.of_nat o) _ Hn) as Hb.
  assert (k ∈ keys) as Hel by (rewrite Hk; by apply rotation_key_elem).
  exists o. split_and!; try done; try lia.
  - rewrite Hk. unfold rotation_key, key_at.
    apply list_lookup_lookup_total_lt. lia.
  - intros ->. by apply (parse_no_empty get_provider_env_var_patterns environ py_int p).
Qed.

(** Two keys, [A] used last and [B] failed a moment ago: the call passes
    over [B] and returns [A] again. *)
Lemma get_api_key_first_available_witness :
  exists o, (o < 2)%nat
    /\ "A" = rotation_key ["A"; "B"] 0 o
    /\ forall o', (o' < o)%nat ->
         in_cooldown 60 (failed_keys (state_of (mark_key_failed "p" "B" 0
                           (get_api_key no_config env_ab py_int_decimal 60 "p" 0 ∅).2) "p"))
                     1 (rotation_key ["A"; "B"] 0 o') = true.
Proof.
  destruct (get_api_key_first_available no_config env_ab py_int_decimal 60 "p" 1
              (mark_key_failed "p" "B" 0
                 (get_api_key no_config env_ab py_int_decimal 60 "p" 0 ∅).2) "A")
    as (o & Ho & Hk & _ & Hpre & _); [vm_compute; reflexivity|].
  exists o. split_and!; [exact Ho|exact Hk|exact Hpre].
Defined.

(** X4: the first [get_next_key()] of a freshly built tracker with a
    positive cycle budget selects the key that [get_api_key] selects on the
    same store at the same time, and leaves the same [last_used_index];
    unlike [get_api_key] it leaves [failed_keys] as it is. It returns no
    key exactly when [all_keys_in_cooldown()] of that tracker answers
    true. *)
Theorem first_key_of_request
    (get_provider_env_var_patterns : string -> option (list string))
    (environ : list (string * string)) (py_int : string -> option Z)
    (cd max_default : Z) (p : string) (maxc : option Z) (now later : Z) (s : store) :
  0 < default max_default maxc ->
  let init := __init__ get_provider_env_var_patterns environ py_int max_default p maxc s in
  let r := get_next_key cd now later init.2 init.1 in
  let a := get_api_key get_provider_env_var_patterns environ py_int cd p now s in
  r.1.1 = a.1
  /\ last_used_index (state_of r.1.2 p) = last_used_index (state_of a.2 p)
  /\ failed_keys (state_of r.1.2 p) = failed_keys (state_of s p)
  /\ (r.1.1 = None <-> (all_keys_in_cooldown cd now init.2 init.1).1 = true).
Proof.
  intros Hmax. cbv zeta.
  destruct (init_first_key get_provider_env_var_patterns environ py_int cd
              max_default p maxc now later s Hmax) as [Hkey Hidx].
  split_and!; [done|done| |].
  - by rewrite get_next_key_failed_keys, init_store.
  - rewrite Hkey.
    rewrite (get_api_key_none get_provider_env_var_patterns environ py_int cd p now s).
    symmetry.
    apply (all_keys_in_cooldown_init get_provider_env_var_patterns environ py_int cd
             max_default p maxc now s).
Qed.

(** On the store where [A] failed at time 0, at time 10 both selections
    pass over [A]. *)
Lemma first_key_of_request_witness :
  (get_next_key 60 10 10
     (__init__ no_config env_ab py_int_decimal 1 "p" None store_a_failed).2
     (__init__ no_config env_ab py_int_decimal 1 "p" None store_a_failed).1).1.1
  = (get_api_key no_config env_ab py_int_decimal 60 "p" 10 store_a_failed).1.
Proof.
  destruct (first_key_of_request no_config env_ab py_int_decimal 60 1 "p" None 10 10
              store_a_failed) as (Hkey & _); [reflexivity|].
  exact Hkey.
Defined.

(** X5: while the cooldown of a key marked as failed runs, [get_api_key]
    does not return that key and keeps its failure entry; when it is the
    provider's only key the call returns no key. *)
Theorem failed_key_not_selected
    (get_provider_env_var_patterns : string -> option (list string))
    (environ : list (string * string)) (py_int : string -> option Z)
    (cd : Z) (p k : string) (t now : Z) (s : store) :
  0 < cd -> now - t < cd ->
  let r := get_api_key get_provider_env_var_patterns environ py_int cd p now
             (mark_key_failed p k t s) in
  r.1 <> Some k
  /\ failed_keys (state_of r.2 p) !! k = Some t
  /\ (_parse_provider_keys get_provider_env_var_patterns environ py_int p = [k] ->
      r.1 = None).
Proof.
  intros Hcd Hlt. cbv zeta.
  set (s' := mark_key_failed p k t s).
  assert (failed_keys (state_of s' p) !! k = Some t) as Hfk.
  { unfold s'. rewrite mark_key_failed_state, decide_True by done.
    cbn. by rewrite lookup_insert_eq. }
  assert (in_cooldown cd (failed_keys (state_of s' p)) now k = true) as Hin.
  { apply in_cooldown_true. split; [done|]. by exists t. }
  assert ((get_api_key get_provider_env_var_patterns environ py_int cd p now s').1
          <> Some k) as Hne.
  { intros Hr.
    destruct (get_api_key_some get_provider_env_var_patterns environ py_int cd p now s' k Hr)
      as (_ & o & _ & _ & Hout & _). congruence. }
  split_and!.
  - done.
  - destruct (get_api_key get_provider_env_var_patterns environ py_int cd p now s').1
      as [k'|] eqn:Hr.
    + destruct (get_api_key_some get_provider_env_var_patterns environ py_int cd p now s'
                  k' Hr) as (_ & o & _ & _ & _ & _ & ->).
      cbn [failed_keys]. destruct (0 <? cd); [|done].
      rewrite lookup_delete_ne; [done|]. intros ->. by apply Hne.
    + destruct (get_api_key_result get_provider_env_var_patterns environ py_int cd p now s')
        as (Hr1 & Hst & _).
      rewrite Hst. rewrite Hr1 in Hr.
      pose proof (get_api_key_loop_spec cd
                    (seq 0 (length (_parse_provider_keys get_provider_env_var_patterns
                                      environ py_int p)))
                    (_parse_provider_keys get_provider_env_var_patterns environ py_int p)
                    now (state_of s' p)) as Hspec.
      destruct (get_api_key_loop _ _ _ _ _) as [[k'|] st']; [done|].
      by destruct Hspec as [-> _].
  - intros Hkeys. apply get_api_key_none. right. rewrite Hkeys.
    intros k' Hk'. by apply list_elem_of_singleton in Hk' as ->.
Qed.

(** With one key [A] that failed at time 0 and a cooldown of 60 seconds,
    the call at time 10 does not return [A]. *)
Lemma failed_key_not_selected_witness :
  (get_api_key no_config env_ab py_int_decimal 60 "p" 10
     (mark_key_failed "p" "A" 0 ∅)).1 <> Some "A".
Proof.
  destruct (failed_key_not_selected no_config env_ab py_int_decimal 60 "p" "A" 0 10 ∅)
    as (Hne & _ & _); [reflexivity|reflexivity|].
  exact Hne.
Defined.

(** ** Membership in the parsed key list *)

Section MembershipFacts.

Variable get_provider_env_var_patterns : string -> option (list string).
Variable environ : list (string * string).
Variable py_int : string -> option Z.

Lemma getenv_in_elem env name v :
  getenv_in env name = Some v -> (name, v) ∈ env.
Proof.
  induction env as [|[n v'] env IH]; cbn [getenv_in]; [done|].
  destruct (String.eqb_spec n name) as [->|Hn].
  - intros [= ->]. by left.
  - intros H. right. by apply IH.
Qed.

Lemma collect_matches_elem ts env i v :
  (i, v) ∈ collect_matches py_int ts env
  <-> exists name groups,
        (name, v) ∈ env /\ re_match ts name = Some groups
        /\ py_int (hd "" groups) = Some i.
Proof.
  induction env as [|[n v'] env IH]; cbn [collect_matches].
  { split; [intros H; by apply elem_of_nil in H|].
    intros (name & groups & H & _). by apply elem_of_nil in H. }
  assert ((exists name groups, (name, v) ∈ (n, v') :: env
             /\ re_match ts name = Some groups /\ py_int (hd "" groups) = Some i)
          <-> (v = v' /\ exists groups, re_match ts n = Some groups
                          /\ py_int (hd "" groups) = Some i)
              \/ (i, v) ∈ collect_matches py_int ts env) as ->.
  { rewrite IH. split.
    - intros (name & groups & Hel & Hm & Hi).
      apply elem_of_cons in Hel as [[= -> ->]|Hel]; [left|right]; eauto.
    - intros [(-> & groups & Hm & Hi)|(name & groups & Hel & Hm & Hi)].
      + exists n, groups. split_and!; [by left|done|done].
      + exists name, groups. split_and!; [by right|done|done]. }
  destruct (re_match ts n) as [groups|] eqn:Hm.
  - destruct (py_int (hd "" groups)) as [index|] eqn:Hi.
    + rewrite elem_of_cons. split.
      * intros [[= -> ->]|H]; [left|by right]. eauto.
      * intros [(-> & groups' & [= <-] & Hi')|H]; [left|by right].
        congruence.
    + split; [by right|]. intros [(_ & groups' & [= <-] & Hi')|H]; [congruence|done].
  - split; [by right|]. by intros [(_ & groups' & ? & _)|H].
Qed.

(** What a pattern contributes: the value of the variable it names, or the
    values of the variables its compiled expression matches with an index
    that [int] accepts. *)
Lemma candidates_elem pattern v :
  v ∈ candidates environ py_int pattern
  <-> if contains "{INDEX}" pattern
      then exists name groups i,
             (name, v) ∈ environ /\ re_match (tokenize pattern) name = Some groups
             /\ py_int (hd "" groups) = Some i
      else getenv environ pattern = Some v.
Proof.
  unfold candidates. destruct (contains "{INDEX}" pattern).
  - rewrite list_elem_of_fmap. unfold _collect_indexed. split.
    + intros ([i v'] & -> & Hel). rewrite <- sort_by_index_perm in Hel.
      apply collect_matches_elem in Hel as (name & groups & ? & ? & ?).
      by exists name, groups, i.
    + intros (name & groups & i & ? & ? & ?). exists (i, v). split; [done|].
      rewrite <- sort_by_index_perm. apply collect_matches_elem.
      by exists name, groups.
  - destruct (getenv environ pattern) as [v'|]; cbn.
    + rewrite list_elem_of_singleton. split; [by intros ->|by intros [= ->]].
    + split; [intros H; by apply elem_of_nil in H|done].
Qed.

Lemma parse_elem provider k :
  k ∈ _parse_provider_keys get_provider_env_var_patterns environ py_int provider
  <-> k <> "" /\ exists pattern,
        pattern ∈ patterns_for get_provider_env_var_patterns provider
        /\ k ∈ candidates environ py_int pattern.
Proof.
  rewrite parse_keep_first, (keep_first_elem get_provider_env_var_patterns py_int).
  unfold nonempty.
  rewrite list_elem_of_filter, list_elem_of_In, in_concat.
  split.
  - intros (Hk & l & Hl & Hkl). split; [done|].
    apply in_map_iff in Hl as (pattern & <- & Hp).
    exists pattern. split; by apply list_elem_of_In.
  - intros (Hk & pattern & Hp & Hkp). split; [done|].
    exists (candidates environ py_int pattern). split; [|by apply list_elem_of_In].
    apply in_map. by apply list_elem_of_In.
Qed.

Lemma parse_elem_environ provider k :
  k ∈ _parse_provider_keys get_provider_env_var_patterns environ py_int provider ->
  exists name, (name, k) ∈ environ.
Proof.
  intros Hk. apply parse_elem in Hk as (_ & pattern & _ & Hk).
  apply candidates_elem in Hk. destruct (contains "{INDEX}" pattern).
  - destruct Hk as (name & _ & _ & ? & _). by exists name.
  - exists pattern. by apply getenv_in_elem.
Qed.

End MembershipFacts.

(** X6: a string is among the parsed keys of a provider exactly when it is
    not empty and one of the provider's patterns yields it: a pattern
    without [{INDEX}] yields the value [os.getenv] finds under that name, a
    pattern with [{INDEX}] the value of every variable whose name the
    compiled expression matches with a captured index that [int] accepts.
    So every parsed key is the value of some environment variable. *)
Theorem parsed_keys_characterised
    (get_provider_env_var_patterns : string -> option (list string))
    (environ : list (string * string)) (py_int : string -> option Z)
    (provider k : string) :
  let keys := _parse_provider_keys get_provider_env_var_patterns environ py_int provider in
  (k ∈ keys <->
     k <> "" /\ exists pattern,
       pattern ∈ patterns_for get_provider_env_var_patterns provider
       /\ if contains "{INDEX}" pattern
          then exists name groups i,
                 (name, k) ∈ environ
                 /\ re_match (tokenize pattern) name = Some groups
                 /\ py_int (hd "" groups) = Some i
          else getenv environ pattern = Some k)
  /\ (k ∈ keys -> exists name, (name, k) ∈ environ).
Proof.
  cbv zeta. split.
  - rewrite parse_elem. split.
    + intros (Hk & pattern & Hp & Hc). split; [done|]. exists pattern. split; [done|].
      by apply candidates_elem.
    + intros (Hk & pattern & Hp & Hc). split; [done|]. exists pattern. split; [done|].
      by apply candidates_elem.
  - apply parse_elem_environ.
Qed.

(** ** Switched-off cooldown *)

(** X7: with [KEY_COOLDOWN_SECONDS <= 0] failures recorded for a provider
    with keys exclude nothing: [get_api_key] returns the key behind
    [last_used_index] whatever has failed and keeps every failure entry,
    [all_keys_in_cooldown()] answers false, and the first [get_next_key()]
    of a fresh tracker with a positive budget returns that same key. *)
Theorem cooldown_disabled
    (get_provider_env_var_patterns : string -> option (list string))
    (environ : list (string * string)) (py_int : string -> option Z)
    (cd max_default : Z) (p : string) (maxc : option Z) (now later : Z) (s : store) :
  let keys := _parse_provider_keys get_provider_env_var_patterns environ py_int p in
  let i0 := last_used_index (state_of s p) in
  let a := get_api_key get_provider_env_var_patterns environ py_int cd p now s in
  let init := __init__ get_provider_env_var_patterns environ py_int max_default p maxc s in
  cd <= 0 ->
  keys <> [] ->
  a.1 = Some (rotation_key keys i0 0)
  /\ state_of a.2 p
     = mkState ((i0 + 1) mod Z.of_nat (length keys)) (failed_keys (state_of s p))
  /\ (all_keys_in_cooldown cd now init.2 init.1).1 = false
  /\ (0 < default max_default maxc ->
      (get_next_key cd now later init.2 init.1).1.1 = Some (rotation_key keys i0 0)).
Proof.
  cbv zeta. intros Hcd Hne.
  set (keys := _parse_provider_keys _ _ _ p) in *.
  assert (forall fk t k, in_cooldown cd fk t k = false) as Hfree.
  { intros fk t k. destruct (in_cooldown cd fk t k) eqn:Hin; [|done].
    apply in_cooldown_true in Hin as [? _]. lia. }
  assert ((get_api_key get_provider_env_var_patterns environ py_int cd p now s).1
          = Some (rotation_key keys (last_used_index (state_of s p)) 0)
          /\ state_of (get_api_key get_provider_env_var_patterns environ py_int cd p now s).2 p
             = mkState ((last_used_index (state_of s p) + 1) mod Z.of_nat (length keys))
                       (failed_keys (state_of s p))) as [Hkey Hst].
  { destruct (get_api_key_result get_provider_env_var_patterns environ py_int cd p now s)
      as (Hr & Hst & _).
    rewrite Hr, Hst. fold keys.
    assert (seq 0 (length keys) = 0%nat :: seq 1 (length keys - 1)) as ->.
    { destruct keys; [done|]. cbn. by rewrite Nat.sub_0_r. }
    rewrite get_api_key_loop_first by apply Hfree.
    cbn [fst snd]. replace (0 <? cd) with false by (symmetry; apply Z.ltb_ge; lia).
    unfold rotation_key. split; [done|]. do 2 f_equal. lia. }
  split_and!.
  - done.
  - done.
  - unfold all_keys_in_cooldown, __init__. cbn [fst snd _all_keys]. fold keys.
    rewrite bool_decide_false by done.
    by replace (cd <=? 0) with true by (symmetry; apply Z.leb_le; lia).
  - intros Hmax.
    destruct (init_first_key get_provider_env_var_patterns environ py_int cd
                max_default p maxc now later s Hmax) as [-> _].
    done.
Qed.

(** With the cooldown switched off, the key [A] that has just failed is
    returned again. *)
Lemma cooldown_disabled_witness :
  (get_api_key no_config env_ab py_int_decimal 0 "p" 1 store_a_failed).1
  = Some (rotation_key (_parse_provider_keys no_config env_ab py_int_decimal "p")
            (last_used_index (state_of store_a_failed "p")) 0).
Proof.
  destruct (cooldown_disabled no_config env_ab py_int_decimal 0 1 "p" None 1 1
              store_a_failed) as (Hkey & _); [reflexivity|vm_compute; discriminate|].
  exact Hkey.
Defined.

(** ** Invariants of a tracker *)

Section InvariantFacts.

Variable cd : Z.

(** A call adds to [_keys_attempted] the key it returns and nothing else. *)
Lemma get_next_key_attempted now later s tr :
  _keys_attempted (get_next_key cd now later s tr).2
  = _keys_attempted tr
    ∪ match (get_next_key cd now later s tr).1.1 with
      | Some k => {[k]}
      | None => ∅
      end.
Proof.
  rewrite get_next_key_sweeps. unfold first_sweep.
  case_bool_decide as Hne; [cbn; set_solver|].
  destruct (max_cycles tr <=? current_cycle tr); [cbn; set_solver|].
  destruct (probe cd _ now _ tr) as [[k|] tr1] eqn:Hp1.
  { destruct (probe_frame _ _ _ _ _ _ _ Hne Hp1) as (_ & _ & _ & _ & _ & _ & _ & _ & Hatt & _).
    cbn [fst snd]. done. }
  destruct (probe_frame _ _ _ _ _ _ _ Hne Hp1) as (Hprov & Hmx & Hcyc & Hkeys & Htried & Hatt).
  destruct (_should_reset_cycle tr1); [|cbn [fst snd]; rewrite Hatt; set_solver].
  unfold second_sweep. cbn [_reset_cycle provider max_cycles current_cycle _all_keys].
  destruct (max_cycles tr1 <=? current_cycle tr1 + 1);
    [cbn [fst snd _keys_attempted _reset_cycle]; rewrite Hatt; set_solver|].
  assert (Hne2 : _all_keys (_reset_cycle tr1) <> []) by (cbn; by rewrite Hkeys).
  match goal with |- context [probe cd ?m later ?fk ?t] =>
    destruct (probe cd m later fk t) as [[k|] tr3] eqn:Hp2 end.
  - destruct (probe_frame _ _ _ _ _ _ _ Hne2 Hp2)
      as (_ & _ & _ & _ & _ & _ & _ & _ & Hatt3 & _).
    cbn [fst snd]. rewrite Hatt3. cbn [_reset_cycle _keys_attempted]. by rewrite Hatt.
  - destruct (probe_frame _ _ _ _ _ _ _ Hne2 Hp2) as (_ & _ & _ & _ & _ & Hatt3).
    cbn [fst snd]. rewrite Hatt3. cbn [_reset_cycle _keys_attempted]. rewrite Hatt.
    set_solver.
Qed.

(** What every call of a run keeps, and what it returns. *)
Lemma run_frame ops : forall (s : store) tr,
  (provider (run cd ops s tr).2 = provider tr
   /\ _all_keys (run cd ops s tr).2 = _all_keys tr
   /\ max_cycles (run cd ops s tr).2 = max_cycles tr)
  /\ (forall q, q <> provider tr -> state_of (run cd ops s tr).1.2 q = state_of s q)
  /\ (forall i k c, (run cd ops s tr).1.1 !! i = Some (Some k, c) ->
        k ∈ _all_keys tr /\ c < max_cycles tr)
  /\ (_keys_attempted tr ⊆ list_to_set (_all_keys tr) ->
      _keys_attempted (run cd ops s tr).2 ⊆ list_to_set (_all_keys tr))
  /\ (current_cycle tr <= Z.max 0 (max_cycles tr) ->
      current_cycle tr <= current_cycle (run cd ops s tr).2 <= Z.max 0 (max_cycles tr)).
Proof.
  induction ops as [|[now later|key now] ops IH]; intros s tr; cbn [run].
  - cbn [fst snd]. split_and!; try done; lia.
  - pose proof (get_next_key_attempted now later s tr) as Hatt.
    destruct (get_next_key cd now later s tr) as [[r s1] tr1] eqn:Hcall.
    specialize (IH s1 tr1).
    destruct (run cd ops s1 tr1) as [[rs1 s2] tr2] eqn:Hrun. cbn [fst snd] in *.
    destruct (get_next_key_frame _ _ _ _ _ _ _ _ Hcall)
      as ((Hprov & Hmx & Hkeys & _) & Hcase & Hres & Hother).
    destruct IH as ((Hprov2 & Hkeys2 & Hmx2) & Hother2 & Hres2 & Hatt2 & Hcyc2).
    rewrite Hprov, Hkeys, Hmx in *.
    split_and!; try done.
    + intros q Hq. rewrite Hother2 by done. by apply Hother.
    + intros [|i] k c; cbn.
      * intros [= -> <-]. by destruct Hres as (? & _ & ? & _).
      * apply Hres2.
    + intros Hsub. apply Hatt2. rewrite Hatt. destruct r as [k|]; [|set_solver].
      destruct Hres as (Hk & _). apply union_subseteq. split; [done|].
      apply singleton_subseteq_l. by apply elem_of_list_to_set.
    + intros Hle.
      assert (current_cycle tr <= current_cycle tr1 <= Z.max 0 (max_cycles tr)) as Hstep.
      { destruct Hcase as [(-> & _)|(-> & _ & ? & _)]; lia. }
      specialize (Hcyc2 ltac:(lia)). lia.
  - destruct (IH (mark_failed tr key now s) tr)
      as ((Hprov & Hkeys & Hmx) & Hother & Hres & Hatt & Hcyc).
    split_and!; try done.
    intros q Hq. rewrite Hother by done.
    unfold mark_failed. by rewrite mark_key_failed_state, decide_False.
Qed.

End InvariantFacts.

(** X8: whatever calls a request makes on the tracker it built, every key
    [get_next_key()] returns is one of the provider's parsed keys, hence
    non-empty and the value of an environment variable, and it is returned
    in a cycle [c] with [0 <= c < max_cycles]. *)
Theorem returned_keys_are_configured
    (get_provider_env_var_patterns : string -> option (list string))
    (environ : list (string * string)) (py_int : string -> option Z)
    (cd max_default : Z) (p : string) (maxc : option Z) (s0 : store)
    (ops : list op) (i : nat) (k : string) (c : Z) :
  let keys := _parse_provider_keys get_provider_env_var_patterns environ py_int p in
  let init := __init__ get_provider_env_var_patterns environ py_int max_default p maxc s0 in
  (run cd ops init.2 init.1).1.1 !! i = Some (Some k, c) ->
  k ∈ keys
  /\ k <> ""
  /\ (exists name, (name, k) ∈ environ)
  /\ 0 <= c < default max_default maxc.
Proof.
  cbv zeta. intros Hi.
  destruct (run_frame cd ops
              (__init__ get_provider_env_var_patterns environ py_int max_default p maxc s0).2
              (__init__ get_provider_env_var_patterns environ py_int max_default p maxc s0).1)
    as (_ & _ & Hres & _).
  destruct (Hres i k c Hi) as [Hk Hc]. cbn in Hk, Hc.
  destruct (run_cycles cd ops _ _ i k c Hi) as [Hc0 _]. cbn in Hc0.
  split_and!; [done| |by eapply parse_elem_environ|done|done].
  intros ->. by apply (parse_no_empty get_provider_env_var_patterns environ py_int p).
Qed.

(** The first key of the cycling scenario is [A], a parsed key of the
    provider. *)
Lemma returned_keys_are_configured_witness :
  "A" ∈ _parse_provider_keys no_config env_ab py_int_decimal "p".
Proof.
  destruct (returned_keys_are_configured no_config env_ab py_int_decimal 60 1 "p"
              (Some 2) ∅ ops_s3 0 "A" 0) as (Hk & _); [vm_compute; reflexivity|].
  exact Hk.
Defined.

(** X9: the tracker a request builds keeps, through any calls of
    [get_next_key()] and [mark_failed()], its provider, its key snapshot
    and its budget; the keys tried in the cycle are keys it has attempted,
    the attempted keys are keys of the snapshot, at most [total_keys] keys
    are tried in a cycle, [current_cycle] stays between 0 and the budget,
    and [cycles_remaining] is the budget minus [current_cycle]. *)
Theorem tracker_invariants
    (get_provider_env_var_patterns : string -> option (list string))
    (environ : list (string * string)) (py_int : string -> option Z)
    (cd max_default : Z) (p : string) (maxc : option Z) (s0 : store)
    (ops : list op) :
  let keys := _parse_provider_keys get_provider_env_var_patterns environ py_int p in
  let init := __init__ get_provider_env_var_patterns environ py_int max_default p maxc s0 in
  let tr := (run cd ops init.2 init.1).2 in
  provider tr = p
  /\ _all_keys tr = keys
  /\ max_cycles tr = default max_default maxc
  /\ total_keys tr = length keys
  /\ keys_tried_this_cycle tr ⊆ _keys_attempted tr
  /\ _keys_attempted tr ⊆ list_to_set keys
  /\ (size (keys_tried_this_cycle tr) <= total_keys tr)%nat
  /\ 0 <= current_cycle tr <= Z.max 0 (default max_default maxc)
  /\ cycles_remaining tr = Z.max 0 (default max_default maxc) - current_cycle tr.
Proof.
  cbv zeta.
  set (init := __init__ _ _ _ _ _ _ _).
  destruct (init_ok get_provider_env_var_patterns environ py_int max_default p maxc s0)
    as (Hok0 & Hc0 & Ht0). fold init in Hok0, Hc0, Ht0.
  destruct (run_frame cd ops init.2 init.1)
    as ((Hprov & Hkeys & Hmx) & _ & _ & Hatt & Hcyc).
  rewrite Hc0 in Hcyc. specialize (Hcyc ltac:(lia)).
  specialize (Hatt ltac:(cbn; set_solver)).
  destruct (run cd ops init.2 init.1) as [[rs s] tr] eqn:Hrun. cbn [fst snd] in *.
  destruct (run_ok cd ops _ _ _ _ _ Hok0 Hrun) as (Hok & _).
  pose proof (tracker_ok_size tr Hok) as Hsz.
  destruct Hok as (_ & Hsub & Hnonneg).
  unfold total_keys, cycles_remaining. rewrite Hkeys, Hmx in *. cbn in *.
  split_and!; try done; lia.
Qed.

(** X10: the rotation state of a provider is touched only by operations on
    that provider: selections, failure marks, trackers and their runs, the
    cooldown query, the state query and the targeted resets of provider [p]
    leave the state of every other provider [q] as it was. *)
Theorem providers_are_isolated
    (get_provider_env_var_patterns : string -> option (list string))
    (environ : list (string * string)) (py_int : string -> option Z)
    (cd max_default : Z) (p q : string) (s : store) :
  q <> p ->
  (forall now,
     state_of (get_api_key get_provider_env_var_patterns environ py_int cd p now s).2 q
     = state_of s q)
  /\ (forall k t, state_of (mark_key_failed p k t s) q = state_of s q)
  /\ (forall maxc,
        state_of (__init__ get_provider_env_var_patterns environ py_int
                           max_default p maxc s).2 q
        = state_of s q)
  /\ (forall tr ops, provider tr = p -> state_of (run cd ops s tr).1.2 q = state_of s q)
  /\ (forall tr now, provider tr = p ->
        state_of (all_keys_in_cooldown cd now s tr).2 q = state_of s q)
  /\ state_of (get_rotation_state p s).2 q = state_of s q
  /\ (p <> "" -> state_of (reset_failed_keys (Some p) s) q = state_of s q)
  /\ (p <> "" -> state_of (reset_rotation_state (Some p) s) q = state_of s q).
Proof.
  intros Hq.
  assert (forall p', p' <> "" -> truthy (Some p') = true) as Htruthy.
  { intros p' Hp'. cbn. by destruct (String.eqb_spec p' ""). }
  split_and!.
  - intros now.
    by destruct (get_api_key_result get_provider_env_var_patterns environ py_int cd p
                   now s) as (_ & _ & ->).
  - intros k t. by rewrite mark_key_failed_state, decide_False.
  - intros maxc. apply init_store.
  - intros tr ops <-. by destruct (run_frame cd ops s tr) as (_ & -> & _).
  - intros tr now <-. unfold all_keys_in_cooldown.
    case_bool_decide; [done|]. destruct (cd <=? 0); [done|].
    cbn [snd]. apply subscript_state_of.
  - apply subscript_state_of.
  - intros Hp. rewrite reset_failed_keys_state, decide_True; [done|].
    split; [by apply Htruthy|congruence].
  - intros Hp. rewrite reset_rotation_state_state, decide_True; [done|].
    split; [by apply Htruthy|congruence].
Qed.

(** A failure recorded for provider [p] does not show in the state of
    provider [q]. *)
Lemma providers_are_isolated_witness :
  state_of (mark_key_failed "p" "A" 0 ∅) "q" = state_of ∅ "q".
Proof.
  destruct (providers_are_isolated no_config env_ab py_int_decimal 60 1 "p" "q" ∅)
    as (_ & Hmark & _); [discriminate|].
  exact (Hmark "A" 0).
Defined.

(** X11: one [get_next_key()] lowers [cycles_remaining] by at most one and
    never raises it; a call that returns a key leaves a positive
    [cycles_remaining]; with [cycles_remaining = 0] the tracker is
    exhausted and the call returns no key without touching the tracker or
    the rotation state. *)
Theorem cycles_remaining_counts_down
    (cd now later : Z) (s : store) (tr : KeyCycleTracker) :
  let r := get_next_key cd now later s tr in
  0 <= cycles_remaining r.2
  /\ cycles_remaining tr - 1 <= cycles_remaining r.2 <= cycles_remaining tr
  /\ (is_Some r.1.1 -> 0 < cycles_remaining r.2)
  /\ (cycles_remaining tr = 0 <-> max_cycles tr <= current_cycle tr)
  /\ (cycles_remaining tr = 0 -> r = (None, s, tr) /\ exhausted tr = true).
Proof.
  cbv zeta.
  destruct (get_next_key cd now later s tr) as [[r s'] tr'] eqn:Hcall.
  destruct (get_next_key_frame _ _ _ _ _ _ _ _ Hcall)
    as ((_ & Hmx & _) & Hcase & Hres & _).
  cbn [fst snd]. unfold cycles_remaining. rewrite Hmx.
  split_and!.
  - lia.
  - destruct Hcase as [(-> & _)|(-> & _)]; lia.
  - destruct Hcase as [(-> & _)|(-> & _)]; lia.
  - intros [k ->]. destruct Hres as (_ & _ & ? & _). lia.
  - lia.
  - intros Hzero. assert (max_cycles tr <= current_cycle tr) as Hle by lia.
    split.
    + rewrite <- Hcall, get_next_key_sweeps. unfold first_sweep.
      case_bool_decide; [done|].
      by replace (max_cycles tr <=? current_cycle tr) with true
        by (symmetry; apply Z.leb_le; lia).
    + apply exhausted_iff. right. by left.
Qed.

Section BudgetFacts.

Variable cd : Z.

Lemma get_next_key_no_budget now later (s : store) tr :
  max_cycles tr <= current_cycle tr ->
  get_next_key cd now later s tr = (None, s, tr).
Proof.
  intros Hle. rewrite get_next_key_sweeps. unfold first_sweep.
  case_bool_decide; [done|].
  by replace (max_cycles tr <=? current_cycle tr) with true
    by (symmetry; apply Z.leb_le; lia).
Qed.

Lemma run_no_budget ops : forall (s : store) tr,
  max_cycles tr <= current_cycle tr ->
  (run cd ops s tr).2 = tr
  /\ (forall r, r ∈ (run cd ops s tr).1.1 -> r = (None, current_cycle tr))
  /\ (forall q, last_used_index (state_of (run cd ops s tr).1.2 q)
                = last_used_index (state_of s q)).
Proof.
  induction ops as [|[now later|key now] ops IH]; intros s tr Hle; cbn [run].
  - cbn [fst snd]. split_and!; [done| |done].
    intros r Hr. by apply elem_of_nil in Hr.
  - rewrite get_next_key_no_budget by done.
    destruct (IH s tr Hle) as (Htr & Hres & Hidx).
    destruct (run cd ops s tr) as [[rs s2] tr2]. cbn [fst snd] in *.
    split_and!; [done| |done].
    intros r Hr. apply elem_of_cons in Hr as [->|Hr]; [done|by apply Hres].
  - destruct (IH (mark_failed tr key now s) tr Hle) as (Htr & Hres & Hidx).
    split_and!; [done|done|].
    intros q. rewrite Hidx. unfold mark_failed. rewrite mark_key_failed_state.
    by case_decide; subst.
Qed.

(** A key that is out of cooldown stays out of it as time passes. *)
Lemma in_cooldown_later (fk : gmap string Z) t u k :
  t <= u -> in_cooldown cd fk t k = false -> in_cooldown cd fk u k = false.
Proof.
  unfold in_cooldown. intros Htu. destruct (fk !! k) as [ft|]; [|done].
  destruct (0 <? cd); [|done]. cbn [andb].
  intros Ht%Z.ltb_ge. apply Z.ltb_ge. lia.
Qed.

End BudgetFacts.

(** X12: a tracker whose budget is zero or negative, whether passed as
    [max_cycles] or taken from [MAX_KEY_RETRY_CYCLES], is exhausted from
    the start: [cycles_remaining] is 0, every [get_next_key()] returns no
    key, the tracker never changes and no [last_used_index] moves. *)
Theorem tracker_without_budget
    (get_provider_env_var_patterns : string -> option (list string))
    (environ : list (string * string)) (py_int : string -> option Z)
    (cd max_default : Z) (p : string) (maxc : option Z) (s0 : store)
    (ops : list op) :
  default max_default maxc <= 0 ->
  let init := __init__ get_provider_env_var_patterns environ py_int max_default p maxc s0 in
  let res := run cd ops init.2 init.1 in
  exhausted init.1 = true
  /\ cycles_remaining init.1 = 0
  /\ (forall r, r ∈ res.1.1 -> r = (None, 0))
  /\ res.2 = init.1
  /\ (forall q, last_used_index (state_of res.1.2 q) = last_used_index (state_of s0 q)).
Proof.
  intros Hmax. cbv zeta.
  set (init := __init__ _ _ _ _ _ _ _).
  assert (max_cycles init.1 <= current_cycle init.1) as Hle by (cbn; lia).
  destruct (run_no_budget cd ops init.2 init.1 Hle) as (Htr & Hres & Hidx).
  split_and!.
  - apply exhausted_iff. right. by left.
  - unfold cycles_remaining. cbn. lia.
  - done.
  - done.
  - intros q. rewrite Hidx. unfold init. by rewrite init_store.
Qed.

(** A tracker built with [max_cycles = 0] on the two-key provider is
    exhausted before its first call. *)
Lemma tracker_without_budget_witness :
  exhausted (__init__ no_config env_ab py_int_decimal 1 "p" (Some 0) ∅).1 = true.
Proof.
  destruct (tracker_without_budget no_config env_ab py_int_decimal 60 1 "p" (Some 0) ∅
              [GetNextKey 0 0; GetNextKey 1 1]) as (Hex & _);
    [discriminate|].
  exact Hex.
Defined.

(** X13: a tracker walks its own index and reads only which keys are in
    cooldown: a [get_api_key] call made for the same provider at an earlier
    or equal time, which moves [last_used_index] and may drop an expired
    failure entry, changes neither the key the tracker returns next nor
    the tracker afterwards. *)
Theorem tracker_unaffected_by_get_api_key
    (get_provider_env_var_patterns : string -> option (list string))
    (environ : list (string * string)) (py_int : string -> option Z)
    (cd : Z) (p : string) (t now later : Z) (s : store) (tr : KeyCycleTracker) :
  provider tr = p -> t <= now -> t <= later ->
  let s' := (get_api_key get_provider_env_var_patterns environ py_int cd p t s).2 in
  (get_next_key cd now later s' tr).1.1 = (get_next_key cd now later s tr).1.1
  /\ (get_next_key cd now later s' tr).2 = (get_next_key cd now later s tr).2.
Proof.
  intros Hp Hnow Hlater. cbv zeta.
  set (a := get_api_key get_provider_env_var_patterns environ py_int cd p t s).
  assert (forall u k, t <= u ->
            in_cooldown cd (failed_keys (state_of a.2 p)) u k
            = in_cooldown cd (failed_keys (state_of s p)) u k) as Hsame.
  { intros u k Hu. destruct a.1 as [k'|] eqn:Ha.
    - destruct (get_api_key_some get_provider_env_var_patterns environ py_int cd p t s
                  k' Ha) as (_ & o & _ & _ & Hout & _ & Hst).
      fold a in Hst. rewrite Hst. cbn [failed_keys].
      destruct (0 <? cd); [|done].
      apply in_cooldown_delete. by apply (in_cooldown_later cd _ t u).
    - destruct (get_api_key_result get_provider_env_var_patterns environ py_int cd p t s)
        as (Hr & Hst & _).
      fold a in Hr, Hst. rewrite Hst. rewrite Hr in Ha.
      pose proof (get_api_key_loop_spec cd
                    (seq 0 (length (_parse_provider_keys get_provider_env_var_patterns
                                      environ py_int p)))
                    (_parse_provider_keys get_provider_env_var_patterns environ py_int p)
                    t (state_of s p)) as Hspec.
      destruct (get_api_key_loop _ _ _ _ _) as [[k'|] st']; [done|].
      by destruct Hspec as [-> _]. }
  apply get_next_key_ext; rewrite Hp; intros k; by apply Hsame.
Qed.

(** The two-key tracker of the cycling scenario returns [A] first, whether
    or not another request has meanwhile taken a key with [get_api_key]. *)
Lemma tracker_unaffected_by_get_api_key_witness :
  (get_next_key 60 0 0
     (get_api_key no_config env_ab py_int_decimal 60 "p" 0 store_ab).2 tracker_ab).1.1
  = (get_next_key 60 0 0 store_ab tracker_ab).1.1.
Proof.
  destruct (tracker_unaffected_by_get_api_key no_config env_ab py_int_decimal 60 "p"
              0 0 0 store_ab tracker_ab) as (Hkey & _);
    [reflexivity|discriminate|discriminate|].
  exact Hkey.
Defined.

(** X14: [mark_key_failed] records the time of the failure under the key
    and nothing else: [get_rotation_state] then shows that time for the
    key, the other entries and [last_used_index] as before; marking the key
    again replaces the time, marks of different keys commute, and the key
    is in cooldown exactly while a positive [KEY_COOLDOWN_SECONDS] has not
    elapsed since the recorded time. *)
Theorem failure_bookkeeping (cd : Z) (p k : string) (t : Z) (s : store) :
  let s1 := mark_key_failed p k t s in
  let st := (get_rotation_state p s1).1 in
  failed_keys st !! k = Some t
  /\ (forall k', k' <> k -> failed_keys st !! k' = failed_keys (state_of s p) !! k')
  /\ last_used_index st = last_used_index (state_of s p)
  /\ (forall t', mark_key_failed p k t' s1 = mark_key_failed p k t' s)
  /\ (forall k' t', k' <> k ->
        mark_key_failed p k' t' s1 = mark_key_failed p k t (mark_key_failed p k' t' s))
  /\ (forall now, in_cooldown cd (failed_keys st) now k = true <-> 0 < cd /\ now - t < cd).
Proof.
  cbv zeta. unfold get_rotation_state. cbn [fst].
  assert (state_of (mark_key_failed p k t s) p
          = set_failed_keys (<[k := t]> (failed_keys (state_of s p))) (state_of s p))
    as Hst by (by rewrite mark_key_failed_state, decide_True).
  assert (forall k0 t0 (s0 : store),
            mark_key_failed p k0 t0 s0
            = <[p := set_failed_keys (<[k0 := t0]> (failed_keys (state_of s0 p)))
                                     (state_of s0 p)]> s0) as Hdef by done.
  rewrite Hst. cbn [set_failed_keys failed_keys last_used_index].
  split_and!.
  - by rewrite lookup_insert_eq.
  - intros k' Hk'. by rewrite lookup_insert_ne.
  - done.
  - intros t'. rewrite (Hdef k t' (mark_key_failed p k t s)), Hst.
    rewrite (Hdef k t s), (Hdef k t' s), insert_insert_eq.
    cbn [set_failed_keys failed_keys last_used_index]. by rewrite insert_insert_eq.
  - intros k' t' Hk'. rewrite (Hdef k' t' (mark_key_failed p k t s)), Hst.
    rewrite (Hdef k t (mark_key_failed p k' t' s)), (mark_key_failed_state p k' t' s p).
    rewrite decide_True by done.
    rewrite (Hdef k t s), (Hdef k' t' s), !insert_insert_eq.
    cbn [set_failed_keys failed_keys last_used_index].
    by rewrite insert_insert_ne by done.
  - intros now. rewrite in_cooldown_true, lookup_insert_eq. split.
    + by intros (? & ft & [= <-] & ?).
    + intros [? ?]. split; [done|]. by exists t.
Qed.

(** ** The names an indexed pattern matches *)

Section RegexFacts.

Lemma tokenize_chr c rest :
  c <> "{"%char -> tokenize (String c rest) = Chr c :: tokenize rest.
Proof.
  intros Hc.
  destruct c as [[] [] [] [] [] [] [] []];
    first [reflexivity | exfalso; apply Hc; reflexivity].
Qed.

Lemma tokenize_literal pre rest :
  (forall a, In a (list_ascii_of_string pre) -> a <> "{"%char) ->
  tokenize (pre ++ rest) = (map Chr (list_ascii_of_string pre) ++ tokenize rest)%list.
Proof.
  induction pre as [|c pre IH]; intros Hpre; [done|].
  change (String c pre ++ rest) with (String c (pre ++ rest)).
  rewrite tokenize_chr by (apply Hpre; by left).
  cbn [list_ascii_of_string map app]. f_equal. apply IH.
  intros a Ha. apply Hpre. by right.
Qed.

Lemma re_match_literal pre ts : forall s groups,
  re_match (map Chr (list_ascii_of_string pre) ++ ts) s = Some groups
  <-> exists rest, s = pre ++ rest /\ re_match ts rest = Some groups.
Proof.
  induction pre as [|c pre IH]; intros s groups.
  - cbn [list_ascii_of_string map app]. split; [by exists s|].
    by intros (rest & -> & ?).
  - cbn [list_ascii_of_string map app re_match]. destruct s as [|a s].
    + split; [done|]. by intros (rest & ? & _).
    + destruct (Ascii.eqb_spec a c) as [->|Hac].
      * rewrite IH. split.
        -- intros (rest & -> & ?). by exists rest.
        -- intros (rest & [= ->] & ?). by exists rest.
      * split; [done|]. intros (rest & [= ? _] & _). done.
Qed.

Lemma is_digit_not_newline c : is_digit c = true -> Ascii.eqb c "010" = false.
Proof.
  intros Hc. destruct (Ascii.eqb_spec c "010") as [->|]; [|done].
  vm_compute in Hc. done.
Qed.

(** Inside the run of digits the string does not end. *)
Lemma at_end_digit s : forall k,
  (k < digit_run s)%nat -> at_end (string_drop k s) = false.
Proof.
  induction s as [|c s IH]; intros k; cbn [digit_run]; [lia|].
  destruct (is_digit c) eqn:Hc; [|lia].
  destruct k as [|k]; cbn [string_drop].
  - intros _. cbn [at_end]. destruct s; [by apply is_digit_not_newline|done].
  - intros Hk. apply IH. lia.
Qed.

Lemma string_take_drop s : forall n, string_take n s ++ string_drop n s = s.
Proof.
  induction s as [|c s IH]; intros [|n]; try done.
  cbn [string_take string_drop].
  change (String c (string_take n s ++ string_drop n s) = String c s).
  by rewrite IH.
Qed.

Lemma string_app_empty s : s ++ "" = s.
Proof.
  induction s as [|c s IH]; [done|].
  change (String c (s ++ "") = String c s). by rewrite IH.
Qed.

Lemma digit_run_take s :
  digit_run (string_take (digit_run s) s) = String.length (string_take (digit_run s) s).
Proof.
  induction s as [|c s IH]; cbn [digit_run]; [done|].
  destruct (is_digit c) eqn:Hc; [|done].
  cbn [string_take digit_run String.length]. rewrite Hc. by rewrite IH.
Qed.

Lemma digit_run_app digits rest :
  digit_run digits = String.length digits ->
  digit_run rest = 0%nat ->
  digit_run (digits ++ rest) = String.length digits
  /\ string_take (String.length digits) (digits ++ rest) = digits
  /\ string_drop (String.length digits) (digits ++ rest) = rest.
Proof.
  intros Hd Hr. induction digits as [|c digits IH].
  - cbn. split_and!; [done| |done]. by destruct rest.
  - change (String c digits ++ rest) with (String c (digits ++ rest)).
    cbn [digit_run String.length string_take string_drop] in *.
    destruct (is_digit c); [|done].
    destruct (IH ltac:(lia)) as (-> & -> & ->). done.
Qed.

(** The group [(\d+)] followed by [$]: the whole run of digits, and then
    the string has to end. *)
Lemma re_match_idx s :
  re_match [Idx] s
  = if (0 <? digit_run s)%nat && at_end (string_drop (digit_run s) s)
    then Some [string_take (digit_run s) s]
    else None.
Proof.
  cbn [re_match].
  match goal with |- ?f (digit_run s) = _ =>
    assert (forall k, (k < digit_run s)%nat -> f k = None) as Hbelow
  end.
  { induction k as [|k IH]; intros Hk; [done|].
    rewrite at_end_digit by done. apply IH. lia. }
  destruct (digit_run s) as [|n] eqn:Hrun; [done|].
  cbn [Nat.ltb Nat.leb andb].
  destruct (at_end (string_drop (S n) s)); [done|].
  apply Hbelow. lia.
Qed.

Lemma at_end_cases s : at_end s = true <-> s = "" \/ s = String "010" "".
Proof.
  destruct s as [|c [|c' s]]; cbn [at_end].
  - split; [by left|done].
  - destruct (Ascii.eqb_spec c "010") as [->|Hc].
    + split; [by right|done].
    + split; [done|]. intros [?|[= ?]]; done.
  - split; [done|]. intros [?|?]; done.
Qed.

End RegexFacts.

(** X15: for a pattern that ends in [{INDEX}] behind a prefix without an
    opening brace, the compiled expression matches a variable name exactly
    when the name is the prefix followed by one or more decimal digits,
    where one final newline after the digits is tolerated as [$] does; the
    only captured group is that run of digits. *)
Theorem indexed_pattern_matches (prefix name : string) (groups : list string) :
  (forall a, In a (list_ascii_of_string prefix) -> a <> "{"%char) ->
  re_match (tokenize (prefix ++ "{INDEX}")) name = Some groups
  <-> exists digits,
        groups = [digits]
        /\ digits <> ""
        /\ digit_run digits = String.length digits
        /\ (name = prefix ++ digits \/ name = prefix ++ digits ++ String "010" "").
Proof.
  intros Hprefix. rewrite tokenize_literal by done.
  change (tokenize "{INDEX}") with [Idx].
  rewrite re_match_literal. split.
  - intros (rest & -> & Hm). rewrite re_match_idx in Hm.
    destruct (digit_run rest) as [|n] eqn:Hrun; [done|].
    cbn [Nat.ltb Nat.leb andb] in Hm.
    destruct (at_end (string_drop (S n) rest)) eqn:Hend; [|done].
    injection Hm as <-. exists (string_take (S n) rest). split_and!.
    + done.
    + destruct rest; [done|]. done.
    + rewrite <- Hrun. apply digit_run_take.
    + rewrite <- (string_take_drop rest (S n)) at 1 3.
      apply at_end_cases in Hend as [ -> | -> ]; [left|right]; [|done].
      by rewrite string_app_empty.
  - intros (digits & -> & Hne & Hrun & [ -> | -> ]).
    + exists digits. split; [done|]. rewrite re_match_idx.
      destruct (digit_run_app digits "" Hrun eq_refl) as (Hr & Ht & Hd).
      rewrite string_app_empty in Hr, Ht, Hd. rewrite Hr, Ht, Hd.
      destruct digits; [done|]. done.
    + exists (digits ++ String "010" ""). split; [done|]. rewrite re_match_idx.
      destruct (digit_run_app digits (String "010" "") Hrun eq_refl) as (-> & -> & ->).
      destruct digits; [done|]. done.
Qed.

(** The name [OPENAI_API_KEY_12] matches the default indexed pattern of
    [openai], with the group [12]. *)
Lemma indexed_pattern_matches_witness :
  re_match (tokenize ("OPENAI_API_KEY_" ++ "{INDEX}")) "OPENAI_API_KEY_12" = Some ["12"].
Proof.
  apply (indexed_pattern_matches "OPENAI_API_KEY_" "OPENAI_API_KEY_12" ["12"]).
  - intros a Ha. cbn in Ha. intuition (subst; discriminate).
  - exists "12". split_and!; [reflexivity|discriminate|reflexivity|by left].
Defined.

(** X16: a non-empty value is found by the parser whenever a pattern of
    the provider names it: the value [os.getenv] returns for a pattern
    without [{INDEX}], and the value of any variable named by the prefix of
    a pattern [prefix{INDEX}] followed by decimal digits that [int]
    accepts. *)
Theorem configured_variables_are_parsed
    (get_provider_env_var_patterns : string -> option (list string))
    (environ : list (string * string)) (py_int : string -> option Z)
    (provider v : string) :
  v <> "" ->
  let keys := _parse_provider_keys get_provider_env_var_patterns environ py_int provider in
  let patterns := patterns_for get_provider_env_var_patterns provider in
  (forall pattern,
     pattern ∈ patterns -> contains "{INDEX}" pattern = false ->
     getenv environ pattern = Some v -> v ∈ keys)
  /\ (forall prefix digits i,
        (prefix ++ "{INDEX}") ∈ patterns ->
        (forall a, In a (list_ascii_of_string prefix) -> a <> "{"%char) ->
        digits <> "" -> digit_run digits = String.length digits ->
        py_int digits = Some i ->
        (prefix ++ digits, v) ∈ environ ->
        v ∈ keys).
Proof.
  intros Hv. cbv zeta. split.
  - intros pattern Hp Hlit Hget. apply parse_elem. split; [done|].
    exists pattern. split; [done|]. apply candidates_elem. by rewrite Hlit.
  - intros prefix digits i Hp Hprefix Hne Hrun Hint Henv.
    apply parse_elem. split; [done|].
    exists (prefix ++ "{INDEX}"). split; [done|]. apply candidates_elem.
    rewrite contains_app_r by reflexivity.
    exists (prefix ++ digits), [digits], i. split_and!; [done| |done].
    rewrite tokenize_literal by done. change (tokenize "{INDEX}") with [Idx].
    apply re_match_literal. exists digits. split; [done|].
    rewrite re_match_idx.
    destruct (digit_run_app digits "" Hrun eq_refl) as (Hr & Ht & Hd).
    rewrite string_app_empty in Hr, Ht, Hd. rewrite Hr, Ht, Hd.
    destruct digits; [done|]. done.
Qed.

(** In the environment of the parsing scenario the value [B] of
    [OPENAI_API_KEY_2] is a key of [openai]. *)
Lemma configured_variables_are_parsed_witness :
  "B" ∈ _parse_provider_keys no_config env1 py_int_decimal "openai".
Proof.
  destruct (configured_variables_are_parsed no_config env1 py_int_decimal "openai" "B")
    as [_ Hindexed]; [discriminate|].
  apply (Hindexed "OPENAI_API_KEY_" "2" 2).
  - apply list_elem_of_In. vm_compute. right. left. reflexivity.
  - intros a Ha. cbn in Ha. intuition (subst; discriminate).
  - discriminate.
  - reflexivity.
  - reflexivity.
  - apply list_elem_of_In. vm_compute. right. right. left. reflexivity.
Defined.

(** ** When [get_next_key] gives up *)

Section GiveUpFacts.

Variable cd : Z.

Lemma get_next_key_none_char now later (s : store) tr :
  tracker_ok tr ->
  (get_next_key cd now later s tr).1.1 = None
  <-> exhausted tr = true
      \/ ((size (keys_tried_this_cycle tr) < length (_all_keys tr))%nat
          /\ forall k, k ∈ _all_keys tr ->
               rejects cd now (failed_keys (state_of s (provider tr))) tr k = true).
Proof.
  intros Hok. rewrite get_next_key_sweeps, exhausted_iff. unfold first_sweep.
  case_bool_decide as Hne; [split; [by left; left|done]|].
  destruct (Z.leb_spec (max_cycles tr) (current_cycle tr)) as [Hle|Hlt];
    [split; [by left; right; left|done]|].
  rewrite subscript_state_of.
  set (fk := failed_keys (state_of s (provider tr))).
  pose proof (probe_spec cd (length (_all_keys tr)) now fk tr Hne) as Hp1.
  destruct (probe cd (length (_all_keys tr)) now fk tr) as [[k|] tr1] eqn:Hprobe.
  - destruct Hp1 as (j & Hj & _ & Hacc & _ & _). cbn [fst].
    assert (candidate_at tr j ∈ _all_keys tr) as Hel by (by apply key_at_elem).
    split; [done|]. intros [[?|[?|[Hsz _]]]|[_ Hall]]; [done|lia| |].
    + rewrite rejects_tried in Hacc; [done|]. by apply tracker_ok_swept.
    + by rewrite Hall in Hacc.
  - destruct Hp1 as [Hall Htr1].
    destruct (probe_frame _ _ _ _ _ _ _ Hne Hprobe)
      as (Hprov & Hmx & Hcyc & Hkeys & Htried & Hatt).
    unfold _should_reset_cycle. rewrite Hkeys, Htried.
    destruct (Nat.leb_spec (length (_all_keys tr)) (size (keys_tried_this_cycle tr)))
      as [Hsz|Hsz].
    + unfold second_sweep. cbn [_reset_cycle max_cycles current_cycle _all_keys provider].
      rewrite Hmx, Hcyc.
      destruct (Z.leb_spec (max_cycles tr) (current_cycle tr + 1)) as [Hle2|Hlt2];
        [split; [by left; right; right|done]|].
      assert (Hne2 : _all_keys (_reset_cycle tr1) <> []) by (cbn; by rewrite Hkeys).
      match goal with |- context [probe cd ?m later ?fk2 ?t] =>
        pose proof (probe_spec cd m later fk2 t Hne2) as Hp2;
        destruct (probe cd m later fk2 t) as [[k|] tr3]
      end.
      * cbn [fst]. split; [done|]. intros [[?|[?|[_ ?]]]|[? _]]; [done|lia|lia|lia].
      * exfalso. destruct Hp2 as [Hall2 _].
        assert (0 < length (_all_keys tr1))%nat as Hpos
          by (rewrite Hkeys; destruct (_all_keys tr); [done|cbn; lia]).
        specialize (Hall2 0%nat Hpos). unfold rejects in Hall2.
        cbn [_reset_cycle keys_tried_this_cycle _keys_attempted] in Hall2.
        rewrite bool_decide_false in Hall2 by set_solver. cbn [orb] in Hall2.
        apply andb_true_iff in Hall2 as [Hnot _]. apply bool_decide_eq_true in Hnot.
        apply Hnot. rewrite Hatt.
        assert (candidate_at (_reset_cycle tr1) 0 ∈ keys_tried_this_cycle tr) as Hin.
        { apply tracker_ok_swept; [done|done|].
          unfold candidate_at. cbn [_reset_cycle _all_keys]. rewrite Hkeys.
          by apply key_at_elem. }
        destruct Hok as (_ & Hsub & _). by apply Hsub.
    + cbn [fst]. split; [|done]. intros _. right. split; [done|].
      intros k Hk.
      destruct (rotation_covers (_all_keys tr) (_key_index tr) k Hk) as (o & Ho & ->).
      by apply Hall.
Qed.

End GiveUpFacts.

(** X17: for the tracker of a request, after any calls made on it,
    [get_next_key()] returns no key in exactly two situations: the tracker
    is [exhausted()], or the cycle is not yet swept and every key still
    untried in it has not been attempted by this tracker and is in
    cooldown. *)
Theorem get_next_key_none_iff
    (get_provider_env_var_patterns : string -> option (list string))
    (environ : list (string * string)) (py_int : string -> option Z)
    (cd max_default : Z) (p : string) (maxc : option Z) (s0 : store)
    (ops : list op) (now later : Z) :
  let init := __init__ get_provider_env_var_patterns environ py_int max_default p maxc s0 in
  let res := run cd ops init.2 init.1 in
  let tr := res.2 in
  let fk := failed_keys (state_of res.1.2 p) in
  (get_next_key cd now later res.1.2 tr).1.1 = None
  <-> exhausted tr = true
      \/ ((size (keys_tried_this_cycle tr) < total_keys tr)%nat
          /\ forall k, k ∈ _all_keys tr -> k ∉ keys_tried_this_cycle tr ->
               (k ∉ _keys_attempted tr) /\ in_cooldown cd fk now k = true).
Proof.
  cbv zeta.
  set (init := __init__ _ _ _ _ _ _ _).
  destruct (init_ok get_provider_env_var_patterns environ py_int max_default p maxc s0)
    as (Hok0 & _). fold init in Hok0.
  destruct (run_frame cd ops init.2 init.1) as ((Hprov & _) & _).
  destruct (run cd ops init.2 init.1) as [[rs s] tr] eqn:Hrun. cbn [fst snd] in *.
  destruct (run_ok cd ops _ _ _ _ _ Hok0 Hrun) as (Hok & _).
  rewrite (get_next_key_none_char cd now later s tr Hok).
  change (provider init.1) with p in Hprov. rewrite Hprov. unfold total_keys.
  split; (intros [Hex|[Hsz Hall]]; [by left|right]; split; [done|]).
  - intros k Hk Hnot. specialize (Hall k Hk). unfold rejects in Hall.
    rewrite bool_decide_false in Hall by done. cbn [orb] in Hall.
    apply andb_true_iff in Hall as [Hatt Hin].
    by apply bool_decide_eq_true in Hatt.
  - intros k Hk. unfold rejects.
    destruct (decide (k ∈ keys_tried_this_cycle tr)) as [Hin|Hnot].
    + by rewrite bool_decide_true.
    + destruct (Hall k Hk Hnot) as [Hatt ->].
      rewrite bool_decide_false by done. by rewrite bool_decide_true.
Qed.

(** X18: a [get_next_key()] that returns a key publishes the tracker's
    index as the provider's [last_used_index]: it is a valid index of the
    key snapshot and names the returned key, which is then among the keys
    tried in the cycle and the keys attempted; a call that returns no key
    changes no rotation state; and no call changes [failed_keys]. *)
Theorem get_next_key_publishes_index
    (cd now later : Z) (s : store) (tr : KeyCycleTracker) :
  let r := get_next_key cd now later s tr in
  let st := state_of r.1.2 (provider tr) in
  (forall k, r.1.1 = Some k ->
     last_used_index st = _key_index r.2
     /\ 0 <= last_used_index st < Z.of_nat (total_keys tr)
     /\ _all_keys tr !! Z.to_nat (last_used_index st) = Some k
     /\ k ∈ keys_tried_this_cycle r.2
     /\ k ∈ _keys_attempted r.2)
  /\ (r.1.1 = None -> forall q, state_of r.1.2 q = state_of s q)
  /\ failed_keys st = failed_keys (state_of s (provider tr)).
Proof.
  cbv zeta.
  pose proof (get_next_key_failed_keys cd now later s tr (provider tr)) as Hfk.
  destruct (get_next_key cd now later s tr) as [[r s'] tr'] eqn:Hcall.
  destruct (get_next_key_frame _ _ _ _ _ _ _ _ Hcall)
    as (_ & Hcase & Hres & Hother).
  cbn [fst snd] in *. unfold total_keys. split_and!.
  - intros k ->. destruct Hres as (Hk & Hatt & _ & Hidx & Hkey & ->).
    cbn [set_last_used_index last_used_index]. split_and!; [done|lia|lia| |  |done].
    + rewrite Hkey. apply list_lookup_lookup_total_lt. lia.
    + destruct Hcase as [(_ & _ & _ & ->)|(_ & _ & _ & ->)]; set_solver.
  - intros ->. intros q. destruct (decide (q = provider tr)) as [->|Hq]; [done|].
    by apply Hother.
  - done.
Qed.

(** ** Edge cases of the resets *)

(** X19: a reset called with an empty provider name acts like the reset of
    all providers; a targeted reset of a provider without an entry in the
    rotation state leaves the state untouched and creates no entry; both
    resets are idempotent; and [reset_failed_keys] never moves a
    [last_used_index] nor adds or removes an entry. *)
Theorem resets_edge_cases (o : option string) (p : string) (s : store) :
  (truthy o = false ->
     reset_failed_keys o s = reset_failed_keys None s /\ reset_rotation_state o s = ∅)
  /\ truthy (Some "") = false
  /\ (p <> "" -> s !! p = None ->
      reset_failed_keys (Some p) s = s /\ reset_rotation_state (Some p) s = s)
  /\ reset_failed_keys o (reset_failed_keys o s) = reset_failed_keys o s
  /\ reset_rotation_state o (reset_rotation_state o s) = reset_rotation_state o s
  /\ (forall q, last_used_index (state_of (reset_failed_keys o s) q)
                = last_used_index (state_of s q))
  /\ dom (reset_failed_keys o s) = dom s.
Proof.
  split_and!.
  - intros Ho. unfold reset_failed_keys, reset_rotation_state. by rewrite Ho.
  - done.
  - intros Hp Hs. unfold reset_failed_keys, reset_rotation_state.
    change (default "" (Some p)) with p.
    cbn [truthy]. destruct (String.eqb_spec p ""); [done|]. cbn [negb].
    by rewrite Hs.
  - unfold reset_failed_keys. destruct (truthy o).
    + destruct (s !! default "" o) as [st|] eqn:Hs; [|by rewrite Hs].
      by rewrite lookup_insert_eq, insert_insert_eq.
    + apply map_eq. intros q. rewrite !lookup_fmap. by destruct (s !! q).
  - unfold reset_rotation_state. destruct (truthy o); [|done].
    destruct (s !! default "" o) as [st|] eqn:Hs; [|by rewrite Hs].
    by rewrite lookup_insert_eq, insert_insert_eq.
  - intros q. rewrite reset_failed_keys_state. by case_decide.
  - unfold reset_failed_keys. destruct (truthy o); [|by rewrite dom_fmap_L].
    destruct (s !! default "" o) as [st|] eqn:Hs; [|done].
    rewrite dom_insert_L. apply elem_of_dom_2 in Hs. set_solver.
Qed.

(** ** Rotation across requests *)

(** X20: the rotation continues from one request to the next: when the
    tracker of a first request has been handed key [k], the tracker of a
    request built afterwards starts behind [k], so its first
    [get_next_key()] returns the key that follows [k] in the key list,
    wrapping around, provided that key is not in cooldown. *)
Theorem rotation_continues_across_requests
    (get_provider_env_var_patterns : string -> option (list string))
    (environ : list (string * string)) (py_int : string -> option Z)
    (cd max_default : Z) (p : string) (maxc1 maxc2 : option Z)
    (now1 later1 now2 later2 : Z) (s : store) (k : string) :
  let keys := _parse_provider_keys get_provider_env_var_patterns environ py_int p in
  let first := __init__ get_provider_env_var_patterns environ py_int max_default p maxc1 s in
  let r1 := get_next_key cd now1 later1 first.2 first.1 in
  let i := last_used_index (state_of r1.1.2 p) in
  let second := __init__ get_provider_env_var_patterns environ py_int max_default p maxc2
                         r1.1.2 in
  let r2 := get_next_key cd now2 later2 second.2 second.1 in
  r1.1.1 = Some k ->
  0 < default max_default maxc2 ->
  in_cooldown cd (failed_keys (state_of s p)) now2 (key_at keys (i + 1)) = false ->
  keys !! Z.to_nat i = Some k
  /\ r2.1.1 = Some (key_at keys (i + 1))
  /\ last_used_index (state_of r2.1.2 p) = (i + 1) mod Z.of_nat (length keys).
Proof.
  cbv zeta. intros Hr1 Hmax Hfree.
  set (keys := _parse_provider_keys _ _ _ p) in *.
  set (first := __init__ _ _ _ _ p maxc1 s) in *.
  pose proof (get_next_key_failed_keys cd now1 later1 first.2 first.1 p) as Hfk.
  unfold first in Hfk at 3. rewrite init_store in Hfk.
  destruct (get_next_key cd now1 later1 first.2 first.1) as [[r s1] tr1] eqn:Hcall.
  cbn [fst snd] in *. subst r.
  destruct (get_next_key_frame _ _ _ _ _ _ _ _ Hcall)
    as (_ & _ & (Hk & _ & _ & Hidx & Hkey & Hst) & _).
  change (provider first.1) with p in Hst. change (_all_keys first.1) with keys in *.
  assert (keys <> []) as Hne by (intros Hnil; rewrite Hnil in Hk; by apply elem_of_nil in Hk).
  rewrite Hst in *. cbn [set_last_used_index last_used_index] in *.
  split.
  { rewrite Hkey. apply list_lookup_lookup_total_lt. lia. }
  destruct (init_first_key get_provider_env_var_patterns environ py_int cd
              max_default p maxc2 now2 later2 s1 Hmax) as [-> ->].
  destruct (get_api_key_result get_provider_env_var_patterns environ py_int cd p now2 s1)
    as (-> & -> & _).
  fold keys. rewrite Hst.
  assert (seq 0 (length keys) = 0%nat :: seq 1 (length keys - 1)) as ->.
  { destruct keys; [done|]. cbn. by rewrite Nat.sub_0_r. }
  set (st := set_last_used_index (_key_index tr1) (state_of first.2 p)).
  assert (last_used_index st + 1 + Z.of_nat 0 = _key_index tr1 + 1) as Hpos
    by (cbn; lia).
  rewrite get_api_key_loop_first.
  - cbn [fst snd last_used_index]. by rewrite Hpos.
  - rewrite Hpos. cbn [st set_last_used_index failed_keys].
    unfold first. rewrite init_store. done.
Qed.

(** Three keys and no failure: the first request is handed [A], the next
    request starts with [B]. *)
Lemma rotation_continues_across_requests_witness :
  (get_next_key 60 1 1
     (__init__ no_config env_abc py_int_decimal 1 "p" None
        (get_next_key 60 0 0 (__init__ no_config env_abc py_int_decimal 1 "p" None ∅).2
           (__init__ no_config env_abc py_int_decimal 1 "p" None ∅).1).1.2).2
     (__init__ no_config env_abc py_int_decimal 1 "p" None
        (get_next_key 60 0 0 (__init__ no_config env_abc py_int_decimal 1 "p" None ∅).2
           (__init__ no_config env_abc py_int_decimal 1 "p" None ∅).1).1.2).1).1.1
  = Some "B".
Proof.
  destruct (rotation_continues_across_requests no_config env_abc py_int_decimal 60 1 "p"
              None None 0 0 1 1 ∅ "A") as (_ & Hkey & _);
    [vm_compute; reflexivity|reflexivity|vm_compute; reflexivity|].
  rewrite Hkey. vm_compute. reflexivity.
Defined.

(** ** Provider names and variable names *)

Section PrefixFacts.

Lemma upper_ascii_idem c : upper_ascii (upper_ascii c) = upper_ascii c.
Proof. by destruct c as [[] [] [] [] [] [] [] []]. Qed.

Lemma upper_idem s : upper (upper s) = upper s.
Proof.
  induction s as [|c s IH]; [done|]. cbn [upper]. by rewrite upper_ascii_idem, IH.
Qed.

Lemma replace_dash_upper_ascii c :
  (if Ascii.eqb (upper_ascii (if Ascii.eqb c "-" then "_" else c)) "-"
   then "_"%char else upper_ascii (if Ascii.eqb c "-" then "_" else c))
  = if Ascii.eqb (upper_ascii c) "-" then "_"%char else upper_ascii c.
Proof. by destruct c as [[] [] [] [] [] [] [] []]. Qed.

Lemma replace_dash_idem_ascii c :
  (if Ascii.eqb (upper_ascii (if Ascii.eqb (upper_ascii c) "-" then "_" else upper_ascii c))
                "-"
   then "_"%char
   else upper_ascii (if Ascii.eqb (upper_ascii c) "-" then "_" else upper_ascii c))
  = if Ascii.eqb (upper_ascii c) "-" then "_"%char else upper_ascii c.
Proof. by destruct c as [[] [] [] [] [] [] [] []]. Qed.

Lemma env_prefix_upper s : env_prefix (upper s) = env_prefix s.
Proof. unfold env_prefix. by rewrite upper_idem. Qed.

Lemma env_prefix_replace s : env_prefix (replace_char "-" "_" s) = env_prefix s.
Proof.
  unfold env_prefix. induction s as [|c s IH]; [done|].
  cbn [replace_char upper]. by rewrite replace_dash_upper_ascii, IH.
Qed.

Lemma env_prefix_idem s : env_prefix (env_prefix s) = env_prefix s.
Proof.
  unfold env_prefix. induction s as [|c s IH]; [done|].
  cbn [replace_char upper]. by rewrite replace_dash_idem_ascii, IH.
Qed.

End PrefixFacts.

(** X21: for providers without configured patterns (the lookup raises or
    returns an empty list) the variable names derive from the provider
    name in upper case with dashes turned into underscores, so names that
    differ only in letter case or in dash versus underscore, and the
    derived prefix itself, read the same keys. *)
Theorem provider_names_are_normalised
    (get_provider_env_var_patterns : string -> option (list string))
    (environ : list (string * string)) (py_int : string -> option Z)
    (p q : string) :
  (get_provider_env_var_patterns p = None \/ get_provider_env_var_patterns p = Some []) ->
  (get_provider_env_var_patterns q = None \/ get_provider_env_var_patterns q = Some []) ->
  env_prefix p = env_prefix q ->
  _parse_provider_keys get_provider_env_var_patterns environ py_int p
  = _parse_provider_keys get_provider_env_var_patterns environ py_int q
  /\ patterns_for get_provider_env_var_patterns p
     = [env_prefix p ++ "_API_KEY"; env_prefix p ++ "_API_KEY_{INDEX}"]
  /\ env_prefix (upper p) = env_prefix p
  /\ env_prefix (replace_char "-" "_" p) = env_prefix p
  /\ env_prefix (env_prefix p) = env_prefix p.
Proof.
  intros Hp Hq Heq.
  assert (forall x, (get_provider_env_var_patterns x = None
                     \/ get_provider_env_var_patterns x = Some []) ->
                    patterns_for get_provider_env_var_patterns x = default_patterns x)
    as Hdefault.
  { intros x [Hx|Hx]; unfold patterns_for; by rewrite Hx. }
  split_and!.
  - unfold _parse_provider_keys. rewrite (Hdefault p Hp), (Hdefault q Hq).
    unfold default_patterns. by rewrite Heq.
  - by rewrite (Hdefault p Hp).
  - apply env_prefix_upper.
  - apply env_prefix_replace.
  - apply env_prefix_idem.
Qed.

(** Without configuration, [my-provider] and [MY_PROVIDER] read the same
    variables. *)
Lemma provider_names_are_normalised_witness :
  _parse_provider_keys no_config env1 py_int_decimal "my-provider"
  = _parse_provider_keys no_config env1 py_int_decimal "MY_PROVIDER".
Proof.
  destruct (provider_names_are_normalised no_config env1 py_int_decimal
              "my-provider" "MY_PROVIDER") as (Hkeys & _);
    [by left|by left|reflexivity|].
  exact Hkeys.
Defined.

(** ** Keys in the log *)

Section HintFacts.

Lemma string_length_app x y :
  String.length (x ++ y) = (String.length x + String.length y)%nat.
Proof.
  induction x as [|c x IH]; [done|].
  change (String c x ++ y) with (String c (x ++ y)). cbn [String.length].
  by rewrite IH.
Qed.

Lemma string_drop_app x y : forall m,
  string_drop (String.length x + m) (x ++ y) = string_drop m y.
Proof.
  induction x as [|c x IH]; intros m; [done|].
  change (String c x ++ y) with (String c (x ++ y)).
  cbn [String.length Nat.add string_drop]. apply IH.
Qed.

Lemma string_drop_length s : forall m,
  (m <= String.length s)%nat ->
  String.length (string_drop m s) = (String.length s - m)%nat.
Proof.
  induction s as [|c s IH]; intros [|m] Hm; cbn [string_drop String.length] in *;
    try done; try lia.
  apply IH. lia.
Qed.

End HintFacts.

(** X22: the hint that stands for a key in the log messages of
    [get_next_key] and [mark_failed] shows at most the last four characters
    of the key: for a key of four or more characters it is three dots
    followed by exactly the last four characters, so it does not depend on
    anything before them, and a key of exactly four characters appears in
    full; a shorter key is replaced by four asterisks. *)
Theorem key_hint_shows_last_four (key : string) :
  ((4 <= String.length key)%nat ->
     key_hint key = "..." ++ last_chars 4 key
     /\ String.length (last_chars 4 key) = 4%nat
     /\ (forall before, key_hint (before ++ key) = key_hint key)
     /\ (String.length key = 4%nat -> key_hint key = "..." ++ key))
  /\ ((String.length key < 4)%nat -> key_hint key = "****").
Proof.
  unfold key_hint, last_chars. split.
  - intros Hlen.
    replace (4 <=? String.length key)%nat with true by (symmetry; by apply Nat.leb_le).
    split_and!.
    + done.
    + rewrite string_drop_length by lia. lia.
    + intros before. rewrite string_length_app.
      replace (4 <=? String.length before + String.length key)%nat with true
        by (symmetry; apply Nat.leb_le; lia).
      replace (String.length before + String.length key - 4)%nat
        with (String.length before + (String.length key - 4))%nat by lia.
      by rewrite string_drop_app.
    + intros ->. done.
  - intros Hlen.
    by replace (4 <=? String.length key)%nat with false
      by (symmetry; apply Nat.leb_gt; lia).
Qed.
